(** * d-translations-manager: key paths, completeness statistics,
      invite-code joins and the local/shared project stores

    A shallow embedding of the TypeScript sources

    - lib/storage ([flattenKeys], [getValueByPath], [setValueByPath],
      [buildKeyTree], and the IndexedDB project store),
    - components/tree-visualization ([calculateNodeStats],
      [folderProgress], [translationStatus], [stats], [languageStats],
      [langProgress]),
    - the API routes: POST /api/join, GET, POST and DELETE of
      /api/projects/[id]/invites, GET, PUT and DELETE of
      /api/projects/[id], POST /api/projects, GET and PUT of
      /api/users/me,
    - components/translation-manager ([handleSave],
      [handleUploadToCloud], [handleFileUpload], [handleOpenProject],
      [handleDeleteProject], [handleRenameProject], [handleAddLanguage],
      [handleRemoveLanguage], [handleTranslationChange]) with lib/api
      ([hasUserProfile]),
    - components/collaboration/cloud-projects-manager
      ([getProjectRole], [handleProjectJoined]),

    followed by the properties of the specification that were checked
    against them and by further properties of the same code.

    Modelling conventions.

    - A JavaScript value is a term of [JS.value].  An object is the list of
      its own enumerable properties in the order [Object.keys] reports them
      (array-index keys in ascending order first, then the other keys in
      creation order); a well-formed object has no repeated key.  An array
      carries its elements and, separately, the non-index properties that an
      assignment may have added to it.
    - Only own data properties are modelled.  Members inherited from
      [Object.prototype] and [Array.prototype], and the [length] of an
      array, are not: [JS.prototype_names] lists those names, and
      [own_name] and [own_path] are the hypotheses that keep a key or a
      path out of them.
    - Numbers carry an integer payload; the functions below never compute
      with the numbers stored in a document.
    - Strings are sequences of 8-bit characters; [toUpperCase] is the ASCII
      one, [toLowerCase] and [trim] are those of the code units below
      U+0100.
    - An exception is an [JS.outcome] of the form [Throw e]; module code is
      strict, so assigning a property of a primitive throws.
    - Asynchronous handlers are cut at their [await]s: each database or
      storage call is one atomic step on an explicit state. *)

From Stdlib Require Import ZArith Lia Ascii.
From Stdlib Require Import Floats.SpecFloat.
From Stdlib Require Import DecimalString.
From stdpp Require Import prelude strings gmap.

Local Open Scope string_scope.
Local Open Scope list_scope.

(* ================================================================== *)
(** ** JavaScript values and the property operations the sources use  *)
(* ================================================================== *)

Module JS.

(** Exceptions.  [InvalidDocument] is the name the specification's error
    taxonomy uses for a malformed document; no source function raises
    it, it is here so that statements about it can be written. *)
Inductive error : Type :=
| TypeError
| SyntaxError
| InvalidDocument.

Inductive outcome (A : Type) : Type :=
| Ok (a : A)
| Throw (e : error).
Arguments Ok {A} a.
Arguments Throw {A} e.

#[export] Instance outcome_ret : MRet outcome := fun A a => Ok a.

#[export] Instance outcome_bind : MBind outcome := fun A B f x =>
  match x with
  | Ok a => f a
  | Throw e => Throw e
  end.

Unset Elimination Schemes.
Inductive value : Type :=
| VUndef
| VNull
| VBool (b : bool)
| VNum (n : Z)
| VStr (s : string)
| VHole                                     (* an empty slot of an array *)
| VArr (elems : list value) (props : list (string * value))
| VObj (props : list (string * value)).
Set Elimination Schemes.

Inductive js_type : Type :=
| TUndefined | TObject | TBoolean | TNumber | TString.

Definition js_type_eqb (a b : js_type) : bool :=
  match a, b with
  | TUndefined, TUndefined | TObject, TObject | TBoolean, TBoolean
  | TNumber, TNumber | TString, TString => true
  | _, _ => false
  end.

(** [typeof v]; note [typeof null === 'object'] and arrays are objects. *)
Definition typeof (v : value) : js_type :=
  match v with
  | VUndef | VHole => TUndefined
  | VNull => TObject
  | VBool _ => TBoolean
  | VNum _ => TNumber
  | VStr _ => TString
  | VArr _ _ | VObj _ => TObject
  end.

Definition is_null (v : value) : bool :=
  match v with VNull => true | _ => false end.

Definition is_undefined (v : value) : bool :=
  match v with VUndef | VHole => true | _ => false end.

Definition isArray (v : value) : bool :=
  match v with VArr _ _ => true | _ => false end.

(** [typeof v === 'object' && v !== null && !Array.isArray(v)] *)
Definition is_plain_object (v : value) : bool :=
  js_type_eqb (typeof v) TObject && negb (is_null v) && negb (isArray v).

(** Truthiness, as [||] and [if] test it. *)
Definition truthy (v : value) : bool :=
  match v with
  | VUndef | VHole | VNull => false
  | VBool b => b
  | VNum n => negb (n =? 0)%Z
  | VStr s => negb (String.eqb s "")
  | VArr _ _ | VObj _ => true
  end.

(** *** Array indices *)

Definition digit_of (c : ascii) : option N :=
  let n := N_of_ascii c in
  if ((48 <=? n) && (n <=? 57))%N then Some (n - 48)%N else None.

Fixpoint digits_value (s : string) (acc : N) : option N :=
  match s with
  | EmptyString => Some acc
  | String c r =>
      match digit_of c with
      | Some d => digits_value r (10 * acc + d)%N
      | None => None
      end
  end.

(** A key is an array index when it is the canonical decimal numeral of
    an integer below 2^32 - 1. *)
Definition array_index (s : string) : option N :=
  match s with
  | EmptyString => None
  | String "0" EmptyString => Some 0%N
  | String "0" _ => None
  | _ =>
      match digits_value s 0 with
      | Some n => if (n <? 4294967295)%N then Some n else None
      | None => None
      end
  end.

Definition index_string (i : nat) : string :=
  NilZero.string_of_uint (Nat.to_uint i).

(** *** Own properties of objects *)

Fixpoint lookup_prop (k : string) (ps : list (string * value)) : option value :=
  match ps with
  | [] => None
  | (k', v) :: rest => if String.eqb k' k then Some v else lookup_prop k rest
  end.

Fixpoint replace_prop (k : string) (v : value) (ps : list (string * value))
  : list (string * value) :=
  match ps with
  | [] => []
  | (k', v') :: rest =>
      if String.eqb k' k then (k', v) :: rest
      else (k', v') :: replace_prop k v rest
  end.

(** [key_le a b]: key [a] is not reported after key [b] by [Object.keys]
    when [b] was created last: indices come first, in numeric order. *)
Definition key_le (a b : string) : bool :=
  match array_index a, array_index b with
  | Some i, Some j => (i <=? j)%N
  | Some _, None => true
  | None, None => true
  | None, Some _ => false
  end.

(** Creating property [k]: it goes after every key that stays before it. *)
Fixpoint create_prop (k : string) (v : value) (ps : list (string * value))
  : list (string * value) :=
  match ps with
  | [] => [(k, v)]
  | (k', v') :: rest =>
      if key_le k' k then (k', v') :: create_prop k v rest
      else (k, v) :: (k', v') :: rest
  end.

Definition assign_prop (k : string) (v : value) (ps : list (string * value))
  : list (string * value) :=
  match lookup_prop k ps with
  | Some _ => replace_prop k v ps
  | None => create_prop k v ps
  end.

(** Non-index properties of an array keep their creation order. *)
Definition assign_extra (k : string) (v : value) (ps : list (string * value))
  : list (string * value) :=
  match lookup_prop k ps with
  | Some _ => replace_prop k v ps
  | None => ps ++ [(k, v)]
  end.

(** *** Elements of arrays *)

Definition read_elem (es : list value) (i : nat) : value :=
  match nth_error es i with
  | Some VHole | None => VUndef
  | Some v => v
  end.

Fixpoint write_elem (es : list value) (i : nat) (v : value) : list value :=
  match es, i with
  | [], O => [v]
  | [], S i' => VHole :: write_elem [] i' v
  | _ :: rest, O => v :: rest
  | e :: rest, S i' => e :: write_elem rest i' v
  end.

Definition has_elem (es : list value) (i : nat) : bool :=
  match nth_error es i with
  | Some VHole | None => false
  | Some _ => true
  end.

Definition char_at (s : string) (i : nat) : value :=
  match String.get i s with
  | Some c => VStr (String c EmptyString)
  | None => VUndef
  end.

(** *** [k in o], [o[k]] and [o[k] = v] *)

(** The three operations act on own data properties.  They are the
    operations of the source for every key that is not in
    [prototype_names] (defined at the end of this module); [own_name]
    and [own_path] are the hypotheses that keep a key or a path out of
    that list. *)

(** [k in o] throws a [TypeError] unless [o] is an object. *)
Definition has_prop (o : value) (k : string) : outcome bool :=
  match o with
  | VObj ps => Ok (bool_decide (is_Some (lookup_prop k ps)))
  | VArr es ps =>
      match array_index k with
      | Some i => Ok (has_elem es (N.to_nat i))
      | None => Ok (bool_decide (is_Some (lookup_prop k ps)))
      end
  | _ => Throw TypeError
  end.

Definition read_prop (k : string) (ps : list (string * value)) : value :=
  match lookup_prop k ps with
  | Some v => v
  | None => VUndef
  end.

(** [o[k]], for an [o] that is neither [null] nor [undefined] (every
    caller tests that first). *)
Definition get_prop (o : value) (k : string) : value :=
  match o with
  | VObj ps => read_prop k ps
  | VArr es ps =>
      match array_index k with
      | Some i => read_elem es (N.to_nat i)
      | None => read_prop k ps
      end
  | VStr s =>
      match array_index k with
      | Some i => char_at s (N.to_nat i)
      | None => VUndef
      end
  | _ => VUndef
  end.

(** [o[k] = v] in strict code. *)
Definition set_prop (o : value) (k : string) (v : value) : outcome value :=
  match o with
  | VObj ps => Ok (VObj (assign_prop k v ps))
  | VArr es ps =>
      match array_index k with
      | Some i => Ok (VArr (write_elem es (N.to_nat i) v) ps)
      | None => Ok (VArr es (assign_extra k v ps))
      end
  | _ => Throw TypeError
  end.

(** *** [JSON.parse(JSON.stringify(v))] *)

(** The copy of a value nested in a document: a property whose value is
    [undefined] is dropped, an [undefined] or missing element becomes
    [null], the non-index properties of an array are dropped. *)
Fixpoint json_copy (v : value) : value :=
  match v with
  | VObj ps =>
      VObj ((fix copy_props (ps : list (string * value)) :=
               match ps with
               | [] => []
               | (k, x) :: rest =>
                   if is_undefined x then copy_props rest
                   else (k, json_copy x) :: copy_props rest
               end) ps)
  | VArr es _ =>
      VArr ((fix copy_elems (es : list value) :=
               match es with
               | [] => []
               | x :: rest =>
                   (if is_undefined x then VNull else json_copy x)
                     :: copy_elems rest
               end) es) []
  | VHole => VUndef
  | _ => v
  end.

(** At top level, [JSON.stringify(undefined)] is [undefined], which
    [JSON.parse] rejects with a [SyntaxError]. *)
Definition JSON_parse_stringify (v : value) : outcome value :=
  if is_undefined v then Throw SyntaxError else Ok (json_copy v).

(** *** The names the prototypes define *)

(** The string-keyed members of [Object.prototype] and of
    [Array.prototype] (ECMAScript 2023, Annex B included), and the
    [length] of an array.  [get_prop], [has_prop] and [set_prop] are
    [obj[k]], [k in obj] and [obj[k] = v] for the keys that are not in
    this list; for a key of the list the source also reaches the
    inherited member (a function, or the accessor [__proto__]) or the
    [length] of the array. *)
Definition prototype_names : list string :=
  ["__proto__"; "constructor"; "hasOwnProperty"; "isPrototypeOf";
   "propertyIsEnumerable"; "toLocaleString"; "toString"; "valueOf";
   "__defineGetter__"; "__defineSetter__"; "__lookupGetter__";
   "__lookupSetter__";
   "length"; "at"; "concat"; "copyWithin"; "entries"; "every"; "fill";
   "filter"; "find"; "findIndex"; "findLast"; "findLastIndex"; "flat";
   "flatMap"; "forEach"; "includes"; "indexOf"; "join"; "keys";
   "lastIndexOf"; "map"; "pop"; "push"; "reduce"; "reduceRight";
   "reverse"; "shift"; "slice"; "some"; "sort"; "splice"; "toReversed";
   "toSorted"; "toSpliced"; "unshift"; "values"; "with"].

(** A key that names an own property or nothing. *)
Definition own_name (k : string) : bool :=
  negb (existsb (String.eqb k) prototype_names).

End JS.

(* ================================================================== *)
(** ** lib/storage: dotted key paths over nested JSON                 *)
(* ================================================================== *)

Module KeyPath.
Import JS.

(** [path.split('.')]: never empty; an empty path has the one part [""]. *)
Fixpoint split (path : string) : list string :=
  match path with
  | EmptyString => [EmptyString]
  | String c rest =>
      if Ascii.eqb c "." then EmptyString :: split rest
      else
        match split rest with
        | part :: parts => String c part :: parts
        | [] => [String c EmptyString]
        end
  end.

(** [prefix ? `${prefix}.${key}` : key] *)
Definition join_key (prefix key : string) : string :=
  if String.eqb prefix "" then key else prefix +:+ "." +:+ key.

(** The loop of [flattenKeys] over [Object.keys(obj)], for an [obj] that
    is neither [null] nor [undefined]: a plain-object value is entered,
    anything else (scalars, [null], arrays) ends a path. *)
Fixpoint flatten_object (obj : value) (prefix : string) {struct obj}
  : list string :=
  match obj with
  | VObj ps =>
      (fix props (ps : list (string * value)) : list string :=
         match ps with
         | [] => []
         | (key, value) :: rest =>
             let fullKey := join_key prefix key in
             (if is_plain_object value then flatten_object value fullKey
              else [fullKey]) ++ props rest
         end) ps
  | VArr es ps =>
      (fix elems (es : list value) (i : nat) : list string :=
         match es with
         | [] => []
         | VHole :: rest => elems rest (S i)
         | value :: rest =>
             let fullKey := join_key prefix (index_string i) in
             (if is_plain_object value then flatten_object value fullKey
              else [fullKey]) ++ elems rest (S i)
         end) es O
      ++
      (fix props (ps : list (string * value)) : list string :=
         match ps with
         | [] => []
         | (key, value) :: rest =>
             let fullKey := join_key prefix key in
             (if is_plain_object value then flatten_object value fullKey
              else [fullKey]) ++ props rest
         end) ps
  | VStr s =>
      map (fun i => join_key prefix (index_string i)) (seq 0 (String.length s))
  | _ => []
  end.

(** [flattenKeys(obj, prefix = '')].  The parameter is typed
    [Record<string, unknown>] but nothing checks it at run time:
    [Object.keys] throws a [TypeError] on [null] and [undefined] and
    accepts everything else. *)
Definition flattenKeys (obj : value) (prefix : string) : outcome (list string) :=
  if is_null obj || is_undefined obj then Throw TypeError
  else Ok (flatten_object obj prefix).

(** The loop of [getValueByPath]. *)
Fixpoint get_walk (current : value) (parts : list string) : value :=
  match parts with
  | [] => current
  | part :: rest =>
      if is_null current || is_undefined current
         || negb (js_type_eqb (typeof current) TObject)
      then VUndef
      else get_walk (get_prop current part) rest
  end.

Definition getValueByPath (obj : value) (path : string) : value :=
  get_walk obj (split path).

(** The loop of [setValueByPath] over [parts[0 .. length-2]], followed by
    the assignment to [parts[length-1]].  [current] is updated in place
    in the source; here each level returns its updated self, and the
    parent stores it back under [part], where it already is. *)
Fixpoint set_walk (current : value) (parts : list string) (last : string)
                  (v : value) {struct parts} : outcome value :=
  match parts with
  | [] => set_prop current last v
  | part :: rest =>
      present ← has_prop current part;
      let repair :=
        negb present
        || negb (js_type_eqb (typeof (get_prop current part)) TObject) in
      current' ← (if repair then set_prop current part (VObj [])
                  else Ok current);
      next ← set_walk (get_prop current' part) rest last v;
      set_prop current' part next
  end.

Definition setValueByPath (obj : value) (path : string) (v : value)
  : outcome value :=
  let parts := split path in
  result ← JSON_parse_stringify obj;
  set_walk result (removelast parts) (List.last parts EmptyString) v.

(** [interface KeyNode] *)
Unset Elimination Schemes.
Inductive KeyNode : Type :=
| mkKeyNode (name path : string) (isLeaf : bool) (children : list KeyNode).
Set Elimination Schemes.

Definition name (n : KeyNode) : string :=
  match n with mkKeyNode x _ _ _ => x end.
Definition path (n : KeyNode) : string :=
  match n with mkKeyNode _ x _ _ => x end.
Definition isLeaf (n : KeyNode) : bool :=
  match n with mkKeyNode _ _ x _ => x end.
Definition children (n : KeyNode) : list KeyNode :=
  match n with mkKeyNode _ _ _ x => x end.

(** [currentLevel.find(n => n.name === part)] *)
Definition find_node (part : string) (level : list KeyNode) : option KeyNode :=
  List.find (fun n => String.eqb (name n) part) level.

(** The node that [find] returned is shared with the tree: changing its
    [children] changes the first node of that name in its level. *)
Fixpoint update_found (part : string) (f : KeyNode -> KeyNode)
                      (level : list KeyNode) : list KeyNode :=
  match level with
  | [] => []
  | n :: rest =>
      if String.eqb (name n) part then f n :: rest
      else n :: update_found part f rest
  end.

Definition is_last (rest : list string) : bool :=
  match rest with [] => true | _ => false end.

(** The inner loop of [buildKeyTree] for one key, from part [i] on. *)
Fixpoint insert_parts (currentLevel : list KeyNode) (currentPath : string)
                      (parts : list string) {struct parts} : list KeyNode :=
  match parts with
  | [] => currentLevel
  | part :: rest =>
      let currentPath' := join_key currentPath part in
      let leaf := is_last rest in
      match find_node part currentLevel with
      | Some _ =>
          if leaf then currentLevel
          else
            update_found part
              (fun existing =>
                 mkKeyNode (name existing) (path existing) (isLeaf existing)
                   (insert_parts (children existing) currentPath' rest))
              currentLevel
      | None =>
          currentLevel ++
            [mkKeyNode part currentPath' leaf
               (if leaf then [] else insert_parts [] currentPath' rest)]
      end
  end.

Definition buildKeyTree (keys : list string) : list KeyNode :=
  fold_left (fun root key => insert_parts root "" (split key)) keys [].

(** The paths of the leaves of a tree, in the order in which the
    traversals of tree-visualization visit them: a node marked as a leaf
    is a leaf, the children of any other node are visited in order. *)
Fixpoint leaf_paths (n : KeyNode) : list string :=
  match n with
  | mkKeyNode _ p true _ => [p]
  | mkKeyNode _ _ false cs =>
      (fix all (cs : list KeyNode) : list string :=
         match cs with
         | [] => []
         | c :: rest => leaf_paths c ++ all rest
         end) cs
  end.

Definition tree_leaf_paths (tree : list KeyNode) : list string :=
  concat (map leaf_paths tree).

(** Re-deriving a document from leaf paths by repeated [setValueByPath]
    on [{}], each value read from [D] with [getValueByPath]. *)
Definition rebuild (D : value) (paths : list string) : outcome value :=
  fold_left
    (fun acc p => doc ← acc; setValueByPath doc p (getValueByPath D p))
    paths (Ok (VObj [])).

(** A path none of whose segments is a name the prototypes define. *)
Definition own_path (path : string) : bool := forallb own_name (split path).

End KeyPath.


(* ================================================================== *)
(** ** components/tree-visualization: completeness statistics         *)
(* ================================================================== *)

Module Stats.
Import JS KeyPath.

(** [interface NodeStats] *)
Record NodeStats : Type := mkNodeStats {
  totalKeys : nat;
  translatedKeys : nat;
  partialKeys : nat;
  missingKeys : nat;
}.

(** [value !== undefined && value !== '' && value !== null] *)
Definition has_translation (v : value) : bool :=
  negb (is_undefined v)
  && negb (match v with VStr s => String.eqb s "" | _ => false end)
  && negb (is_null v).

(** [translations[lang] || {}]; [translations] is the object that maps a
    language code to its document. *)
Definition language_doc (translations : value) (lang : string) : value :=
  let doc := get_prop translations lang in
  if truthy doc then doc else VObj [].

Definition translated_for (translations : value) (p lang : string) : bool :=
  has_translation (getValueByPath (language_doc translations lang) p).

(** The loop [for (const lang of targetLanguages)] counting
    [translatedCount]. *)
Fixpoint translatedCount (translations : value) (p : string)
                         (targetLanguages : list string) : nat :=
  match targetLanguages with
  | [] => 0
  | lang :: rest =>
      (if translated_for translations p lang then 1 else 0)
      + translatedCount translations p rest
  end.

(** The leaf branch of [traverse]. *)
Definition count_leaf (translations : value) (targetLanguages : list string)
                      (p : string) (stats : NodeStats) : NodeStats :=
  let stats := mkNodeStats (S (totalKeys stats)) (translatedKeys stats)
                           (partialKeys stats) (missingKeys stats) in
  if (length targetLanguages =? 0)%nat then stats
  else
    let count := translatedCount translations p targetLanguages in
    if (count =? length targetLanguages)%nat then
      mkNodeStats (totalKeys stats) (S (translatedKeys stats))
                  (partialKeys stats) (missingKeys stats)
    else if (0 <? count)%nat then
      mkNodeStats (totalKeys stats) (translatedKeys stats)
                  (S (partialKeys stats)) (missingKeys stats)
    else
      mkNodeStats (totalKeys stats) (translatedKeys stats)
                  (partialKeys stats) (S (missingKeys stats)).

(** [traverse], with the [stats] object it increments passed along. *)
Fixpoint traverse (translations : value) (targetLanguages : list string)
                  (n : KeyNode) (stats : NodeStats) : NodeStats :=
  match n with
  | mkKeyNode _ p true _ => count_leaf translations targetLanguages p stats
  | mkKeyNode _ _ false cs =>
      (fix each (cs : list KeyNode) (stats : NodeStats) : NodeStats :=
         match cs with
         | [] => stats
         | child :: rest =>
             each rest (traverse translations targetLanguages child stats)
         end) cs stats
  end.

Definition calculateNodeStats (node : KeyNode) (translations : value)
                              (targetLanguages : list string) : NodeStats :=
  traverse translations targetLanguages node (mkNodeStats 0 0 0 0).

(** *** Numbers: IEEE 754 binary64, as specified by [SpecFloat] *)

Definition prec : Z := 53.
Definition emax : Z := 1024.

(** A counter as a Number; exact below 2^53. *)
Definition number_of_nat (n : nat) : spec_float :=
  binary_normalize prec emax (Z.of_nat n) 0 false.

(** [Math.round] of a finite number [m * 2^e]: the nearest integer, a
    tie going up, that is [floor(x + 1/2)].  Infinities and NaN do not
    occur below (the divisor is never zero). *)
Definition Math_round (x : spec_float) : Z :=
  match x with
  | S754_zero _ => 0%Z
  | S754_finite s m e =>
      let sm := if s then Z.opp (Z.pos m) else Z.pos m in
      if (0 <=? e)%Z then (sm * 2 ^ e)%Z
      else (let d := (2 ^ (- e))%Z in (2 * sm + d) / (2 * d))%Z
  | S754_infinity _ | S754_nan => 0%Z
  end.

(** [Math.round((nodeStats.translatedKeys / nodeStats.totalKeys) * 100)] *)
Definition percentage (translated total : nat) : Z :=
  Math_round
    (SFmul prec emax
       (SFdiv prec emax (number_of_nat translated) (number_of_nat total))
       (number_of_nat 100)).

Definition folderProgress (node : KeyNode) (nodeStats : NodeStats)
                          (targetLanguages : list string) : Z :=
  if isLeaf node || (totalKeys nodeStats =? 0)%nat
     || (length targetLanguages =? 0)%nat
  then 0%Z
  else percentage (translatedKeys nodeStats) (totalKeys nodeStats).

End Stats.

(* ================================================================== *)
(** ** The shared store: Prisma tables and the API route handlers     *)
(* ================================================================== *)

Module Cloud.
Import JS.

(** Rows of the tables of the migration (columns the handlers below do
    not read are left out).  Instants are milliseconds since the epoch. *)
Record InviteCode : Type := mkInviteCode {
  ic_id : string;
  ic_code : string;
  ic_role : string;
  ic_maxUses : option Z;
  ic_uses : Z;
  ic_expiresAt : option Z;
  ic_projectId : string;
  ic_createdById : string;
}.

Record ProjectMember : Type := mkProjectMember {
  pm_role : string;
  pm_userId : string;
  pm_projectId : string;
}.

Record Project : Type := mkProject {
  p_name : string;
  p_masterLanguage : string;
  p_targetLanguages : list string;
  p_masterData : value;
  p_translations : value;
  p_ownerId : string;
}.

(** The database: [User] ids, [Project] rows by primary key,
    [ProjectMember] and [InviteCode] rows in creation order. *)
Record DB : Type := mkDB {
  users : gset string;
  projects : gmap string Project;
  members : list ProjectMember;
  invites : list InviteCode;
}.

(** What a handler answers: [NextResponse.json({ error }, { status })],
    or the body of a success. *)
Inductive response (A : Type) : Type :=
| Fail (status : nat) (error : string)
| Success (body : A).
Arguments Fail {A} status error.
Arguments Success {A} body.

(** [String.prototype.toUpperCase] on ASCII. *)
Definition upper_char (c : ascii) : ascii :=
  let n := N_of_ascii c in
  if ((97 <=? n) && (n <=? 122))%N then ascii_of_N (n - 32) else c.

Fixpoint toUpperCase (s : string) : string :=
  match s with
  | EmptyString => EmptyString
  | String c rest => String (upper_char c) (toUpperCase rest)
  end.

(** *** Queries *)

(** [prisma.inviteCode.findUnique({ where: { code } })] *)
Definition find_invite_by_code (db : DB) (code : string) : option InviteCode :=
  List.find (fun i => String.eqb (ic_code i) code) (invites db).

(** [prisma.projectMember.findUnique({ where: { userId_projectId } })] *)
Definition find_member (db : DB) (userId projectId : string)
  : option ProjectMember :=
  List.find
    (fun m => String.eqb (pm_userId m) userId
              && String.eqb (pm_projectId m) projectId)
    (members db).

(** [prisma.projectMember.create]: refused by the unique index on
    [(userId, projectId)] and by the foreign keys to [User] and
    [Project]. *)
Definition create_member (db : DB) (userId projectId role : string)
  : option DB :=
  if bool_decide (is_Some (find_member db userId projectId)) then None
  else if negb (bool_decide (userId ∈ users db)) then None
  else if negb (bool_decide (is_Some (projects db !! projectId))) then None
  else
    Some (mkDB (users db) (projects db)
               (members db ++ [mkProjectMember role userId projectId])
               (invites db)).

Definition bump (i : InviteCode) : InviteCode :=
  mkInviteCode (ic_id i) (ic_code i) (ic_role i) (ic_maxUses i)
               (ic_uses i + 1) (ic_expiresAt i) (ic_projectId i)
               (ic_createdById i).

(** [prisma.inviteCode.update({ where: { id }, data: { uses: { increment:
    1 } } })]: fails when no row has that id. *)
Definition increment_uses (db : DB) (id : string) : option DB :=
  if existsb (fun i => String.eqb (ic_id i) id) (invites db) then
    Some (mkDB (users db) (projects db) (members db)
               (map (fun i => if String.eqb (ic_id i) id then bump i else i)
                    (invites db)))
  else None.

(** [prisma.$transaction([create, update])]: the two writes in order,
    both committed or, when either fails, neither. *)
Definition join_transaction (db : DB) (userId : string) (invite : InviteCode)
  : option DB :=
  db1 ← create_member db userId (ic_projectId invite) (ic_role invite);
  increment_uses db1 (ic_id invite).

(** *** POST /api/join *)

(** A request: the [x-user-id] header and the [code] field of the body. *)
Record JoinRequest : Type := mkJoinRequest {
  x_user_id : option string;
  code : value;
}.

(** The body of a successful answer: the project joined and the role. *)
Record Joined : Type := mkJoined {
  joined_project : string;
  joined_role : string;
}.

Definition InvalidCode : response Joined := Fail 404 "Invalid invite code".
Definition CodeExpired : response Joined := Fail 400 "Invite code has expired".
Definition CodeExhausted : response Joined :=
  Fail 400 "Invite code has reached maximum uses".
Definition AlreadyOwner : response Joined :=
  Fail 400 "You already own this project".
Definition AlreadyMember : response Joined :=
  Fail 400 "You are already a member of this project".
Definition JoinFailed : response Joined := Fail 500 "Failed to join project".

(** Where a request stands between two [await]s. *)
Inductive join_pc : Type :=
| AtLookup (req : JoinRequest)
| AtMemberCheck (userId : string) (invite : InviteCode)
| AtTransaction (userId : string) (invite : InviteCode)
| Answered (r : response Joined).

(** From the start to the answer of [inviteCode.findUnique], and the
    checks made on it. *)
Definition lookup_step (now : Z) (db : DB) (req : JoinRequest) : join_pc :=
  match x_user_id req with
  | None => Answered (Fail 401 "User ID required")
  | Some userId =>
      if String.eqb userId "" then Answered (Fail 401 "User ID required")
      else if negb (truthy (code req)) then
        Answered (Fail 400 "Invite code is required")
      else
        match code req with
        | VStr c =>
            match find_invite_by_code db (toUpperCase c) with
            | None => Answered InvalidCode
            | Some invite =>
                if match ic_expiresAt invite with
                   | Some t => (t <? now)%Z
                   | None => false
                   end
                then Answered CodeExpired
                else if match ic_maxUses invite with
                        | Some m => negb (m =? 0)%Z && (m <=? ic_uses invite)%Z
                        | None => false
                        end
                then Answered CodeExhausted
                else
                  match projects db !! ic_projectId invite with
                  | None => Answered JoinFailed
                  | Some project =>
                      if String.eqb (p_ownerId project) userId
                      then Answered AlreadyOwner
                      else AtMemberCheck userId invite
                  end
            end
        | _ => Answered JoinFailed   (* [code.toUpperCase] is not a function *)
        end
  end.

(** One step of a request: up to its next [await]. *)
Definition join_step (now : Z) (db : DB) (pc : join_pc) : DB * join_pc :=
  match pc with
  | AtLookup req => (db, lookup_step now db req)
  | AtMemberCheck userId invite =>
      match find_member db userId (ic_projectId invite) with
      | Some _ => (db, Answered AlreadyMember)
      | None => (db, AtTransaction userId invite)
      end
  | AtTransaction userId invite =>
      match join_transaction db userId invite with
      | Some db' =>
          (db', Answered (Success (mkJoined (ic_projectId invite)
                                            (ic_role invite))))
      | None => (db, Answered JoinFailed)
      end
  | Answered r => (db, Answered r)
  end.

Definition answer (pc : join_pc) : option (response Joined) :=
  match pc with Answered r => Some r | _ => None end.

(** A request served alone: its three steps in a row. *)
Definition join (now : Z) (db : DB) (req : JoinRequest)
  : DB * response Joined :=
  let '(db1, pc1) := join_step now db (AtLookup req) in
  let '(db2, pc2) := join_step now db1 pc1 in
  let '(db3, pc3) := join_step now db2 pc2 in
  (db3, default JoinFailed (answer pc3)).

(** Two requests in flight.  A schedule says whose turn each step is
    ([false]: the first request, [true]: the second). *)
Fixpoint run_two (now : Z) (schedule : list bool) (db : DB)
                 (pc1 pc2 : join_pc) : DB * join_pc * join_pc :=
  match schedule with
  | [] => (db, pc1, pc2)
  | false :: rest =>
      let '(db', pc1') := join_step now db pc1 in
      run_two now rest db' pc1' pc2
  | true :: rest =>
      let '(db', pc2') := join_step now db pc2 in
      run_two now rest db' pc1 pc2'
  end.

(** *** POST /api/projects/[id]/invites *)

(** The body, as [createInviteCode] of lib/api types it. *)
Record InviteBody : Type := mkInviteBody {
  role : option string;
  maxUses : option Z;
  expiresInDays : option Z;
}.

(** The [do ... while (attempts < 10)] loop that draws a code until one
    is free; [draw k] is the result of the call of [generateInviteCode]
    made when [attempts] is [k], and [remaining] is [10 - attempts].
    It returns the final [attempts] and [code]. *)
Fixpoint draw_code (db : DB) (draw : nat -> string) (attempts remaining : nat)
  : nat * string :=
  match remaining with
  | O => (attempts, draw (pred attempts))
  | S remaining' =>
      let c := draw attempts in
      match find_invite_by_code db c with
      | None => (attempts, c)
      | Some _ => draw_code db draw (S attempts) remaining'
      end
  end.

(** [number || null] *)
Definition or_null (n : option Z) : option Z :=
  match n with
  | Some z => if (z =? 0)%Z then None else Some z
  | None => None
  end.

(** [new_id] is the key generated for the new row. *)
Definition create_invite (now : Z) (draw : nat -> string) (new_id : string)
                         (db : DB) (userId : option string)
                         (projectId : string) (body : InviteBody)
  : DB * response InviteCode :=
  match userId with
  | None => (db, Fail 401 "User ID required")
  | Some userId =>
      if String.eqb userId "" then (db, Fail 401 "User ID required")
      else
        match projects db !! projectId with
        | None => (db, Fail 404 "Project not found or not owner")
        | Some project =>
            if negb (String.eqb (p_ownerId project) userId) then
              (db, Fail 404 "Project not found or not owner")
            else
              let '(attempts, c) := draw_code db draw 0 10 in
              if (10 <=? attempts)%nat then
                (db, Fail 500 "Failed to generate unique code")
              else if existsb (fun i => String.eqb (ic_id i) new_id)
                              (invites db) then
                (db, Fail 500 "Failed to create invite")
              else
                let invite :=
                  mkInviteCode new_id c (default "editor" (role body))
                    (or_null (maxUses body)) 0
                    (match or_null (expiresInDays body) with
                     | Some d => Some (now + d * 24 * 60 * 60 * 1000)%Z
                     | None => None
                     end)
                    projectId userId in
                (mkDB (users db) (projects db) (members db)
                      (invites db ++ [invite]),
                 Success invite)
        end
  end.

(** *** PUT /api/projects/[id] *)

(** The fields [handleSave] sends; the handler also accepts [name] and
    [masterLanguage]. *)
Record ProjectUpdate : Type := mkProjectUpdate {
  u_name : option string;
  u_masterLanguage : option string;
  u_targetLanguages : option (list string);
  u_masterData : option value;
  u_translations : option value;
}.

(** [{ ownerId: userId }] or [{ members: { some: { userId, role:
    'editor' } } }] *)
Definition can_edit (db : DB) (userId id : string) (project : Project) : bool :=
  String.eqb (p_ownerId project) userId
  || existsb (fun m => String.eqb (pm_userId m) userId
                       && String.eqb (pm_projectId m) id
                       && String.eqb (pm_role m) "editor")
             (members db).

Definition truthy_string (s : option string) : option string :=
  match s with
  | Some x => if String.eqb x "" then None else Some x
  | None => None
  end.

Definition truthy_value (v : option value) : option value :=
  match v with
  | Some x => if truthy x then Some x else None
  | None => None
  end.

(** [...(field && { field })] for each field of the body. *)
Definition apply_update (project : Project) (u : ProjectUpdate) : Project :=
  mkProject
    (default (p_name project) (truthy_string (u_name u)))
    (default (p_masterLanguage project) (truthy_string (u_masterLanguage u)))
    (default (p_targetLanguages project) (u_targetLanguages u))
    (default (p_masterData project) (truthy_value (u_masterData u)))
    (default (p_translations project) (truthy_value (u_translations u)))
    (p_ownerId project).

Definition put_project (db : DB) (userId : option string) (id : string)
                       (u : ProjectUpdate) : DB * response Project :=
  match userId with
  | None => (db, Fail 401 "User ID required")
  | Some userId =>
      if String.eqb userId "" then (db, Fail 401 "User ID required")
      else
        match projects db !! id with
        | None => (db, Fail 404 "Project not found or no edit access")
        | Some project =>
            if can_edit db userId id project then
              let project' := apply_update project u in
              (mkDB (users db) (<[id := project']> (projects db))
                    (members db) (invites db),
               Success project')
            else (db, Fail 404 "Project not found or no edit access")
        end
  end.

(** *** POST /api/projects *)

Record ProjectCreate : Type := mkProjectCreate {
  c_name : string;
  c_masterLanguage : option string;
  c_targetLanguages : option (list string);
  c_masterData : option value;
  c_translations : option value;
}.

(** [new_id] is the key the database generates for the row.  The insert
    fails when the owner is not a [User] (foreign key). *)
Definition post_project (new_id : string) (db : DB) (userId : option string)
                        (body : ProjectCreate)
  : DB * response (string * Project) :=
  match userId with
  | None => (db, Fail 401 "User ID required")
  | Some userId =>
      if String.eqb userId "" then (db, Fail 401 "User ID required")
      else if String.eqb (c_name body) "" then
        (db, Fail 400 "Project name is required")
      else if negb (bool_decide (userId ∈ users db))
              || bool_decide (is_Some (projects db !! new_id)) then
        (db, Fail 500 "Failed to create project")
      else
        let project :=
          mkProject (c_name body)
            (default "en" (truthy_string (c_masterLanguage body)))
            (default [] (c_targetLanguages body))
            (default (VObj []) (truthy_value (c_masterData body)))
            (default (VObj []) (truthy_value (c_translations body)))
            userId in
        (mkDB (users db) (<[new_id := project]> (projects db))
              (members db) (invites db),
         Success (new_id, project))
  end.

(** *** GET /api/projects/[id] *)

(** A project as the routes answer it and lib/api types it: the row
    under its id, with the memberships of the project when the query
    includes them ([members?: ProjectMember[]]). *)
Record ProjectView : Type := mkProjectView {
  v_id : string;
  v_row : Project;
  v_members : option (list ProjectMember);
}.

(** [{ ownerId: userId }] or [{ members: { some: { userId } } }] *)
Definition can_view (db : DB) (userId id : string) (project : Project) : bool :=
  String.eqb (p_ownerId project) userId
  || existsb (fun m => String.eqb (pm_userId m) userId
                       && String.eqb (pm_projectId m) id)
             (members db).

(** [include: { members }]: the memberships of the project. *)
Definition project_members (db : DB) (id : string) : list ProjectMember :=
  List.filter (fun m => String.eqb (pm_projectId m) id) (members db).

Definition get_project (db : DB) (userId : option string) (id : string)
  : response ProjectView :=
  match userId with
  | None => Fail 401 "User ID required"
  | Some userId =>
      if String.eqb userId "" then Fail 401 "User ID required"
      else
        match projects db !! id with
        | None => Fail 404 "Project not found"
        | Some project =>
            if can_view db userId id project then
              Success (mkProjectView id project (Some (project_members db id)))
            else Fail 404 "Project not found"
        end
  end.

(** *** DELETE /api/projects/[id] *)

(** [prisma.project.delete({ where: { id } })]; the foreign keys of
    [ProjectMember] and [InviteCode] to [Project] are declared
    [ON DELETE CASCADE] by the migration. *)
Definition delete_project_row (db : DB) (id : string) : DB :=
  mkDB (users db) (delete id (projects db))
       (List.filter (fun m => negb (String.eqb (pm_projectId m) id))
                    (members db))
       (List.filter (fun i => negb (String.eqb (ic_projectId i) id))
                    (invites db)).

Definition delete_project (db : DB) (userId : option string) (id : string)
  : DB * response unit :=
  match userId with
  | None => (db, Fail 401 "User ID required")
  | Some userId =>
      if String.eqb userId "" then (db, Fail 401 "User ID required")
      else
        match projects db !! id with
        | None => (db, Fail 404 "Project not found or not owner")
        | Some project =>
            if String.eqb (p_ownerId project) userId
            then (delete_project_row db id, Success ())
            else (db, Fail 404 "Project not found or not owner")
        end
  end.

(** *** GET /api/projects/[id]/invites *)

(** [findMany({ where: { projectId }, orderBy: { createdAt: 'desc' } })]:
    the rows are kept in creation order, so the newest comes first. *)
Definition list_invites (db : DB) (userId : option string) (projectId : string)
  : response (list InviteCode) :=
  match userId with
  | None => Fail 401 "User ID required"
  | Some userId =>
      if String.eqb userId "" then Fail 401 "User ID required"
      else
        match projects db !! projectId with
        | None => Fail 404 "Project not found or not owner"
        | Some project =>
            if String.eqb (p_ownerId project) userId then
              Success
                (rev (List.filter
                        (fun i => String.eqb (ic_projectId i) projectId)
                        (invites db)))
            else Fail 404 "Project not found or not owner"
        end
  end.

(** *** DELETE /api/projects/[id]/invites/[inviteId] *)

(** [prisma.inviteCode.delete({ where: { id: inviteId, projectId } })]
    throws when no row matches. *)
Definition delete_invite (db : DB) (userId : option string)
                         (projectId inviteId : string)
  : DB * response unit :=
  match userId with
  | None => (db, Fail 401 "User ID required")
  | Some userId =>
      if String.eqb userId "" then (db, Fail 401 "User ID required")
      else
        match projects db !! projectId with
        | None => (db, Fail 404 "Project not found or not owner")
        | Some project =>
            if negb (String.eqb (p_ownerId project) userId) then
              (db, Fail 404 "Project not found or not owner")
            else
              let matches i :=
                String.eqb (ic_id i) inviteId
                && String.eqb (ic_projectId i) projectId in
              if existsb matches (invites db) then
                (mkDB (users db) (projects db) (members db)
                      (List.filter (fun i => negb (matches i)) (invites db)),
                 Success ())
              else (db, Fail 500 "Failed to delete invite")
        end
  end.

End Cloud.

(* ================================================================== *)
(** ** The User table and the route /api/users/me                     *)
(* ================================================================== *)

Module Users.
Import Cloud.

(** A row of [User]: [id] is the primary key, [email] has a unique
    index, [name] may be [null]. *)
Record User : Type := mkUser {
  id : string;
  email : string;
  name : option string;
}.

(** The headers the handlers read; [headers.get] answers [null] for a
    header that was not sent. *)
Record Headers : Type := mkHeaders {
  x_user_id : option string;
  x_user_email : option string;
  x_user_name : option string;
}.

(** [prisma.user.findUnique({ where: { id } })] *)
Definition find_by_id (table : list User) (i : string) : option User :=
  List.find (fun u => String.eqb (id u) i) table.

(** [prisma.user.findUnique({ where: { email } })] *)
Definition find_by_email (table : list User) (e : string) : option User :=
  List.find (fun u => String.eqb (email u) e) table.

(** [prisma.user.create]: refused by the primary key and by the unique
    index on [email]. *)
Definition create_user (table : list User) (u : User) : option (list User) :=
  if existsb (fun x => String.eqb (id x) (id u)
                       || String.eqb (email x) (email u)) table
  then None
  else Some (table ++ [u]).

(** GET /api/users/me *)
Definition GET (table : list User) (h : Headers)
  : list User * response User :=
  match truthy_string (x_user_id h) with
  | None => (table, Fail 401 "User ID required")
  | Some userId =>
      let userEmail := truthy_string (x_user_email h) in
      let user := find_by_id table userId in
      let user :=
        match user, userEmail with
        | None, Some e => find_by_email table e
        | _, _ => user
        end in
      match user, userEmail with
      | Some u, _ => (table, Success u)
      | None, Some e =>
          let created := mkUser userId e (truthy_string (x_user_name h)) in
          match create_user table created with
          | Some table' => (table', Success created)
          | None => (table, Fail 500 "Failed to get user")
          end
      | None, None =>
          (table,
           Fail 404 "User not found and cannot create without email")
      end
  end.

(** The body of PUT, as [updateUser] of lib/api types it. *)
Record UserBody : Type := mkUserBody {
  b_name : option string;
  b_email : option string;
}.

(** PUT /api/users/me: [prisma.user.upsert({ where: { id }, update,
    create })].  In [update] a field that is [undefined] is left as it
    is; the unique index on [email] refuses an e-mail that another row
    holds. *)
Definition PUT (table : list User) (h : Headers) (body : UserBody)
  : list User * response User :=
  match truthy_string (x_user_id h) with
  | None => (table, Fail 401 "User ID required")
  | Some userId =>
      match find_by_id table userId with
      | Some old =>
          let updated :=
            mkUser userId
              (default (email old) (truthy_string (b_email body)))
              (match truthy_string (b_name body) with
               | Some n => Some n
               | None => name old
               end) in
          if existsb (fun x => negb (String.eqb (id x) userId)
                               && String.eqb (email x) (email updated))
                     table
          then (table, Fail 500 "Failed to update user")
          else
            (map (fun x => if String.eqb (id x) userId then updated else x)
                 table,
             Success updated)
      | None =>
          let created :=
            mkUser userId
              (default (default "" (truthy_string (x_user_email h)))
                       (truthy_string (b_email body)))
              (truthy_string (b_name body)) in
          match create_user table created with
          | Some table' => (table', Success created)
          | None => (table, Fail 500 "Failed to update user")
          end
      end
  end.

(** The ids of the table: what the foreign keys to [User] refer to. *)
Definition ids (table : list User) : gset string :=
  list_to_set (map id table).

End Users.

(* ================================================================== *)
(** ** The editing session: local store, save and upload              *)
(* ================================================================== *)

Module Session.
Import JS.

(** [interface TranslationProject] of lib/storage *)
Record TranslationProject : Type := mkTranslationProject {
  id : string;
  name : string;
  masterLanguage : string;
  targetLanguages : list string;
  masterData : value;
  translations : value;
  lastModified : Z;
}.

Inductive Role : Type := owner | editor | viewer.

Definition is_viewer (r : Role) : bool :=
  match r with viewer => true | _ => false end.

Inductive NotificationType : Type := success | error.

(** The React state of [TranslationManager] that the two handlers read
    or write.  [currentCloudProject] holds the id and the row of the
    shared project when the open project lives in shared storage. *)
Record State : Type := mkState {
  currentProject : option TranslationProject;
  currentCloudProject : option (string * Cloud.Project);
  cloudProjectRole : Role;
  isSaving : bool;
  hasUnsavedChanges : bool;
  lastSaved : option Z;
  notification : option (NotificationType * string);
  projects : list TranslationProject;
  cloudProjectIds : list string;
}.

(** What lies outside the component: the IndexedDB object store (keyed by
    [id]), the browser's [localStorage] entries that lib/api reads, and
    the server's database. *)
Record World : Type := mkWorld {
  local : gmap string TranslationProject;
  userId : string;
  userEmail : option string;
  cloud : Cloud.DB;
}.

(** Which of the asynchronous calls of a handler get rejected by the
    environment (a failed IndexedDB request, a failed [fetch]). *)
Record Faults : Type := mkFaults {
  local_write_fails : bool;
  fetch_fails : bool;
}.

(** *** lib/storage: the local project store *)

(** [store.put({ ...project, lastModified: Date.now() })] *)
Definition saveProject (now : Z) (project : TranslationProject)
                       (db : gmap string TranslationProject)
  : gmap string TranslationProject :=
  <[id project :=
      mkTranslationProject (id project) (name project)
        (masterLanguage project) (targetLanguages project)
        (masterData project) (translations project) now]> db.

(** [request.result || null] *)
Definition loadProject (i : string) (db : gmap string TranslationProject)
  : option TranslationProject :=
  db !! i.

Definition deleteProject (i : string) (db : gmap string TranslationProject)
  : gmap string TranslationProject :=
  delete i db.

(** *** lib/api *)

(** [!!getUserEmail()] *)
Definition hasUserProfile (w : World) : bool :=
  match userEmail w with
  | Some e => negb (String.eqb e "")
  | None => false
  end.

(** *** The handlers *)

(** The storage calls a handler makes, in order, whether or not they
    succeed. *)
Inductive Effect : Type :=
| LocalPut (project : TranslationProject)              (* saveProject *)
| LocalDelete (i : string)                             (* deleteProject *)
| CloudUpdate (cloudId : string) (u : Cloud.ProjectUpdate)
                                                       (* updateCloudProject *)
| CloudCreate (body : Cloud.ProjectCreate).            (* createCloudProject *)


Definition save_failed (s : State) : State :=
  mkState (currentProject s) (currentCloudProject s) (cloudProjectRole s)
          false (hasUnsavedChanges s) (lastSaved s)
          (Some (error, "Failed to save project. Please try again."))
          (projects s) (cloudProjectIds s).

Definition save_done (now : Z) (s : State) : State :=
  mkState (currentProject s) (currentCloudProject s) (cloudProjectRole s)
          false false (Some now) (notification s)
          (projects s) (cloudProjectIds s).

(** The body sent by [handleSave]. *)
Definition save_body (project : TranslationProject) : Cloud.ProjectUpdate :=
  Cloud.mkProjectUpdate None None
    (Some (targetLanguages project))
    (Some (masterData project))
    (Some (translations project)).

(** [updateCloudProject]: it throws when the request fails or the answer
    is not [ok]. *)
Definition updateCloudProject (f : Faults) (w : World) (cloudId : string)
                              (u : Cloud.ProjectUpdate) : option Cloud.DB :=
  if fetch_fails f then None
  else
    match Cloud.put_project (cloud w) (Some (userId w)) cloudId u with
    | (db', Cloud.Success _) => Some db'
    | (_, Cloud.Fail _ _) => None
    end.

Definition handleSave (f : Faults) (now : Z) (w : World) (s : State)
  : World * State * list Effect :=
  match currentProject s with
  | None => (w, s, [])
  | Some project =>
      if isSaving s then (w, s, [])
      else if local_write_fails f then
        (w, save_failed s, [LocalPut project])
      else
        let w1 := mkWorld (saveProject now project (local w))
                          (userId w) (userEmail w) (cloud w) in
        match currentCloudProject s with
        | Some (cloudId, _) =>
            if negb (is_viewer (cloudProjectRole s)) then
              let u := save_body project in
              match updateCloudProject f w1 cloudId u with
              | Some db' =>
                  (mkWorld (local w1) (userId w1) (userEmail w1) db',
                   save_done now s,
                   [LocalPut project; CloudUpdate cloudId u])
              | None =>
                  (w1, save_failed s,
                   [LocalPut project; CloudUpdate cloudId u])
              end
            else (w1, save_done now s, [LocalPut project])
        | None => (w1, save_done now s, [LocalPut project])
        end
  end.

Definition notify (n : NotificationType * string) (s : State) : State :=
  mkState (currentProject s) (currentCloudProject s) (cloudProjectRole s)
          (isSaving s) (hasUnsavedChanges s) (lastSaved s) (Some n)
          (projects s) (cloudProjectIds s).

(** The notification shown when the profile is missing; the
    specification calls this failure PromotionDenied. *)
Definition PromotionDenied : NotificationType * string :=
  (error,
   "Please set up your profile in the Cloud tab first to upload projects.").

Definition UploadFailed : NotificationType * string :=
  (error, "Failed to upload project to cloud. Please try again.").

Definition Uploaded : NotificationType * string :=
  (success,
   "Project uploaded to cloud successfully! The local copy has been removed.").

Definition upload_body (project : TranslationProject) : Cloud.ProjectCreate :=
  Cloud.mkProjectCreate (name project)
    (Some (masterLanguage project))
    (Some (targetLanguages project))
    (Some (masterData project))
    (Some (translations project)).

(** [new_id] is the key the server generates for the shared project. *)
Definition handleUploadToCloud (f : Faults) (new_id : string)
                               (w : World) (s : State)
  : World * State * list Effect :=
  match currentProject s, currentCloudProject s with
  | None, _ | _, Some _ => (w, s, [])
  | Some project, None =>
      if negb (hasUserProfile w) then (w, notify PromotionDenied s, [])
      else
        let body := upload_body project in
        if fetch_fails f then (w, notify UploadFailed s, [CloudCreate body])
        else
          match Cloud.post_project new_id (cloud w) (Some (userId w)) body with
          | (_, Cloud.Fail _ _) =>
              (w, notify UploadFailed s, [CloudCreate body])
          | (db', Cloud.Success (cloudId, row)) =>
              let w1 := mkWorld (local w) (userId w) (userEmail w) db' in
              if local_write_fails f then
                (w1, notify UploadFailed s,
                 [CloudCreate body; LocalDelete (id project)])
              else
                (mkWorld (deleteProject (id project) (local w))
                         (userId w) (userEmail w) db',
                 mkState (currentProject s) (Some (cloudId, row)) owner
                         (isSaving s) (hasUnsavedChanges s) (lastSaved s)
                         (Some Uploaded)
                         (List.filter
                            (fun p => negb (String.eqb (id p) (id project)))
                            (projects s))
                         (cloudId :: cloudProjectIds s),
                 [CloudCreate body; LocalDelete (id project)])
          end
  end.

End Session.

(* ================================================================== *)
(** ** components/translation-manager: the other handlers             *)
(* ================================================================== *)

Module Editor.
Import JS KeyPath Session.

(** *** Strings *)

(** White space and line terminators among the characters below U+0100:
    tab, line feed, vertical tab, form feed, carriage return, space and
    the no-break space. *)
Definition is_space (c : ascii) : bool :=
  let n := N_of_ascii c in
  ((9 <=? n) && (n <=? 13) || (n =? 32) || (n =? 160))%N.

Fixpoint trim_start (s : string) : string :=
  match s with
  | EmptyString => EmptyString
  | String c rest => if is_space c then trim_start rest else s
  end.

Fixpoint trim_end (s : string) : string :=
  match s with
  | EmptyString => EmptyString
  | String c rest =>
      let rest' := trim_end rest in
      if is_space c && String.eqb rest' "" then EmptyString
      else String c rest'
  end.

(** [String.prototype.trim] *)
Definition trim (s : string) : string := trim_end (trim_start s).

(** The lower-case mapping of the characters below U+0100: [A]-[Z] and
    the letters U+00C0-U+00DE (all but the multiplication sign). *)
Definition lower_char (c : ascii) : ascii :=
  let n := N_of_ascii c in
  if ((65 <=? n) && (n <=? 90)
      || (192 <=? n) && (n <=? 222) && negb (n =? 215))%N
  then ascii_of_N (n + 32) else c.

(** [String.prototype.toLowerCase] *)
Fixpoint toLowerCase (s : string) : string :=
  match s with
  | EmptyString => EmptyString
  | String c rest => String (lower_char c) (toLowerCase rest)
  end.

(** *** Objects *)

(** The own enumerable properties of a value that is neither [null] nor
    [undefined], in the order of [Object.keys]: what [{ ...o }] copies
    and what [Object.entries(o)] lists. *)
Definition own_entries (o : value) : list (string * value) :=
  match o with
  | VObj ps => ps
  | VArr es ps =>
      (fix elems (es : list value) (i : nat) : list (string * value) :=
         match es with
         | [] => []
         | VHole :: rest => elems rest (S i)
         | v :: rest => (index_string i, v) :: elems rest (S i)
         end) es O
      ++ ps
  | VStr s =>
      map (fun i => (index_string i, char_at s i)) (seq 0 (String.length s))
  | _ => []
  end.

(** [Object.entries(o)] throws on [null] and [undefined]. *)
Definition Object_entries (o : value) : outcome (list (string * value)) :=
  if is_null o || is_undefined o then Throw TypeError
  else Ok (own_entries o).

(** [Object.fromEntries(entries)]: the properties are created in the
    order of the list, a repeated key keeping its first place and its
    last value. *)
Definition Object_fromEntries (entries : list (string * value)) : value :=
  VObj (fold_left (fun ps kv => assign_prop kv.1 kv.2 ps) entries []).

(** [{ ...o, [k]: v }]; spreading [null] or [undefined] copies
    nothing. *)
Definition spread_with (o : value) (k : string) (v : value) : value :=
  VObj (assign_prop k v (own_entries o)).

(** [o[k]], which throws when [o] is [null] or [undefined]. *)
Definition member (o : value) (k : string) : outcome value :=
  if is_null o || is_undefined o then Throw TypeError
  else Ok (get_prop o k).

(** *** The state of the component *)

Inductive View : Type := home_view | editor_view.

(** The state of [TranslationManager]: the part that [handleSave] and
    [handleUploadToCloud] use, the view, the selected key and the rename
    dialog.  The tab, the mobile panel and the key tree, which is
    recomputed from [masterData], are left out. *)
Record EditorState : Type := mkEditorState {
  base : State;
  view : View;
  selectedKey : option string;
  renamingProject : option TranslationProject;
  renamingName : string;
}.

Definition with_project (project : option TranslationProject)
                        (unsaved : bool) (s : State) : State :=
  mkState project (currentCloudProject s) (cloudProjectRole s) (isSaving s)
          unsaved (lastSaved s) (notification s) (projects s)
          (cloudProjectIds s).

Definition with_projects (l : list TranslationProject) (s : State) : State :=
  mkState (currentProject s) (currentCloudProject s) (cloudProjectRole s)
          (isSaving s) (hasUnsavedChanges s) (lastSaved s) (notification s)
          l (cloudProjectIds s).

(** *** Languages *)

(** [handleAddLanguage] *)
Definition handleAddLanguage (langInput : string) (s : State) : State :=
  if String.eqb (trim langInput) "" then s
  else
    match currentProject s with
    | None => s
    | Some prev =>
        let lang := toLowerCase (trim langInput) in
        if existsb (String.eqb lang) (targetLanguages prev) then s
        else
          let updated :=
            mkTranslationProject (id prev) (name prev) (masterLanguage prev)
              (targetLanguages prev ++ [lang])
              (masterData prev)
              (spread_with (translations prev) lang (VObj []))
              (lastModified prev) in
          with_project (Some updated) true s
    end.

(** [handleRemoveLanguage] *)
Definition handleRemoveLanguage (lang : string) (s : State) : outcome State :=
  match currentProject s with
  | None => Ok s
  | Some project =>
      entries ← Object_entries (translations project);
      let updated :=
        mkTranslationProject (id project) (name project)
          (masterLanguage project)
          (List.filter (fun l => negb (String.eqb l lang))
                       (targetLanguages project))
          (masterData project)
          (Object_fromEntries
             (List.filter (fun kv => negb (String.eqb kv.1 lang)) entries))
          (lastModified project) in
      Ok (with_project (Some updated) true s)
  end.

(** *** Editing a translation *)

(** The update that [handleTranslationChange] applies to the project,
    for a selected key that is neither [null] nor empty. *)
Definition change_translation (prev : TranslationProject)
                              (selectedKey lang value : string)
  : outcome TranslationProject :=
  doc ← member (translations prev) lang;
  r ← setValueByPath (if truthy doc then doc else VObj []) selectedKey
                     (VStr value);
  Ok (mkTranslationProject (id prev) (name prev) (masterLanguage prev)
        (targetLanguages prev) (masterData prev)
        (spread_with (translations prev) lang r)
        (lastModified prev)).

(** [handleTranslationChange]; [markUnsaved] is called in every case. *)
Definition handleTranslationChange (selectedKey : option string)
                                   (lang value : string) (s : State)
  : outcome State :=
  match currentProject s, selectedKey with
  | Some prev, Some key =>
      if String.eqb key "" then Ok (with_project (Some prev) true s)
      else
        updated ← change_translation prev key lang value;
        Ok (with_project (Some updated) true s)
  | _, _ => Ok (with_project (currentProject s) true s)
  end.

(** What the editor shows for a language:
    [getValueByPath(currentProject.translations[lang] || {}, selectedKey)] *)
Definition currentValue (project : TranslationProject)
                        (selectedKey lang : string) : value :=
  getValueByPath (Stats.language_doc (translations project) lang) selectedKey.

(** *** Opening, renaming and deleting local projects *)

(** [handleOpenProject] *)
Definition handleOpenProject (project : TranslationProject)
                             (w : World) (es : EditorState) : EditorState :=
  match loadProject (id project) (local w) with
  | Some loaded =>
      let s := base es in
      mkEditorState
        (mkState (Some loaded) None viewer (isSaving s) (hasUnsavedChanges s)
                 (lastSaved s) (notification s) (projects s)
                 (cloudProjectIds s))
        editor_view None (renamingProject es) (renamingName es)
  | None => es
  end.

(** The [onOpenProject] callback given to the cloud tab; [updatedAt] is
    [new Date(project.updatedAt).getTime()]. *)
Definition openCloudProject (project : Cloud.ProjectView) (updatedAt : Z)
                            (role : Role) (es : EditorState) : EditorState :=
  let row := Cloud.v_row project in
  let localProject :=
    mkTranslationProject (Cloud.v_id project) (Cloud.p_name row)
      (Cloud.p_masterLanguage row) (Cloud.p_targetLanguages row)
      (Cloud.p_masterData row) (Cloud.p_translations row) updatedAt in
  let s := base es in
  mkEditorState
    (mkState (Some localProject) (Some (Cloud.v_id project, row)) role
             (isSaving s) (hasUnsavedChanges s) (lastSaved s)
             (notification s) (projects s) (cloudProjectIds s))
    editor_view None (renamingProject es) (renamingName es).

(** [handleDeleteProject]; a failed delete rejects before the list is
    changed. *)
Definition handleDeleteProject (f : Faults) (i : string)
                               (w : World) (es : EditorState)
  : World * EditorState :=
  if local_write_fails f then (w, es)
  else
    (mkWorld (deleteProject i (local w)) (userId w) (userEmail w) (cloud w),
     mkEditorState
       (with_projects
          (List.filter (fun p => negb (String.eqb (id p) i))
                       (projects (base es)))
          (base es))
       (view es) (selectedKey es) (renamingProject es) (renamingName es)).

Definition renamed (project : TranslationProject) (newName : string)
  : TranslationProject :=
  mkTranslationProject (id project) newName (masterLanguage project)
    (targetLanguages project) (masterData project) (translations project)
    (lastModified project).

(** [handleRenameProject]; when [saveProject] rejects, the dialog is not
    closed. *)
Definition handleRenameProject (f : Faults) (now : Z)
                               (projectId newName : string)
                               (w : World) (es : EditorState)
  : World * EditorState :=
  if String.eqb (trim newName) "" then (w, es)
  else
    let trimmedName := trim newName in
    let s := base es in
    let closed b :=
      mkEditorState b (view es) (selectedKey es) None "" in
    match List.find (fun p => String.eqb (id p) projectId) (projects s) with
    | None => (w, closed s)
    | Some project =>
        if String.eqb trimmedName (name project) then (w, closed s)
        else
          let updatedProject := renamed project trimmedName in
          let s1 :=
            with_projects
              (map (fun p => if String.eqb (id p) projectId
                             then updatedProject else p)
                   (projects s))
              s in
          let s2 :=
            match currentProject s with
            | Some current =>
                if String.eqb (id current) projectId
                then with_project (Some updatedProject)
                                  (hasUnsavedChanges s1) s1
                else s1
            | None => s1
            end in
          if local_write_fails f then
            (w, mkEditorState s2 (view es) (selectedKey es)
                              (renamingProject es) (renamingName es))
          else
            (mkWorld (saveProject now updatedProject (local w))
                     (userId w) (userEmail w) (cloud w),
             closed s2)
    end.

(** [handleSave], on the whole state. *)
Definition save (f : Faults) (now : Z) (w : World) (es : EditorState)
  : World * EditorState * list Effect :=
  let '(w', s', effects) := handleSave f now w (base es) in
  (w',
   mkEditorState s' (view es) (selectedKey es) (renamingProject es)
                 (renamingName es),
   effects).

(** *** Importing a file *)

Definition is_lower (c : ascii) : bool :=
  let n := N_of_ascii c in ((97 <=? n) && (n <=? 122))%N.

Definition is_upper (c : ascii) : bool :=
  let n := N_of_ascii c in ((65 <=? n) && (n <=? 90))%N.

(** [file.name.match(/^([a-z]{2}(?:-[A-Z]{2})?)\.json$/)]: the first
    group of the match, if any. *)
Definition langMatch (fileName : string) : option string :=
  match fileName with
  | String a (String b rest) =>
      if is_lower a && is_lower b then
        if String.eqb rest ".json" then
          Some (String a (String b EmptyString))
        else
          match rest with
          | String "-" (String c (String d rest')) =>
              if is_upper c && is_upper d && String.eqb rest' ".json" then
                Some (String a (String b (String "-" (String c (String d
                        EmptyString)))))
              else None
          | _ => None
          end
      else None
  | _ => None
  end.

(** [s.replace(pattern, '')] for a non-empty string [pattern]: the first
    occurrence is removed. *)
Fixpoint remove_first (pattern s : string) : string :=
  if String.prefix pattern s then
    String.substring (String.length pattern)
                     (String.length s - String.length pattern) s
  else
    match s with
    | EmptyString => EmptyString
    | String c rest => String c (remove_first pattern rest)
    end.

Definition InvalidFile : NotificationType * string :=
  (error, "Invalid JSON file. Please upload a valid JSON file.").

(** [handleFileUpload] for a chosen file: [parsed] is the outcome of
    [JSON.parse(await file.text())], [uuid] the result of
    [crypto.randomUUID()], [created] and [now] the two readings of the
    clock, by the handler and by [saveProject]. *)
Definition handleFileUpload (f : Faults) (created now : Z)
                            (uuid fileName : string)
                            (parsed : outcome value)
                            (w : World) (es : EditorState)
  : World * EditorState :=
  let failed :=
    (w, mkEditorState (notify InvalidFile (base es)) (view es)
                      (selectedKey es) (renamingProject es)
                      (renamingName es)) in
  match parsed with
  | Throw _ => failed
  | Ok data =>
      let masterLanguage := default "en" (langMatch fileName) in
      let project :=
        mkTranslationProject uuid (remove_first ".json" fileName)
          masterLanguage [] data (VObj []) created in
      if local_write_fails f then failed
      else
        let s := base es in
        (mkWorld (saveProject now project (local w))
                 (userId w) (userEmail w) (cloud w),
         mkEditorState
           (mkState (Some project) None viewer (isSaving s)
                    (hasUnsavedChanges s) (lastSaved s) (notification s)
                    (projects s ++ [project]) (cloudProjectIds s))
           editor_view None (renamingProject es) (renamingName es))
  end.

End Editor.

(* ================================================================== *)
(** ** components/collaboration: the role of the user in a project    *)
(* ================================================================== *)

Module Collaboration.
Import Cloud.

(** [getProjectRole]; [userId] is [localStorage.getItem('userId')],
    which is [null] when nothing is stored. *)
Definition getProjectRole (userId : option string) (project : ProjectView)
  : string :=
  let is_user (i : string) : bool :=
    match userId with
    | Some u => String.eqb i u
    | None => false
    end in
  if is_user (p_ownerId (v_row project)) then "owner"
  else
    match
      match v_members project with
      | Some members => List.find (fun m => is_user (pm_userId m)) members
      | None => None
      end
    with
    | Some membership => pm_role membership
    | None => "viewer"
    end.

(** The project in the answer of POST /api/join, [member.project]: the
    query includes the owner of the project but not its memberships. *)
Definition joined_view (db : DB) (j : Joined) : option ProjectView :=
  match projects db !! joined_project j with
  | Some row => Some (mkProjectView (joined_project j) row None)
  | None => None
  end.

(** [handleProjectJoined]: the list of projects after a join, and the
    role with which the project is opened. *)
Definition handleProjectJoined (project : ProjectView) (role : string)
                               (listed : list ProjectView)
  : list ProjectView * (ProjectView * string) :=
  (List.filter (fun p => negb (String.eqb (v_id p) (v_id project))) listed
     ++ [project],
   (project, role)).

End Collaboration.

(* ================================================================== *)
(** ** components/tree-visualization: the overview of a project       *)
(* ================================================================== *)

Module Overview.
Import JS KeyPath.

(** *** [translationStatus] of a row *)

Record TranslationStatus : Type := mkTranslationStatus {
  translated : nat;
  total : nat;
  complete : bool;
  partial : bool;
  missing : bool;
  langStatuses : list (string * value);
}.

(** [langStatuses[lang] = hasTranslation] on the object literal that
    the loop fills: the assignment creates or replaces an own property,
    except for the key [__proto__], which reaches the setter of
    [Object.prototype]; the setter ignores a boolean, so that nothing
    is stored. *)
Definition assign_status (lang : string) (hasTranslation : bool)
                         (langStatuses : list (string * value))
  : list (string * value) :=
  if String.eqb lang "__proto__" then langStatuses
  else assign_prop lang (VBool hasTranslation) langStatuses.

(** The loop [for (const lang of targetLanguages)] that fills
    [langStatuses] and counts [translated]. *)
Definition status_loop (translations : value) (p : string)
                       (targetLanguages : list string)
  : list (string * value) * nat :=
  fold_left
    (fun acc lang =>
       let hasTranslation := Stats.translated_for translations p lang in
       (assign_status lang hasTranslation acc.1,
        if hasTranslation then S acc.2 else acc.2))
    targetLanguages ([], 0).

(** [null] for a folder. *)
Definition translationStatus (node : KeyNode) (translations : value)
                             (targetLanguages : list string)
  : option TranslationStatus :=
  if negb (isLeaf node) then None
  else
    let '(statuses, count) :=
      status_loop translations (path node) targetLanguages in
    let n := length targetLanguages in
    Some (mkTranslationStatus count n
            ((count =? n)%nat && (0 <? n)%nat)
            ((0 <? count)%nat && (count <? n)%nat)
            (count =? 0)%nat
            statuses).

(** *** The header: [stats] of the whole tree *)

(** The counters that [countNodes] increments. *)
Record Counters : Type := mkCounters {
  c_totalKeys : nat;
  c_translatedKeys : nat;
  c_partialKeys : nat;
  c_missingKeys : nat;
  c_totalGroups : nat;
}.

(** The leaf branch of the loop of [countNodes]. *)
Definition count_leaf (translations : value) (targetLanguages : list string)
                      (p : string) (c : Counters) : Counters :=
  let c := mkCounters (S (c_totalKeys c)) (c_translatedKeys c)
                      (c_partialKeys c) (c_missingKeys c) (c_totalGroups c) in
  if (length targetLanguages =? 0)%nat then c
  else
    let translatedCount :=
      Stats.translatedCount translations p targetLanguages in
    if (translatedCount =? length targetLanguages)%nat then
      mkCounters (c_totalKeys c) (S (c_translatedKeys c))
                 (c_partialKeys c) (c_missingKeys c) (c_totalGroups c)
    else if (0 <? translatedCount)%nat then
      mkCounters (c_totalKeys c) (c_translatedKeys c)
                 (S (c_partialKeys c)) (c_missingKeys c) (c_totalGroups c)
    else
      mkCounters (c_totalKeys c) (c_translatedKeys c)
                 (c_partialKeys c) (S (c_missingKeys c)) (c_totalGroups c).

(** One turn of the loop of [countNodes], for the node [n]. *)
Fixpoint count_node (translations : value) (targetLanguages : list string)
                    (n : KeyNode) (c : Counters) : Counters :=
  match n with
  | mkKeyNode _ p true _ => count_leaf translations targetLanguages p c
  | mkKeyNode _ _ false cs =>
      (fix countNodes (nodes : list KeyNode) (c : Counters) : Counters :=
         match nodes with
         | [] => c
         | node :: rest =>
             countNodes rest
               (count_node translations targetLanguages node c)
         end) cs
        (mkCounters (c_totalKeys c) (c_translatedKeys c) (c_partialKeys c)
                    (c_missingKeys c) (S (c_totalGroups c)))
  end.

Definition countNodes (translations : value) (targetLanguages : list string)
                      (nodes : list KeyNode) (c : Counters) : Counters :=
  fold_left (fun c node => count_node translations targetLanguages node c)
            nodes c.

(** The object that [stats] holds. *)
Record TreeStats : Type := mkTreeStats {
  totalKeys : nat;
  translatedKeys : nat;
  partialKeys : nat;
  missingKeys : nat;
  totalGroups : nat;
  progress : Z;
}.

Definition stats (tree : list KeyNode) (translations : value)
                 (targetLanguages : list string) : TreeStats :=
  let c := countNodes translations targetLanguages tree
             (mkCounters 0 0 0 0 0) in
  mkTreeStats (c_totalKeys c) (c_translatedKeys c) (c_partialKeys c)
              (c_missingKeys c) (c_totalGroups c)
              (if (0 <? c_totalKeys c)%nat && (0 <? length targetLanguages)%nat
               then Stats.percentage (c_translatedKeys c) (c_totalKeys c)
               else 0%Z).

(** *** The bars per language: [languageStats] *)

Record LangStat : Type := mkLangStat {
  ls_translated : nat;
  ls_total : nat;
}.

(** [langStats[lang] = { translated: 0, total: 0 }] for every language. *)
Definition init_langStats (targetLanguages : list string)
  : gmap string LangStat :=
  fold_left (fun langStats lang => <[lang := mkLangStat 0 0]> langStats)
            targetLanguages ∅.

(** The loop over the languages for one leaf: [langStats[lang].total++]
    and, when the leaf is translated, [langStats[lang].translated++].
    Every language met here was given its entry by [init_langStats]. *)
Definition count_langs (translations : value) (targetLanguages : list string)
                       (p : string) (langStats : gmap string LangStat)
  : gmap string LangStat :=
  fold_left
    (fun langStats lang =>
       alter (fun st =>
                mkLangStat
                  (if Stats.translated_for translations p lang
                   then S (ls_translated st) else ls_translated st)
                  (S (ls_total st)))
             lang langStats)
    targetLanguages langStats.

Fixpoint count_leaf_node (translations : value) (targetLanguages : list string)
                         (n : KeyNode) (langStats : gmap string LangStat)
  : gmap string LangStat :=
  match n with
  | mkKeyNode _ p true _ => count_langs translations targetLanguages p langStats
  | mkKeyNode _ _ false cs =>
      (fix countLeafNodes (nodes : list KeyNode)
                          (langStats : gmap string LangStat) :=
         match nodes with
         | [] => langStats
         | node :: rest =>
             countLeafNodes rest
               (count_leaf_node translations targetLanguages node langStats)
         end) cs langStats
  end.

Definition languageStats (tree : list KeyNode) (translations : value)
                         (targetLanguages : list string)
  : gmap string LangStat :=
  fold_left
    (fun langStats node =>
       count_leaf_node translations targetLanguages node langStats)
    tree (init_langStats targetLanguages).

(** [langStat.total > 0 ? Math.round((translated / total) * 100) : 0] *)
Definition langProgress (st : LangStat) : Z :=
  if (0 <? ls_total st)%nat
  then Stats.percentage (ls_translated st) (ls_total st)
  else 0%Z.

End Overview.

(* ================================================================== *)
(** ** Properties of the join protocol                                *)
(* ================================================================== *)

Module JoinProofs.
Import JS Cloud.

(** The request of user [u] presenting the code [c]. *)
Definition request (u c : string) : JoinRequest :=
  mkJoinRequest (Some u) (VStr c).

Lemma eqb_empty_false (s : string) : s ≠ "" → String.eqb s "" = false.
Proof. intros H. by apply String.eqb_neq. Qed.

(** With a user id and a non-empty code, the first step is the lookup of
    the upper-cased code followed by the checks on the row found. *)
Lemma lookup_step_request now db u c :
  u ≠ "" → c ≠ "" →
  lookup_step now db (request u c) =
    match find_invite_by_code db (toUpperCase c) with
    | None => Answered InvalidCode
    | Some invite =>
        if match ic_expiresAt invite with
           | Some t => (t <? now)%Z
           | None => false
           end
        then Answered CodeExpired
        else if match ic_maxUses invite with
                | Some m => negb (m =? 0)%Z && (m <=? ic_uses invite)%Z
                | None => false
                end
        then Answered CodeExhausted
        else
          match projects db !! ic_projectId invite with
          | None => Answered JoinFailed
          | Some project =>
              if String.eqb (p_ownerId project) u then Answered AlreadyOwner
              else AtMemberCheck u invite
          end
    end.
Proof.
  intros Hu Hc. unfold lookup_step, request; simpl.
  by rewrite !eqb_empty_false.
Qed.

(** A step changes the database only by committing the transaction. *)
Lemma join_step_db now db pc db' pc' :
  join_step now db pc = (db', pc') →
  db' = db ∨ ∃ u invite, pc = AtTransaction u invite
                         ∧ join_transaction db u invite = Some db'
                         ∧ pc' = Answered (Success (mkJoined (ic_projectId invite)
                                                             (ic_role invite))).
Proof.
  destruct pc as [req|u invite|u invite|r]; simpl; intros H.
  - left. congruence.
  - left. destruct (find_member _ _ _); congruence.
  - destruct (join_transaction db u invite) as [db1|] eqn:E.
    + right. exists u, invite. split; [done|]. split; congruence.
    + left. congruence.
  - left. congruence.
Qed.

Lemma join_step_answered now db r : join_step now db (Answered r) = (db, Answered r).
Proof. reflexivity. Qed.

(** The first step of a request ends in a rejection or goes on to the
    membership check. *)
Lemma lookup_step_cases now db req :
  (∃ u invite, lookup_step now db req = AtMemberCheck u invite)
  ∨ (∃ status msg, lookup_step now db req = Answered (Fail status msg)).
Proof.
  unfold lookup_step, InvalidCode, CodeExpired, CodeExhausted, AlreadyOwner,
    JoinFailed.
  repeat case_match; eauto.
Qed.

(** Every rejected join leaves the database as it was. *)
Lemma join_rejected_unchanged now db req db' status msg :
  join now db req = (db', Fail status msg) → db' = db.
Proof.
  unfold join. simpl.
  destruct (lookup_step_cases now db req) as [(u & invite & ->)|(st & m & ->)];
    simpl.
  - destruct (find_member db u (ic_projectId invite)); simpl.
    + intros [= <- _]. done.
    + destruct (join_transaction db u invite) as [db1|]; simpl.
      * intros ?. simplify_eq.
      * intros [= <- _]. done.
  - intros [= <- _]. done.
Qed.

(** *** The checks, as the claims word them *)

(** The current time is past [expiresAt]. *)
Definition past_expiry (now : Z) (invite : InviteCode) : Prop :=
  ∃ t, ic_expiresAt invite = Some t ∧ (t < now)%Z.

(** [maxUses] is set, is not zero, and [uses ≥ maxUses]. *)
Definition uses_reached (invite : InviteCode) : Prop :=
  ∃ m, ic_maxUses invite = Some m ∧ m ≠ 0%Z ∧ (m ≤ ic_uses invite)%Z.

Lemma past_expiry_test now invite :
  past_expiry now invite ↔
  match ic_expiresAt invite with Some t => (t <? now)%Z | None => false end = true.
Proof.
  unfold past_expiry. destruct (ic_expiresAt invite) as [t|]; split.
  - intros (t' & [= <-] & H). by apply Z.ltb_lt.
  - intros H. exists t. split; [done|]. by apply Z.ltb_lt.
  - intros (t' & [=] & _).
  - discriminate.
Qed.

Lemma uses_reached_test invite :
  uses_reached invite ↔
  match ic_maxUses invite with
  | Some m => negb (m =? 0)%Z && (m <=? ic_uses invite)%Z
  | None => false
  end = true.
Proof.
  unfold uses_reached. destruct (ic_maxUses invite) as [m|]; split.
  - intros (m' & [= <-] & H0 & H). apply andb_true_iff. split.
    + apply negb_true_iff. by apply Z.eqb_neq.
    + by apply Z.leb_le.
  - intros [H0 H]%andb_true_iff. exists m. split; [done|]. split.
    + apply Z.eqb_neq. by apply negb_true_iff.
    + by apply Z.leb_le.
  - intros (m' & [=] & _).
  - discriminate.
Qed.

Lemma test_false {P : Prop} {b : bool} : (P ↔ b = true) → ¬ P → b = false.
Proof. intros H HP. destruct b; [|done]. exfalso. apply HP, H. done. Qed.

(** The membership row and the database after a granted join. *)
Definition membership (u : string) (invite : InviteCode) : ProjectMember :=
  mkProjectMember (ic_role invite) u (ic_projectId invite).

Definition after_join (db : DB) (u : string) (invite : InviteCode) : DB :=
  mkDB (users db) (projects db)
       (members db ++ [membership u invite])
       (map (fun i => if String.eqb (ic_id i) (ic_id invite) then bump i else i)
            (invites db)).

Lemma find_invite_in db c invite :
  find_invite_by_code db c = Some invite →
  In invite (invites db) ∧ ic_code invite = c.
Proof.
  unfold find_invite_by_code. intros [H1 H2]%find_some.
  split; [done|]. by apply String.eqb_eq.
Qed.

(** The transaction commits when the user exists, the project exists, no
    membership is there yet and the invite row is still there. *)
Lemma join_transaction_commits db u invite :
  find_member db u (ic_projectId invite) = None →
  u ∈ users db →
  is_Some (projects db !! ic_projectId invite) →
  In invite (invites db) →
  join_transaction db u invite = Some (after_join db u invite).
Proof.
  intros Hm Hu Hp Hi. unfold join_transaction, create_member.
  rewrite Hm. simpl.
  rewrite (bool_decide_eq_true_2 _ Hu), (bool_decide_eq_true_2 _ Hp). simpl.
  unfold increment_uses. simpl.
  assert (existsb (fun i => String.eqb (ic_id i) (ic_id invite)) (invites db) = true)
    as ->; [|done].
  apply existsb_exists. exists invite. split; [done|]. apply String.eqb_refl.
Qed.

(** An update of [uses] leaves the outcome of a lookup by code the same
    row, updated. *)
Lemma find_code_after_bump (l : list InviteCode) (id c : string) :
  List.find (fun i => String.eqb (ic_code i) c)
            (map (fun i => if String.eqb (ic_id i) id then bump i else i) l)
  = (fun i => if String.eqb (ic_id i) id then bump i else i)
      <$> List.find (fun i => String.eqb (ic_code i) c) l.
Proof.
  induction l as [|i l IH]; [done|].
  cbn [map List.find]. rewrite IH.
  assert (ic_code (if String.eqb (ic_id i) id then bump i else i) = ic_code i)
    as -> by (by destruct (String.eqb (ic_id i) id)).
  by destruct (String.eqb (ic_code i) c).
Qed.

(** A join that passes every check: one membership with the role of the
    code is added and [uses] grows by one. *)
Lemma join_granted now db u c invite project :
  u ≠ "" → c ≠ "" →
  find_invite_by_code db (toUpperCase c) = Some invite →
  ¬ past_expiry now invite →
  ¬ uses_reached invite →
  projects db !! ic_projectId invite = Some project →
  p_ownerId project ≠ u →
  find_member db u (ic_projectId invite) = None →
  u ∈ users db →
  join now db (request u c)
  = (after_join db u invite,
     Success (mkJoined (ic_projectId invite) (ic_role invite))).
Proof.
  intros Hu Hc Hf He Hx Hp Ho Hm Hin.
  unfold join. simpl. rewrite lookup_step_request by done.
  rewrite Hf, (test_false (past_expiry_test _ _) He),
    (test_false (uses_reached_test _) Hx), Hp.
  apply String.eqb_neq in Ho. rewrite Ho. simpl. rewrite Hm. simpl.
  rewrite join_transaction_commits; [done..| |].
  - by rewrite Hp.
  - by apply find_invite_in in Hf as [? _].
Qed.

(** C4 (amended): [join] looks the code up by its upper-cased form and
    rejects, in this order: with InvalidCode when no such code exists,
    with CodeExpired when the current time is past [expiresAt], with
    CodeExhausted when [maxUses] is set, is not zero and [uses ≥ maxUses],
    with AlreadyOwner when the user owns the project of a code that passed
    the previous checks, with AlreadyMember when a membership for the user
    and the project exists.  Every rejected join leaves the database (the
    [uses] counters and the memberships) unchanged, and two spellings of a
    code that differ only in case are treated alike. *)
Theorem join_rejects_in_order now db u c :
  u ≠ "" → c ≠ "" →
  (find_invite_by_code db (toUpperCase c) = None →
   join now db (request u c) = (db, InvalidCode))
  ∧ (∀ invite,
       find_invite_by_code db (toUpperCase c) = Some invite →
       (past_expiry now invite →
        join now db (request u c) = (db, CodeExpired))
       ∧ (¬ past_expiry now invite → uses_reached invite →
          join now db (request u c) = (db, CodeExhausted))
       ∧ (∀ project,
            ¬ past_expiry now invite → ¬ uses_reached invite →
            projects db !! ic_projectId invite = Some project →
            (p_ownerId project = u →
             join now db (request u c) = (db, AlreadyOwner))
            ∧ (p_ownerId project ≠ u →
               is_Some (find_member db u (ic_projectId invite)) →
               join now db (request u c) = (db, AlreadyMember))))
  ∧ (∀ db' status msg,
       join now db (request u c) = (db', Fail status msg) → db' = db)
  ∧ (∀ c', c' ≠ "" → toUpperCase c' = toUpperCase c →
       join now db (request u c') = join now db (request u c)).
Proof.
  intros Hu Hc. split; [|split; [|split]].
  - intros Hf. unfold join. simpl.
    rewrite lookup_step_request by done. by rewrite Hf.
  - intros invite Hf. split; [|split].
    + intros He%past_expiry_test. unfold join. simpl.
      rewrite lookup_step_request by done. by rewrite Hf, He.
    + intros He Hx%uses_reached_test. unfold join. simpl.
      rewrite lookup_step_request by done.
      by rewrite Hf, (test_false (past_expiry_test _ _) He), Hx.
    + intros project He Hx Hp.
      assert (lookup_step now db (request u c) =
                if String.eqb (p_ownerId project) u then Answered AlreadyOwner
                else AtMemberCheck u invite) as Hstep.
      { rewrite lookup_step_request by done.
        by rewrite Hf, (test_false (past_expiry_test _ _) He),
          (test_false (uses_reached_test _) Hx), Hp. }
      split.
      * intros Ho%String.eqb_eq. unfold join. simpl. by rewrite Hstep, Ho.
      * intros Ho%String.eqb_neq [m Hm]. unfold join. simpl.
        rewrite Hstep, Ho. simpl. by rewrite Hm.
  - intros db' status msg. apply join_rejected_unchanged.
  - intros c' Hc' Hup. unfold join. simpl.
    rewrite !lookup_step_request by done. by rewrite Hup.
Qed.

(** *** Concrete databases *)

Definition site : Project :=
  mkProject "Site" "en" ["de"; "fr"] (VObj []) (VObj []) "alice".

Definition the_code (maxUses : option Z) (uses : Z) (expiresAt : option Z)
  : InviteCode :=
  mkInviteCode "inv1" "ABCD2345" "editor" maxUses uses expiresAt "p1" "alice".

Definition db_with (invite : InviteCode) : DB :=
  mkDB (list_to_set ["alice"; "bob"; "carol"]) {["p1" := site]} [] [invite].

(** Bob presents a code that does not exist, in lower case. *)
Lemma join_rejects_in_order_witness :
  join 0 (db_with (the_code None 0 None)) (request "bob" "zzzz9999")
  = (db_with (the_code None 0 None), InvalidCode).
Proof.
  destruct (join_rejects_in_order 0 (db_with (the_code None 0 None))
              "bob" "zzzz9999") as [Hinvalid _]; [done | done |].
  apply Hinvalid. vm_compute. reflexivity.
Defined.

(** C4, as stated, fails: the owner of the project who presents an
    expired code of that project is told that the code has expired, not
    that she owns the project. *)
Lemma owner_with_expired_code :
  (p_ownerId <$> projects (db_with (the_code None 0 (Some 500%Z))) !! "p1")
  = Some "alice"
  ∧ join 1000 (db_with (the_code None 0 (Some 500%Z))) (request "alice" "ABCD2345")
    = (db_with (the_code None 0 (Some 500%Z)), CodeExpired)
  ∧ CodeExpired ≠ AlreadyOwner.
Proof. split; [|split]; [vm_compute; reflexivity..|discriminate]. Qed.

(** C10: a use bound of zero means unlimited.  Creating an invite with a
    requested [maxUses] of 0 stores no bound, and for a code whose
    [maxUses] column holds 0 the exhaustion check is skipped: whatever
    [uses] is, a join that passes the other checks is granted and
    increments [uses], instead of being rejected with CodeExhausted. *)
Theorem zero_maxUses_is_unlimited :
  (∀ now draw new_id db u projectId project body,
     u ≠ "" →
     projects db !! projectId = Some project →
     p_ownerId project = u →
     find_invite_by_code db (draw O) = None →
     existsb (fun i => String.eqb (ic_id i) new_id) (invites db) = false →
     maxUses body = Some 0%Z →
     ∃ invite,
       create_invite now draw new_id db (Some u) projectId body
       = (mkDB (users db) (projects db) (members db) (invites db ++ [invite]),
          Success invite)
       ∧ ic_code invite = draw O
       ∧ ic_maxUses invite = None
       ∧ ic_uses invite = 0%Z)
  ∧ (∀ now db u c invite project,
       u ≠ "" → c ≠ "" →
       find_invite_by_code db (toUpperCase c) = Some invite →
       ic_maxUses invite = Some 0%Z →
       ¬ past_expiry now invite →
       projects db !! ic_projectId invite = Some project →
       p_ownerId project ≠ u →
       find_member db u (ic_projectId invite) = None →
       u ∈ users db →
       join now db (request u c)
       = (after_join db u invite,
          Success (mkJoined (ic_projectId invite) (ic_role invite)))
       ∧ find_invite_by_code (after_join db u invite) (toUpperCase c)
         = Some (bump invite)
       ∧ ic_uses (bump invite) = (ic_uses invite + 1)%Z
       ∧ ic_maxUses (bump invite) = Some 0%Z).
Proof.
  split.
  - intros now draw new_id db u projectId project body Hu Hp Ho Hfree Hid Hmax.
    eexists. unfold create_invite.
    rewrite (eqb_empty_false u Hu), Hp.
    apply String.eqb_eq in Ho. rewrite Ho. cbn [negb draw_code].
    rewrite Hfree. cbn [Nat.leb]. rewrite Hid, Hmax. cbn.
    repeat split.
  - intros now db u c invite project Hu Hc Hf Hmax He Hp Ho Hm Hin.
    split; [|split; [|split]].
    + apply (join_granted now db u c invite project); try done.
      intros (m & Hm' & Hz & _). congruence.
    + unfold find_invite_by_code, after_join. cbn [invites].
      rewrite find_code_after_bump. fold (find_invite_by_code db (toUpperCase c)).
      rewrite Hf. cbn. by rewrite String.eqb_refl.
    + reflexivity.
    + exact Hmax.
Qed.

(** Alice creates an invite with [maxUses: 0]; Bob joins with a code whose
    bound is 0 and that has been used seven times already. *)
Lemma zero_maxUses_is_unlimited_witness :
  (∃ invite,
     create_invite 0 (fun _ => "WXYZ6789") "inv2"
       (db_with (the_code None 0 None)) (Some "alice") "p1"
       (mkInviteBody None (Some 0%Z) None)
     = (mkDB (users (db_with (the_code None 0 None)))
             (projects (db_with (the_code None 0 None)))
             (members (db_with (the_code None 0 None)))
             (invites (db_with (the_code None 0 None)) ++ [invite]),
        Success invite)
     ∧ ic_code invite = "WXYZ6789"
     ∧ ic_maxUses invite = None
     ∧ ic_uses invite = 0%Z)
  ∧ join 0 (db_with (the_code (Some 0%Z) 7 None)) (request "bob" "abcd2345")
    = (after_join (db_with (the_code (Some 0%Z) 7 None)) "bob"
                  (the_code (Some 0%Z) 7 None),
       Success (mkJoined "p1" "editor")).
Proof.
  destruct zero_maxUses_is_unlimited as [Hcreate Hjoin]. split.
  - apply (Hcreate 0%Z (fun _ => "WXYZ6789") "inv2"
             (db_with (the_code None 0 None)) "alice" "p1" site);
      first [done | vm_compute; reflexivity].
  - refine (proj1 (Hjoin 0%Z (db_with (the_code (Some 0%Z) 7 None)) "bob"
                     "abcd2345" (the_code (Some 0%Z) 7 None) site
                     _ _ _ _ _ _ _ _ _));
      first [done | vm_compute; reflexivity | by intros (t & Ht & _)].
Defined.

(** The only writes to the database are those of a committed transaction,
    and they come together: the membership and the increment. *)
Lemma join_transaction_atomic db u invite db' :
  join_transaction db u invite = Some db' → db' = after_join db u invite.
Proof.
  unfold join_transaction, create_member, increment_uses.
  repeat case_match; simpl; try discriminate.
  repeat case_match; simpl; try discriminate.
  by intros [= <-].
Qed.

(** C1, the concurrent case.  Bob and Carol present a code with
    [maxUses = 1] and [uses = 0]; each request reads the code and the
    memberships before the other commits.  Both are granted: two
    memberships exist afterwards and [uses] is 2. *)
Theorem concurrent_joins_overgrant :
  let db := db_with (the_code (Some 1%Z) 0 None) in
  let r := run_two 0 [false; true; false; true; false; true] db
             (AtLookup (request "bob" "ABCD2345"))
             (AtLookup (request "carol" "ABCD2345")) in
  answer r.1.2 = Some (Success (mkJoined "p1" "editor"))
  ∧ answer r.2 = Some (Success (mkJoined "p1" "editor"))
  ∧ members r.1.1 = [mkProjectMember "editor" "bob" "p1";
                     mkProjectMember "editor" "carol" "p1"]
  ∧ invites r.1.1 = [the_code (Some 1%Z) 2 None].
Proof. vm_compute. repeat split. Qed.

(** Served one after the other, the same two requests end as the claim
    says: one membership, [uses = 1], CodeExhausted for the second. *)
Lemma serial_joins_exhaust :
  let db := db_with (the_code (Some 1%Z) 0 None) in
  let r := run_two 0 [false; false; false; true; true; true] db
             (AtLookup (request "bob" "ABCD2345"))
             (AtLookup (request "carol" "ABCD2345")) in
  answer r.1.2 = Some (Success (mkJoined "p1" "editor"))
  ∧ answer r.2 = Some CodeExhausted
  ∧ members r.1.1 = [mkProjectMember "editor" "bob" "p1"]
  ∧ invites r.1.1 = [the_code (Some 1%Z) 1 None].
Proof. vm_compute. repeat split. Qed.

(** *** Joins served one after another *)

Lemma create_member_inv db u projectId role db1 :
  create_member db u projectId role = Some db1 →
  u ∈ users db ∧ is_Some (projects db !! projectId).
Proof.
  unfold create_member. repeat case_match; try discriminate. intros _.
  split.
  - by eapply bool_decide_eq_true_1, negb_false_iff.
  - by eapply bool_decide_eq_true_1, negb_false_iff.
Qed.

(** What a granted join went through. *)
Lemma join_success_inv now db req db' j :
  join now db req = (db', Success j) →
  ∃ u c invite project,
    req = request u c ∧ u ≠ "" ∧ c ≠ ""
    ∧ find_invite_by_code db (toUpperCase c) = Some invite
    ∧ ¬ past_expiry now invite
    ∧ ¬ uses_reached invite
    ∧ projects db !! ic_projectId invite = Some project
    ∧ p_ownerId project ≠ u
    ∧ find_member db u (ic_projectId invite) = None
    ∧ u ∈ users db
    ∧ j = mkJoined (ic_projectId invite) (ic_role invite)
    ∧ db' = after_join db u invite.
Proof.
  unfold join. simpl.
  destruct (lookup_step now db req) as [r0|u invite|u invite|r] eqn:Hstep;
    simpl.
  - destruct (lookup_step_cases now db req) as [(? & ? & H)|(? & ? & H)];
      congruence.
  - destruct (find_member db u (ic_projectId invite)) eqn:Hm; simpl;
      [discriminate|].
    destruct (join_transaction db u invite) as [db1|] eqn:Ht; simpl;
      [|discriminate].
    intros [= <- <-].
    assert (u ∈ users db) as Hu.
    { unfold join_transaction in Ht.
      destruct (create_member db u (ic_projectId invite) (ic_role invite))
        as [db2|] eqn:Hc; [|discriminate].
      by apply create_member_inv in Hc as [? _]. }
    apply join_transaction_atomic in Ht as ->.
    (* what the first step checked *)
    unfold lookup_step in Hstep. destruct req as [[u'|] cv]; [|discriminate].
    cbn [x_user_id code] in Hstep.
    destruct (String.eqb_spec u' ""); [discriminate|].
    destruct (negb (truthy cv)) eqn:Htruthy; [discriminate|].
    destruct cv as [| | | |c| | |]; try discriminate.
    destruct (find_invite_by_code db (toUpperCase c)) as [invite'|] eqn:Hf;
      [|discriminate].
    destruct (match ic_expiresAt invite' with
              | Some t => (t <? now)%Z | None => false end) eqn:He;
      [discriminate|].
    destruct (match ic_maxUses invite' with
              | Some m => negb (m =? 0)%Z && (m <=? ic_uses invite')%Z
              | None => false end) eqn:Hx; [discriminate|].
    destruct (projects db !! ic_projectId invite') as [project|] eqn:Hp;
      [|discriminate].
    destruct (String.eqb_spec (p_ownerId project) u'); [discriminate|].
    injection Hstep as <- <-.
    exists u', c, invite', project. repeat split; try done.
    + intros ->. discriminate.
    + intros H%past_expiry_test. congruence.
    + intros H%uses_reached_test. congruence.
  - destruct (lookup_step_cases now db req) as [(? & ? & H)|(? & ? & H)];
      congruence.
  - intros [= <- ->].
    destruct (lookup_step_cases now db req) as [(? & ? & H)|(? & ? & H)];
      congruence.
Qed.

(** A join is granted exactly when the code exists, is neither expired
    nor exhausted, the caller is a user who neither owns the project nor
    is a member of it; it then adds one membership with the role of the
    code for the caller and increments the [uses] of the code, and changes
    nothing else. *)
Theorem granted_join now db req db' j :
  join now db req = (db', Success j) ↔
  ∃ u c invite project,
    req = request u c ∧ u ≠ "" ∧ c ≠ ""
    ∧ find_invite_by_code db (toUpperCase c) = Some invite
    ∧ ¬ past_expiry now invite
    ∧ ¬ uses_reached invite
    ∧ projects db !! ic_projectId invite = Some project
    ∧ p_ownerId project ≠ u
    ∧ find_member db u (ic_projectId invite) = None
    ∧ u ∈ users db
    ∧ j = mkJoined (ic_projectId invite) (ic_role invite)
    ∧ db' = after_join db u invite.
Proof.
  split.
  - apply join_success_inv.
  - intros (u & c & invite & project & -> & Hu & Hc & Hf & He & Hx & Hp & Ho
            & Hm & Hin & -> & ->).
    by eapply join_granted.
Qed.

(** The invariant of the specification: [uses ≤ maxUses] for every code
    with a bound (other than the bound 0, which means no bound). *)
Definition within_bounds (db : DB) : Prop :=
  ∀ i m, In i (invites db) → ic_maxUses i = Some m → m ≠ 0%Z →
         (ic_uses i ≤ m)%Z.

(** Primary key of [InviteCode]. *)
Definition unique_ids (db : DB) : Prop :=
  NoDup (map ic_id (invites db)).

Lemma unique_ids_same db i i' :
  unique_ids db → In i (invites db) → In i' (invites db) →
  ic_id i = ic_id i' → i = i'.
Proof.
  unfold unique_ids. induction (invites db) as [|x l IH]; [done|].
  cbn [map]. intros [Hx Hl]%NoDup_cons [<-|Hi] [<-|Hi'] Hid; try done.
  - exfalso. apply Hx. rewrite Hid. apply list_elem_of_In.
    by apply in_map.
  - exfalso. apply Hx. rewrite <- Hid. apply list_elem_of_In.
    by apply in_map.
  - by apply IH.
Qed.

Lemma after_join_ids db u invite :
  map ic_id (invites (after_join db u invite)) = map ic_id (invites db).
Proof.
  unfold after_join. cbn [invites]. rewrite map_map. apply map_ext.
  intros i. by destruct (String.eqb (ic_id i) (ic_id invite)).
Qed.

(** Served one after another, joins keep [uses ≤ maxUses]. *)
Lemma join_keeps_bounds now db req db' r :
  unique_ids db → within_bounds db →
  join now db req = (db', r) →
  unique_ids db' ∧ within_bounds db'.
Proof.
  intros Hid Hb Hj. destruct r as [status msg|j].
  - by apply join_rejected_unchanged in Hj as ->.
  - apply join_success_inv in Hj
      as (u & c & invite & project & _ & _ & _ & Hf & _ & Hx & _ & _ & _ & _
          & _ & ->).
    apply find_invite_in in Hf as [Hin _].
    split.
    + unfold unique_ids. by rewrite after_join_ids.
    + intros i' m Hi' Hmax Hm. unfold after_join in Hi'. cbn [invites] in Hi'.
      apply in_map_iff in Hi' as (i & <- & Hi).
      destruct (String.eqb_spec (ic_id i) (ic_id invite)) as [Heq|_].
      * assert (i = invite) as -> by (by eapply unique_ids_same).
        cbn [bump ic_maxUses ic_uses] in *.
        assert (¬ (m ≤ ic_uses invite)%Z); [|lia].
        intros Hle. apply Hx. by exists m.
      * by apply (Hb i m).
Qed.

(** Requests served one after another. *)
Fixpoint serve (now : Z) (db : DB) (reqs : list JoinRequest) : DB :=
  match reqs with
  | [] => db
  | req :: rest => serve now (join now db req).1 rest
  end.

(** Whatever requests are served one after another, no code with a
    bound [N ≠ 0] is used more than [N] times. *)
Theorem serial_joins_within_bounds now reqs : ∀ db,
  unique_ids db → within_bounds db →
  unique_ids (serve now db reqs) ∧ within_bounds (serve now db reqs).
Proof.
  induction reqs as [|req reqs IH]; intros db Hid Hb; [done|].
  cbn [serve]. destruct (join now db req) as [db' r] eqn:Hj.
  destruct (join_keeps_bounds _ _ _ _ _ Hid Hb Hj). by apply IH.
Qed.

Lemma serial_joins_within_bounds_witness :
  within_bounds
    (serve 0 (db_with (the_code (Some 1%Z) 0 None))
       [request "bob" "ABCD2345"; request "carol" "abcd2345"]).
Proof.
  apply (serial_joins_within_bounds 0
           [request "bob" "ABCD2345"; request "carol" "abcd2345"]
           (db_with (the_code (Some 1%Z) 0 None))).
  - unfold unique_ids. vm_compute. apply NoDup_cons. split.
    + apply not_elem_of_nil.
    + apply NoDup_nil. done.
  - intros i m [<-|[]] [= <-] _. vm_compute. discriminate.
Defined.

End JoinProofs.

(* ================================================================== *)
(** ** Who may write a shared project and create its codes            *)
(* ================================================================== *)

Module AccessProofs.
Import JS Cloud.

(** An update is applied only for the owner of the project or for a
    member with the role [editor]; it replaces the row of the project,
    keeps its owner, and touches neither the memberships nor the
    codes. *)
Theorem put_project_by_owner_or_editor db uid id u db' p :
  put_project db uid id u = (db', Success p) →
  ∃ userId project,
    uid = Some userId
    ∧ projects db !! id = Some project
    ∧ (p_ownerId project = userId
       ∨ mkProjectMember "editor" userId id ∈ members db)
    ∧ p = apply_update project u
    ∧ p_ownerId p = p_ownerId project
    ∧ projects db' = <[id := p]> (projects db)
    ∧ users db' = users db
    ∧ members db' = members db
    ∧ invites db' = invites db.
Proof.
  unfold put_project. destruct uid as [userId|]; [|discriminate].
  destruct (String.eqb userId ""); [discriminate|].
  destruct (projects db !! id) as [project|] eqn:Hp; [|discriminate].
  destruct (can_edit db userId id project) eqn:Hc; [|discriminate].
  intros [= <- <-]. exists userId, project. repeat split; try done.
  unfold can_edit in Hc. apply orb_true_iff in Hc as [Ho|Hm].
  - left. by apply String.eqb_eq.
  - right. apply existsb_exists in Hm as ([r m q] & Hin & Hm).
    cbn [pm_role pm_userId pm_projectId] in Hm.
    apply andb_true_iff in Hm as [Hm Hr].
    apply andb_true_iff in Hm as [Hu Hq].
    apply String.eqb_eq in Hr as ->. apply String.eqb_eq in Hu as ->.
    apply String.eqb_eq in Hq as ->. by apply list_elem_of_In.
Qed.

(** Alice, the owner, renames her project. *)
Lemma put_project_by_owner_or_editor_witness :
  ∃ userId project,
    Some "alice" = Some userId
    ∧ projects (JoinProofs.db_with (JoinProofs.the_code None 0 None)) !! "p1"
      = Some project
    ∧ (p_ownerId project = userId
       ∨ mkProjectMember "editor" userId "p1"
         ∈ members (JoinProofs.db_with (JoinProofs.the_code None 0 None)))
    ∧ mkProject "Shop" "en" ["de"; "fr"] (VObj []) (VObj []) "alice"
      = apply_update project
          (mkProjectUpdate (Some "Shop") None None None None)
    ∧ p_ownerId (mkProject "Shop" "en" ["de"; "fr"] (VObj []) (VObj []) "alice")
      = p_ownerId project
    ∧ projects
        (mkDB (list_to_set ["alice"; "bob"; "carol"])
           {["p1" := mkProject "Shop" "en" ["de"; "fr"] (VObj []) (VObj [])
                       "alice"]}
           [] [JoinProofs.the_code None 0 None])
      = <["p1" := mkProject "Shop" "en" ["de"; "fr"] (VObj []) (VObj [])
                    "alice"]>
          (projects (JoinProofs.db_with (JoinProofs.the_code None 0 None)))
    ∧ users
        (mkDB (list_to_set ["alice"; "bob"; "carol"])
           {["p1" := mkProject "Shop" "en" ["de"; "fr"] (VObj []) (VObj [])
                       "alice"]}
           [] [JoinProofs.the_code None 0 None])
      = users (JoinProofs.db_with (JoinProofs.the_code None 0 None))
    ∧ members
        (mkDB (list_to_set ["alice"; "bob"; "carol"])
           {["p1" := mkProject "Shop" "en" ["de"; "fr"] (VObj []) (VObj [])
                       "alice"]}
           [] [JoinProofs.the_code None 0 None])
      = members (JoinProofs.db_with (JoinProofs.the_code None 0 None))
    ∧ invites
        (mkDB (list_to_set ["alice"; "bob"; "carol"])
           {["p1" := mkProject "Shop" "en" ["de"; "fr"] (VObj []) (VObj [])
                       "alice"]}
           [] [JoinProofs.the_code None 0 None])
      = invites (JoinProofs.db_with (JoinProofs.the_code None 0 None)).
Proof.
  apply (put_project_by_owner_or_editor
           (JoinProofs.db_with (JoinProofs.the_code None 0 None))
           (Some "alice") "p1"
           (mkProjectUpdate (Some "Shop") None None None None)).
  vm_compute. reflexivity.
Defined.

(** A caller who neither owns the project nor is one of its editors is
    answered 404, and nothing is written. *)
Theorem put_project_denied db userId id u :
  (∀ project, projects db !! id = Some project → p_ownerId project ≠ userId) →
  mkProjectMember "editor" userId id ∉ members db →
  ∃ status e, status ≠ 200%nat ∧ put_project db (Some userId) id u = (db, Fail status e).
Proof.
  intros Ho Hm. unfold put_project.
  destruct (String.eqb userId ""); [by exists 401%nat, "User ID required"|].
  destruct (projects db !! id) as [project|] eqn:Hp;
    [|by exists 404%nat, "Project not found or no edit access"].
  destruct (can_edit db userId id project) eqn:Hc;
    [|by exists 404%nat, "Project not found or no edit access"].
  exfalso. unfold can_edit in Hc. apply orb_true_iff in Hc as [Hc|Hc].
  - apply String.eqb_eq in Hc. by apply (Ho project).
  - apply existsb_exists in Hc as ([r m q] & Hin & Hc).
    cbn [pm_role pm_userId pm_projectId] in Hc.
    apply andb_true_iff in Hc as [Hc Hr].
    apply andb_true_iff in Hc as [Hu Hq].
    apply String.eqb_eq in Hr as ->. apply String.eqb_eq in Hu as ->.
    apply String.eqb_eq in Hq as ->. by apply Hm, list_elem_of_In.
Qed.

(** Bob, who is no member at all, cannot write Alice's project. *)
Lemma put_project_denied_witness :
  ∃ status e,
    status ≠ 200%nat
    ∧ put_project (JoinProofs.db_with (JoinProofs.the_code None 0 None))
        (Some "bob") "p1" (mkProjectUpdate (Some "Mine") None None None None)
      = (JoinProofs.db_with (JoinProofs.the_code None 0 None), Fail status e).
Proof.
  apply put_project_denied.
  - intros project. vm_compute. intros [= <-]. discriminate.
  - apply not_elem_of_nil.
Defined.

(** The loop that draws a code stops before its tenth failure only on a
    code that no row holds. *)
Lemma draw_code_free db draw remaining : ∀ attempts attempts' c,
  draw_code db draw attempts remaining = (attempts', c) →
  (attempts' < attempts + remaining)%nat →
  find_invite_by_code db c = None.
Proof.
  induction remaining as [|remaining IH]; intros attempts attempts' c; simpl.
  - intros [= <- <-]. lia.
  - destruct (find_invite_by_code db (draw attempts)) eqn:Hf.
    + intros Hd Hlt. apply (IH _ _ _ Hd). lia.
    + by intros [= <- <-] _.
Qed.

(** A code is created only by the owner of the project, and it is a code
    that no existing row holds; it starts with [uses = 0], carries the
    bound of the request ([null] for none or for zero), and creating it
    changes nothing but the list of codes. *)
Theorem create_invite_fresh now draw new_id db uid projectId body db' invite :
  create_invite now draw new_id db uid projectId body = (db', Success invite) →
  ∃ project,
    projects db !! projectId = Some project
    ∧ uid = Some (p_ownerId project)
    ∧ find_invite_by_code db (ic_code invite) = None
    ∧ ic_uses invite = 0%Z
    ∧ ic_maxUses invite = or_null (maxUses body)
    ∧ ic_projectId invite = projectId
    ∧ invites db' = invites db ++ [invite]
    ∧ members db' = members db
    ∧ projects db' = projects db
    ∧ users db' = users db.
Proof.
  unfold create_invite. destruct uid as [userId|]; [|discriminate].
  destruct (String.eqb userId ""); [discriminate|].
  destruct (projects db !! projectId) as [project|] eqn:Hp; [|discriminate].
  destruct (String.eqb_spec (p_ownerId project) userId) as [Ho|];
    [|discriminate]. cbn [negb].
  destruct (draw_code db draw 0 10) as [attempts c] eqn:Hd.
  destruct (Nat.leb_spec 10 attempts) as [|Hlt]; [discriminate|].
  destruct (existsb _ (invites db)); [discriminate|].
  intros [= <- <-]. exists project. repeat split; try done.
  - by rewrite Ho.
  - cbn [ic_code]. by apply (draw_code_free _ _ _ _ _ _ Hd).
Qed.

(** Alice creates a code for her project; the first code drawn is taken,
    the second is free. *)
Lemma create_invite_fresh_witness :
  ∃ project,
    projects (JoinProofs.db_with (JoinProofs.the_code None 0 None)) !! "p1"
    = Some project
    ∧ Some "alice" = Some (p_ownerId project)
    ∧ find_invite_by_code (JoinProofs.db_with (JoinProofs.the_code None 0 None))
        (ic_code (mkInviteCode "inv2" "WXYZ6789" "viewer" None 0 None "p1"
                    "alice")) = None
    ∧ ic_uses (mkInviteCode "inv2" "WXYZ6789" "viewer" None 0 None "p1" "alice")
      = 0%Z
    ∧ ic_maxUses
        (mkInviteCode "inv2" "WXYZ6789" "viewer" None 0 None "p1" "alice")
      = or_null (maxUses (mkInviteBody (Some "viewer") (Some 0%Z) None))
    ∧ ic_projectId
        (mkInviteCode "inv2" "WXYZ6789" "viewer" None 0 None "p1" "alice")
      = "p1"
    ∧ invites
        (mkDB (list_to_set ["alice"; "bob"; "carol"]) {["p1" := JoinProofs.site]}
           []
           [JoinProofs.the_code None 0 None;
            mkInviteCode "inv2" "WXYZ6789" "viewer" None 0 None "p1" "alice"])
      = invites (JoinProofs.db_with (JoinProofs.the_code None 0 None))
        ++ [mkInviteCode "inv2" "WXYZ6789" "viewer" None 0 None "p1" "alice"]
    ∧ members
        (mkDB (list_to_set ["alice"; "bob"; "carol"]) {["p1" := JoinProofs.site]}
           []
           [JoinProofs.the_code None 0 None;
            mkInviteCode "inv2" "WXYZ6789" "viewer" None 0 None "p1" "alice"])
      = members (JoinProofs.db_with (JoinProofs.the_code None 0 None))
    ∧ projects
        (mkDB (list_to_set ["alice"; "bob"; "carol"]) {["p1" := JoinProofs.site]}
           []
           [JoinProofs.the_code None 0 None;
            mkInviteCode "inv2" "WXYZ6789" "viewer" None 0 None "p1" "alice"])
      = projects (JoinProofs.db_with (JoinProofs.the_code None 0 None))
    ∧ users
        (mkDB (list_to_set ["alice"; "bob"; "carol"]) {["p1" := JoinProofs.site]}
           []
           [JoinProofs.the_code None 0 None;
            mkInviteCode "inv2" "WXYZ6789" "viewer" None 0 None "p1" "alice"])
      = users (JoinProofs.db_with (JoinProofs.the_code None 0 None)).
Proof.
  apply (create_invite_fresh 0
           (fun k => match k with O => "ABCD2345" | _ => "WXYZ6789" end)
           "inv2" (JoinProofs.db_with (JoinProofs.the_code None 0 None))
           (Some "alice") "p1"
           (mkInviteBody (Some "viewer") (Some 0%Z) None)).
  vm_compute. reflexivity.
Defined.

(** *** Deleting a project *)

Lemma unique_by {A B} (f : A → B) (l : list A) x y :
  NoDup (map f l) → x ∈ l → y ∈ l → f x = f y → x = y.
Proof.
  induction l as [|a l IH]; cbn [map]; intros Hnd Hx Hy Hf.
  - by apply elem_of_nil in Hx.
  - apply NoDup_cons in Hnd as [Ha Hnd].
    apply elem_of_cons in Hx as [->|Hx]; apply elem_of_cons in Hy as [->|Hy].
    + done.
    + exfalso. apply Ha. rewrite Hf. by apply list_elem_of_fmap_2.
    + exfalso. apply Ha. rewrite <- Hf. by apply list_elem_of_fmap_2.
    + by apply IH.
Qed.

(** A code that no row holds is answered InvalidCode. *)
Lemma join_unknown_code now db u c :
  u ≠ "" → c ≠ "" →
  find_invite_by_code db (toUpperCase c) = None →
  join now db (JoinProofs.request u c) = (db, InvalidCode).
Proof.
  intros Hu Hc Hf. unfold join. cbn [join_step].
  by rewrite JoinProofs.lookup_step_request, Hf.
Qed.

Lemma filter_filter_ne {A} (f g : A → bool) (l : list A) :
  (∀ x, f x = true → g x = true) →
  List.filter f (List.filter g l) = List.filter f l.
Proof.
  intros Hfg. induction l as [|a l IH]; [done|]. cbn [List.filter].
  destruct (g a) eqn:Hg; cbn [List.filter].
  - by rewrite IH.
  - destruct (f a) eqn:Hf; [|done]. rewrite (Hfg _ Hf) in Hg. done.
Qed.

(** Only the owner deletes a project.  Once it is deleted nobody can
    read it, and (codes being unique) each of its codes is answered as
    an invalid code; the rows and the memberships of the other projects
    are as before. *)
Theorem deleted_project_is_gone db uid id db' :
  NoDup (map ic_code (invites db)) →
  delete_project db uid id = (db', Success ()) →
  (∃ project, projects db !! id = Some project
              ∧ uid = Some (p_ownerId project))
  ∧ (∀ u, ∃ status e, get_project db' u id = Fail status e)
  ∧ (∀ now u c invite,
       u ≠ "" → c ≠ "" →
       find_invite_by_code db (toUpperCase c) = Some invite →
       ic_projectId invite = id →
       join now db' (JoinProofs.request u c) = (db', InvalidCode))
  ∧ (∀ j, j ≠ id →
       projects db' !! j = projects db !! j
       ∧ project_members db' j = project_members db j).
Proof.
  intros Hnd. unfold delete_project.
  destruct uid as [userId|]; [|discriminate].
  destruct (String.eqb userId ""); [discriminate|].
  destruct (projects db !! id) as [project|] eqn:Hp; [|discriminate].
  destruct (String.eqb_spec (p_ownerId project) userId) as [Ho|];
    [|discriminate].
  intros [= <-]. split; [|split; [|split]].
  - exists project. by rewrite Ho.
  - intros u. unfold get_project. destruct u as [u|]; [|by eauto].
    destruct (String.eqb u ""); [by eauto|].
    cbn [delete_project_row projects]. rewrite lookup_delete_eq. by eauto.
  - intros now u c invite Hu Hc Hf Hid.
    apply join_unknown_code; [done..|].
    destruct (find_invite_by_code (delete_project_row db id) (toUpperCase c))
      as [other|] eqn:Hother; [exfalso|done].
    apply JoinProofs.find_invite_in in Hf as [Hin Hcode].
    unfold find_invite_by_code in Hother.
    apply find_some in Hother as [Hin' Hcode'].
    cbn [delete_project_row invites] in Hin'.
    apply filter_In in Hin' as [Hin' Hpid].
    apply String.eqb_eq in Hcode'.
    assert (other = invite) as ->.
    { apply (unique_by ic_code (invites db)); [done| | |congruence].
      - by apply list_elem_of_In.
      - by apply list_elem_of_In. }
    rewrite Hid, String.eqb_refl in Hpid. done.
  - intros j Hj. cbn [delete_project_row projects]. split.
    + by apply lookup_delete_ne.
    + unfold project_members. cbn [delete_project_row members].
      apply filter_filter_ne. intros m Hm.
      apply String.eqb_eq in Hm. rewrite Hm.
      apply negb_true_iff. by apply String.eqb_neq.
Qed.

(** Alice deletes her project; its code no longer admits Bob. *)
Lemma deleted_project_is_gone_witness :
  join 0 (delete_project_row
            (JoinProofs.db_with (JoinProofs.the_code None 0 None)) "p1")
    (JoinProofs.request "bob" "abcd2345")
  = (delete_project_row
       (JoinProofs.db_with (JoinProofs.the_code None 0 None)) "p1",
     InvalidCode).
Proof.
  destruct (deleted_project_is_gone
              (JoinProofs.db_with (JoinProofs.the_code None 0 None))
              (Some "alice") "p1"
              (delete_project_row
                 (JoinProofs.db_with (JoinProofs.the_code None 0 None)) "p1"))
    as (_ & _ & Hcodes & _).
  - apply NoDup_singleton.
  - reflexivity.
  - apply (Hcodes 0%Z "bob" "abcd2345" (JoinProofs.the_code None 0 None));
      [done|done|reflexivity|reflexivity].
Defined.

(** *** What a join grants *)

Lemma no_member_no_editor db u id :
  find_member db u id = None →
  existsb (fun m => String.eqb (pm_userId m) u
                    && String.eqb (pm_projectId m) id
                    && String.eqb (pm_role m) "editor")
          (members db) = false.
Proof.
  unfold find_member. intros Hf.
  destruct (existsb _ (members db)) eqn:He; [|done].
  apply existsb_exists in He as (m & Hin & Hm).
  apply andb_true_iff in Hm as [Hm _].
  by rewrite (find_none _ _ Hf m Hin) in Hm.
Qed.

Lemma can_edit_after_join db u invite project :
  p_ownerId project ≠ u →
  find_member db u (ic_projectId invite) = None →
  can_edit (JoinProofs.after_join db u invite) u (ic_projectId invite) project
  = String.eqb (ic_role invite) "editor".
Proof.
  intros Ho Hm. unfold can_edit. apply String.eqb_neq in Ho. rewrite Ho.
  cbn [JoinProofs.after_join members orb]. rewrite existsb_app.
  rewrite (no_member_no_editor _ _ _ Hm). cbn.
  by rewrite !String.eqb_refl, orb_false_r.
Qed.

(** A granted join lets the caller read the project, whatever the role
    of the code, and lets the caller write it exactly when that role is
    [editor]. *)
Theorem join_grants_access now db req db' j :
  join now db req = (db', Success j) →
  ∃ u project,
    x_user_id req = Some u
    ∧ projects db' !! joined_project j = Some project
    ∧ (∃ ms,
         get_project db' (Some u) (joined_project j)
         = Success (mkProjectView (joined_project j) project (Some ms))
         ∧ mkProjectMember (joined_role j) u (joined_project j) ∈ ms)
    ∧ (∀ upd,
         (put_project db' (Some u) (joined_project j) upd).2
         = Success (apply_update project upd)
         ↔ joined_role j = "editor").
Proof.
  intros Hj.
  apply JoinProofs.join_success_inv in Hj
    as (u & c & invite & project & -> & Hu & _ & _ & _ & _ & Hp & Ho & Hm
        & _ & -> & ->).
  exists u, project. cbn [JoinProofs.request x_user_id joined_project joined_role].
  split; [done|].
  assert (projects (JoinProofs.after_join db u invite)
            !! ic_projectId invite = Some project) as Hp' by done.
  split; [done|]. apply String.eqb_neq in Hu. split.
  - eexists. unfold get_project. rewrite Hu, Hp'. split.
    + assert (can_view (JoinProofs.after_join db u invite) u
                (ic_projectId invite) project = true) as ->; [|done].
      unfold can_view. apply orb_true_iff. right.
      cbn [JoinProofs.after_join members]. rewrite existsb_app.
      apply orb_true_iff. right. cbn. by rewrite !String.eqb_refl.
    + unfold project_members. cbn [JoinProofs.after_join members].
      apply list_elem_of_In, filter_In. split.
      * apply in_or_app. right. by left.
      * cbn. apply String.eqb_refl.
  - intros upd. unfold put_project. rewrite Hu, Hp'.
    rewrite (can_edit_after_join _ _ _ _ Ho Hm).
    destruct (String.eqb_spec (ic_role invite) "editor") as [Hr|Hr]; cbn [snd].
    + done.
    + split; [discriminate|done].
Qed.

(** Bob joins with an editor code: he can read and write the project. *)
Lemma join_grants_access_witness :
  ∃ u project,
    x_user_id (JoinProofs.request "bob" "abcd2345") = Some u
    ∧ projects
        (JoinProofs.after_join
           (JoinProofs.db_with (JoinProofs.the_code None 0 None)) "bob"
           (JoinProofs.the_code None 0 None))
      !! joined_project (mkJoined "p1" "editor") = Some project
    ∧ (∃ ms,
         get_project
           (JoinProofs.after_join
              (JoinProofs.db_with (JoinProofs.the_code None 0 None)) "bob"
              (JoinProofs.the_code None 0 None))
           (Some u) (joined_project (mkJoined "p1" "editor"))
         = Success (mkProjectView (joined_project (mkJoined "p1" "editor"))
                      project (Some ms))
         ∧ mkProjectMember (joined_role (mkJoined "p1" "editor")) u
             (joined_project (mkJoined "p1" "editor")) ∈ ms)
    ∧ (∀ upd,
         (put_project
            (JoinProofs.after_join
               (JoinProofs.db_with (JoinProofs.the_code None 0 None)) "bob"
               (JoinProofs.the_code None 0 None))
            (Some u) (joined_project (mkJoined "p1" "editor")) upd).2
         = Success (apply_update project upd)
         ↔ joined_role (mkJoined "p1" "editor") = "editor").
Proof.
  apply (join_grants_access 0
           (JoinProofs.db_with (JoinProofs.the_code None 0 None))
           (JoinProofs.request "bob" "abcd2345")).
  vm_compute. reflexivity.
Defined.

(** *** Managing codes *)

(** A created code heads the owner's list of codes, and deleting it
    gives back the database as it was before the code was created. *)
Theorem invite_create_list_delete now draw new_id db uid projectId body
                                  db1 invite :
  create_invite now draw new_id db uid projectId body = (db1, Success invite) →
  (∃ rest,
     list_invites db uid projectId = Success rest
     ∧ list_invites db1 uid projectId = Success (invite :: rest))
  ∧ delete_invite db1 uid projectId (ic_id invite) = (db, Success ()).
Proof.
  unfold create_invite, list_invites, delete_invite.
  destruct uid as [userId|]; [|discriminate].
  destruct (String.eqb userId ""); [discriminate|].
  destruct (projects db !! projectId) as [project|] eqn:Hp; [|discriminate].
  destruct (String.eqb (p_ownerId project) userId) eqn:Ho; [|discriminate].
  cbn [negb].
  destruct (draw_code db draw 0 10) as [attempts c].
  destruct (10 <=? attempts)%nat; [discriminate|].
  destruct (existsb _ (invites db)) eqn:Hid; [discriminate|].
  intros [= <- <-]. cbn [projects invites ic_id ic_projectId users members].
  rewrite Hp, Ho. cbn [negb]. split.
  - eexists. split; [done|]. f_equal.
    rewrite List.filter_app, rev_app_distr. cbn [List.filter ic_projectId].
    by rewrite String.eqb_refl.
  - rewrite existsb_app. cbn [existsb ic_id ic_projectId].
    rewrite !String.eqb_refl, orb_true_r. cbn [andb orb].
    rewrite List.filter_app. cbn [List.filter ic_id ic_projectId].
    rewrite !String.eqb_refl. cbn [andb negb]. rewrite app_nil_r.
    assert (List.filter
              (fun i => negb (String.eqb (ic_id i) new_id
                              && String.eqb (ic_projectId i) projectId))
              (invites db) = invites db) as ->; [|by destruct db].
    induction (invites db) as [|i l IH]; [done|].
    cbn [existsb] in Hid. apply orb_false_iff in Hid as [Hi Hl].
    cbn [List.filter]. rewrite Hi. cbn [andb negb]. by rewrite (IH Hl).
Qed.

(** Alice creates a code and deletes it again. *)
Lemma invite_create_list_delete_witness :
  delete_invite
    (mkDB (list_to_set ["alice"; "bob"; "carol"]) {["p1" := JoinProofs.site]}
       []
       [JoinProofs.the_code None 0 None;
        mkInviteCode "inv2" "WXYZ6789" "viewer" None 0 None "p1" "alice"])
    (Some "alice") "p1"
    (ic_id (mkInviteCode "inv2" "WXYZ6789" "viewer" None 0 None "p1" "alice"))
  = (JoinProofs.db_with (JoinProofs.the_code None 0 None), Success ()).
Proof.
  destruct (invite_create_list_delete 0
              (fun k => match k with O => "ABCD2345" | _ => "WXYZ6789" end)
              "inv2" (JoinProofs.db_with (JoinProofs.the_code None 0 None))
              (Some "alice") "p1"
              (mkInviteBody (Some "viewer") (Some 0%Z) None)
              (mkDB (list_to_set ["alice"; "bob"; "carol"])
                 {["p1" := JoinProofs.site]} []
                 [JoinProofs.the_code None 0 None;
                  mkInviteCode "inv2" "WXYZ6789" "viewer" None 0 None "p1"
                    "alice"])
              (mkInviteCode "inv2" "WXYZ6789" "viewer" None 0 None "p1"
                 "alice")) as [_ Hdel].
  - vm_compute. reflexivity.
  - exact Hdel.
Defined.

End AccessProofs.

(* ================================================================== *)
(** ** Properties of save and upload                                  *)
(* ================================================================== *)

Module SessionProofs.
Import JS Session.

(** The record [saveProject] writes: the project, stamped with the time. *)
Definition stamped (now : Z) (project : TranslationProject) : TranslationProject :=
  mkTranslationProject (id project) (name project) (masterLanguage project)
    (targetLanguages project) (masterData project) (translations project) now.

Lemma saveProject_load now project db :
  loadProject (id project) (saveProject now project db) = Some (stamped now project).
Proof. unfold loadProject, saveProject. apply lookup_insert_eq. Qed.

Lemma saveProject_load_other now project db i :
  i ≠ id project →
  loadProject i (saveProject now project db) = loadProject i db.
Proof.
  intros H. unfold loadProject, saveProject. by apply lookup_insert_ne.
Qed.

(** A failed update leaves the shared store alone: the server either
    applies the update or answers with an error. *)
Lemma updateCloudProject_writes f w cloudId u db' :
  updateCloudProject f w cloudId u = Some db' →
  ∃ row, Cloud.projects (cloud w) !! cloudId = Some row
         ∧ Cloud.projects db' = <[cloudId := Cloud.apply_update row u]>
                                  (Cloud.projects (cloud w)).
Proof.
  unfold updateCloudProject, Cloud.put_project.
  repeat case_match; simplify_eq; try discriminate.
  intros [= <-]. eexists. split; [done|]. done.
Qed.



(** *** A concrete session *)

Definition shop : TranslationProject :=
  mkTranslationProject "local-1" "Shop" "en" ["de"]
    (VObj [("title", VStr "Shop")]) (VObj [("de", VObj [("title", VStr "Laden")])])
    100.

Definition shop_row : Cloud.Project :=
  Cloud.mkProject "Shop" "en" ["de"] (VObj [("title", VStr "Shop")])
    (VObj [("de", VObj [])]) "alice".

Definition shared_db : Cloud.DB :=
  Cloud.mkDB (list_to_set ["alice"; "bob"]) {["cloud-1" := shop_row]}
    [Cloud.mkProjectMember "viewer" "bob" "cloud-1"] [].





Definition no_faults : Faults := mkFaults false false.


(** C8: without an identity profile (no e-mail in the browser profile),
    uploading an open local project is refused with the PromotionDenied
    notification and makes no storage call at all: the shared store gets
    no record and the local store keeps every record, so the project can
    still be loaded from it. *)
Theorem promote_denied_without_profile f new_id w s project :
  currentProject s = Some project →
  currentCloudProject s = None →
  hasUserProfile w = false →
  handleUploadToCloud f new_id w s = (w, notify PromotionDenied s, [])
  ∧ notification (handleUploadToCloud f new_id w s).1.2 = Some PromotionDenied
  ∧ cloud (handleUploadToCloud f new_id w s).1.1 = cloud w
  ∧ (∀ i, loadProject i (local (handleUploadToCloud f new_id w s).1.1)
          = loadProject i (local w)).
Proof.
  intros Hp Hc Hprofile.
  assert (handleUploadToCloud f new_id w s = (w, notify PromotionDenied s, []))
    as ->.
  { unfold handleUploadToCloud. by rewrite Hp, Hc, Hprofile. }
  done.
Qed.

(** Alice has a local project open and has not set up a profile. *)
Definition alice_world : World :=
  mkWorld {["local-1" := shop]} "alice" None shared_db.

Definition alice_state : State :=
  mkState (Some shop) None viewer false false None None [shop] [].

Lemma promote_denied_without_profile_witness :
  handleUploadToCloud no_faults "cloud-2" alice_world alice_state
  = (alice_world, notify PromotionDenied alice_state, [])
  ∧ loadProject "local-1"
      (local (handleUploadToCloud no_faults "cloud-2" alice_world alice_state).1.1)
    = Some shop.
Proof.
  destruct (promote_denied_without_profile no_faults "cloud-2" alice_world
              alice_state shop) as (Hdenied & _ & _ & Hload);
    [reflexivity | reflexivity | reflexivity |].
  split; [exact Hdenied|].
  rewrite Hload. vm_compute. reflexivity.
Defined.

(** With a profile, the same upload creates the shared record and
    deletes the local one. *)
Lemma promote_with_profile :
  let w := mkWorld {["local-1" := shop]} "alice" (Some "alice@example.org")
                   shared_db in
  let r := handleUploadToCloud no_faults "cloud-2" w alice_state in
  loadProject "local-1" (local r.1.1) = None
  ∧ (Cloud.p_ownerId <$> Cloud.projects (cloud r.1.1) !! "cloud-2") = Some "alice"
  ∧ currentCloudProject r.1.2
    = Some ("cloud-2", Cloud.mkProject "Shop" "en" ["de"]
                         (masterData shop) (translations shop) "alice")
  ∧ cloudProjectRole r.1.2 = owner.
Proof. vm_compute. repeat split. Qed.

End SessionProofs.

(* ================================================================== *)
(** ** Properties of the key-path functions                           *)
(* ================================================================== *)

Module KeyPathProofs.
Import JS KeyPath.

(** *** Induction on values and on trees *)

(** Structural induction on values, with the hypothesis available for
    every value stored in an array or an object. *)
Lemma value_ind (P : value → Prop) :
  P VUndef → P VNull → (∀ b, P (VBool b)) → (∀ n, P (VNum n)) →
  (∀ s, P (VStr s)) → P VHole →
  (∀ es ps, Forall P es → Forall (fun kv => P kv.2) ps → P (VArr es ps)) →
  (∀ ps, Forall (fun kv => P kv.2) ps → P (VObj ps)) →
  ∀ v, P v.
Proof.
  intros Hu Hn Hb Hz Hs Hh Ha Ho.
  fix IH 1. intros [| |b|n|s| |es ps|ps].
  - exact Hu.
  - exact Hn.
  - apply Hb.
  - apply Hz.
  - apply Hs.
  - exact Hh.
  - apply Ha.
    + induction es as [|e es IHes]; constructor; [apply IH|exact IHes].
    + induction ps as [|[k v] ps IHps]; constructor; [apply IH|exact IHps].
  - apply Ho.
    induction ps as [|[k v] ps IHps]; constructor; [apply IH|exact IHps].
Qed.

Lemma KeyNode_ind (P : KeyNode → Prop) :
  (∀ n p leaf cs, Forall P cs → P (mkKeyNode n p leaf cs)) →
  ∀ node, P node.
Proof.
  intros H. fix IH 1. intros [n p leaf cs]. apply H.
  induction cs as [|c cs IHcs]; constructor; [apply IH|exact IHcs].
Qed.

(** *** Unfolding equations *)

Lemma flatten_object_cons prefix key v rest :
  flatten_object (VObj ((key, v) :: rest)) prefix
  = (if is_plain_object v then flatten_object v (join_key prefix key)
     else [join_key prefix key])
    ++ flatten_object (VObj rest) prefix.
Proof. reflexivity. Qed.

Lemma flatten_object_nil prefix : flatten_object (VObj []) prefix = [].
Proof. reflexivity. Qed.

Lemma flatten_object_app prefix ps qs :
  flatten_object (VObj (ps ++ qs)) prefix
  = flatten_object (VObj ps) prefix ++ flatten_object (VObj qs) prefix.
Proof.
  induction ps as [|[k v] ps IH]; [done|].
  rewrite <- app_comm_cons, !flatten_object_cons, IH. by rewrite app_assoc.
Qed.

(** *** C9: what [flattenKeys] does with a top-level non-object *)

(** The paths that [flattenKeys] gives for the element at index [i] of
    an array: none for an empty slot, the paths of the element under the
    index when the element is a plain object, the index otherwise. *)
Definition element_paths (prefix : string) (i : nat) (x : value)
  : list string :=
  match x with
  | VHole => []
  | _ =>
      if is_plain_object x
      then flatten_object x (join_key prefix (index_string i))
      else [join_key prefix (index_string i)]
  end.

(** An element that ends a path: present and not a plain object. *)
Definition leaf_element (x : value) : bool :=
  match x with
  | VHole => false
  | _ => negb (is_plain_object x)
  end.

Lemma array_elements_paths prefix es :
  ∀ n,
  (fix elems (es : list value) (i : nat) : list string :=
     match es with
     | [] => []
     | VHole :: rest => elems rest (S i)
     | value :: rest =>
         let fullKey := join_key prefix (index_string i) in
         (if is_plain_object value then flatten_object value fullKey
          else [fullKey]) ++ elems rest (S i)
     end) es n
  = concat (imap (fun i => element_paths prefix (n + i)) es).
Proof.
  induction es as [|x es IH]; intros n; [done|].
  rewrite imap_cons. cbn [concat]. rewrite Nat.add_0_r.
  rewrite (imap_ext _ (fun i => element_paths prefix (S n + i)))
    by (intros i y _; cbn; f_equal; lia).
  rewrite <- IH. by destruct x.
Qed.

Lemma flatten_object_arr es ps prefix :
  flatten_object (VArr es ps) prefix
  = concat (imap (element_paths prefix) es) ++ flatten_object (VObj ps) prefix.
Proof.
  cbn [flatten_object]. f_equal. apply (array_elements_paths prefix es 0).
Qed.

Lemma leaf_elements_paths prefix es :
  forallb leaf_element es = true →
  ∀ n,
  concat (imap (fun i => element_paths prefix (n + i)) es)
  = map (fun i => join_key prefix (index_string i)) (seq n (length es)).
Proof.
  induction es as [|x es IH]; intros Hleaf n; [done|].
  cbn [forallb] in Hleaf. apply andb_true_iff in Hleaf as [Hx Hes].
  rewrite imap_cons. cbn [concat length seq map]. rewrite Nat.add_0_r.
  rewrite (imap_ext _ (fun i => element_paths prefix (S n + i)))
    by (intros i y _; cbn; f_equal; lia).
  rewrite (IH Hes). unfold element_paths, leaf_element in *.
  destruct x; try discriminate; try reflexivity;
    by apply negb_true_iff in Hx as ->.
Qed.

(** C9 (amended): [flattenKeys] does not validate its argument and never
    fails with InvalidDocument.  On a top-level input that is not a plain
    object it throws a [TypeError] for [null] and [undefined], returns no
    path for a number or a boolean, the indices of the characters for a
    string, and paths over the indices for an array: for each index in
    ascending order, nothing when the slot is empty, the paths of the
    element under that index when it is a plain object and the index
    itself otherwise, followed by the paths of the other properties of
    the array; these are the indices from 0 on when the array has only
    elements and none of them is a plain object. *)
Theorem flattenKeys_non_object v prefix :
  is_plain_object v = false →
  flattenKeys v prefix ≠ Throw InvalidDocument
  ∧ match v with
    | VUndef | VHole | VNull => flattenKeys v prefix = Throw TypeError
    | VBool _ | VNum _ => flattenKeys v prefix = Ok []
    | VStr s =>
        flattenKeys v prefix
        = Ok (map (fun i => join_key prefix (index_string i))
                  (seq 0 (String.length s)))
    | VArr es ps =>
        flattenKeys v prefix
        = Ok (concat (imap (element_paths prefix) es)
              ++ flatten_object (VObj ps) prefix)
        ∧ (ps = [] → forallb leaf_element es = true →
           flattenKeys v prefix
           = Ok (map (fun i => join_key prefix (index_string i))
                     (seq 0 (length es))))
    | VObj _ => False
    end.
Proof.
  intros H. destruct v as [| | | | | |es ps|]; try discriminate;
    (split; [discriminate|]); try reflexivity.
  unfold flattenKeys. cbn [is_null is_undefined orb typeof js_type_eqb].
  rewrite flatten_object_arr. split; [done|].
  intros -> Hleaf. rewrite flatten_object_nil, app_nil_r.
  f_equal. exact (leaf_elements_paths prefix es Hleaf 0).
Qed.

Lemma flattenKeys_non_object_witness :
  flattenKeys (VNum 5) "" = Ok []
  ∧ flattenKeys (VStr "ab") "" = Ok ["0"; "1"]
  ∧ flattenKeys (VArr [VStr "a"; VObj [("x", VNull)]; VHole; VNum 3] []) ""
    = Ok ["0"; "1.x"; "3"]
  ∧ flattenKeys (VArr [VStr "a"; VArr [] []; VNull] []) ""
    = Ok ["0"; "1"; "2"].
Proof.
  split; [|split; [|split]].
  - exact (proj2 (flattenKeys_non_object (VNum 5) "" eq_refl)).
  - exact (proj2 (flattenKeys_non_object (VStr "ab") "" eq_refl)).
  - exact (proj1 (proj2 (flattenKeys_non_object
                           (VArr [VStr "a"; VObj [("x", VNull)]; VHole;
                                  VNum 3] []) "" eq_refl))).
  - exact (proj2 (proj2 (flattenKeys_non_object
                           (VArr [VStr "a"; VArr [] []; VNull] []) ""
                           eq_refl))
                 eq_refl eq_refl).
Defined.

(** C9, as stated, fails: a top-level number yields the empty list and a
    top-level array yields paths; neither fails, and the [TypeError] for
    [null] is not InvalidDocument. *)
Lemma flattenKeys_accepts_non_objects :
  is_plain_object (VNum 5) = false
  ∧ flattenKeys (VNum 5) "" = Ok []
  ∧ is_plain_object (VArr [VNum 1; VObj [("x", VNull)]] []) = false
  ∧ flattenKeys (VArr [VNum 1; VObj [("x", VNull)]] []) "" = Ok ["0"; "1.x"]
  ∧ flattenKeys VNull "" = Throw TypeError.
Proof. repeat split. Qed.

(** *** C7 and C2: [setValueByPath] through [null] *)

(** In an object whose property [part] holds [null], the repair branch is
    not taken ([typeof null] is ['object']) and the walk goes on from
    [null]: whatever follows throws. *)
Lemma set_walk_null_intermediate ps part rest last v :
  lookup_prop part ps = Some VNull →
  set_walk (VObj ps) (part :: rest) last v = Throw TypeError.
Proof.
  intros H. cbn [set_walk has_prop get_prop]. unfold read_prop. rewrite H.
  rewrite bool_decide_eq_true_2 by eauto. cbn. unfold read_prop.
  rewrite H. cbn. by destruct rest.
Qed.

(** C7, the failing case: [set] on a document whose intermediate segment
    is [null] throws a [TypeError] instead of repairing the segment; an
    array found as an intermediate is kept, and gets the property. *)
Theorem set_through_null_throws :
  setValueByPath (VObj [("a", VNull)]) "a.b" (VStr "x") = Throw TypeError
  ∧ setValueByPath (VObj [("a", VArr [VNum 1] [])]) "a.b" (VStr "x")
    = Ok (VObj [("a", VArr [VNum 1] [("b", VStr "x")])])
  ∧ getValueByPath (VObj [("a", VNull)]) "a.b" = VUndef
  ∧ setValueByPath (VObj [("a", VNum 1)]) "a.b" (VStr "x")
    = Ok (VObj [("a", VObj [("b", VStr "x")])]).
Proof. repeat split. Qed.

(** C2, the failing case: ["a.b"] is a path of [flatten(D)] for
    [D = {"a": null, "a.b": 1}], and [set(D, "a.b", v)] throws. *)
Theorem set_existing_path_throws :
  flattenKeys (VObj [("a", VNull); ("a.b", VNum 1)]) "" = Ok ["a"; "a.b"]
  ∧ setValueByPath (VObj [("a", VNull); ("a.b", VNum 1)]) "a.b" (VStr "x")
    = Throw TypeError.
Proof. repeat split. Qed.

(** *** Reading back what was written *)

Lemma lookup_replace_prop k v ps :
  is_Some (lookup_prop k ps) → lookup_prop k (replace_prop k v ps) = Some v.
Proof.
  induction ps as [|[k' v'] ps IH]; simpl.
  - by intros [? [=]].
  - destruct (String.eqb k' k) eqn:E; simpl; rewrite E; [done|apply IH].
Qed.

Lemma lookup_create_prop k v ps :
  lookup_prop k ps = None → lookup_prop k (create_prop k v ps) = Some v.
Proof.
  induction ps as [|[k' v'] ps IH]; simpl.
  - by rewrite String.eqb_refl.
  - destruct (String.eqb k' k) eqn:E; [done|]. intros H.
    destruct (key_le k' k); simpl.
    + rewrite E. by apply IH.
    + by rewrite String.eqb_refl.
Qed.

Lemma lookup_assign_prop k v ps : lookup_prop k (assign_prop k v ps) = Some v.
Proof.
  unfold assign_prop. destruct (lookup_prop k ps) eqn:E.
  - apply lookup_replace_prop. rewrite E. eauto.
  - by apply lookup_create_prop.
Qed.

Lemma lookup_prop_app k ps qs :
  lookup_prop k (ps ++ qs)
  = match lookup_prop k ps with Some v => Some v | None => lookup_prop k qs end.
Proof.
  induction ps as [|[k' v'] ps IH]; simpl; [done|].
  by destruct (String.eqb k' k).
Qed.

Lemma lookup_assign_extra k v ps : lookup_prop k (assign_extra k v ps) = Some v.
Proof.
  unfold assign_extra. destruct (lookup_prop k ps) eqn:E.
  - apply lookup_replace_prop. rewrite E. eauto.
  - rewrite lookup_prop_app, E. simpl. by rewrite String.eqb_refl.
Qed.

Lemma read_write_elem es i v :
  v ≠ VHole → read_elem (write_elem es i v) i = v.
Proof.
  intros Hv. unfold read_elem.
  assert (nth_error (write_elem es i v) i = Some v) as ->.
  { revert es. induction i as [|i IH]; intros [|e es]; simpl; auto. }
  by destruct v.
Qed.

Lemma get_set_prop o k v r :
  v ≠ VHole → set_prop o k v = Ok r → get_prop r k = v.
Proof.
  intros Hv. destruct o; simpl; try discriminate.
  - destruct (array_index k) eqn:E; intros [= <-]; simpl; rewrite E.
    + by apply read_write_elem.
    + unfold read_prop. by rewrite lookup_assign_extra.
  - intros [= <-]. simpl. unfold read_prop. by rewrite lookup_assign_prop.
Qed.

(** What an assignment returns is an object or an array. *)
Definition is_object (v : value) : Prop :=
  match v with VObj _ | VArr _ _ => True | _ => False end.

Lemma set_prop_is_object o k v r : set_prop o k v = Ok r → is_object r.
Proof.
  destruct o; simpl; try discriminate.
  - destruct (array_index k); by intros [= <-].
  - by intros [= <-].
Qed.

(** A sequence of steps that returns: its first step returned. *)
Ltac first_step x E :=
  lazymatch goal with
  | |- mbind _ ?m = Ok _ → _ =>
      destruct m as [x|] eqn:E; [cbn [mbind outcome_bind]|discriminate]
  end.

Lemma set_walk_is_object current parts last v r :
  set_walk current parts last v = Ok r → is_object r.
Proof.
  destruct parts as [|part rest]; cbn [set_walk].
  - apply set_prop_is_object.
  - first_step present Hp. first_step current' Hc. first_step next Hn.
    apply set_prop_is_object.
Qed.

Lemma is_object_not_hole v : is_object v → v ≠ VHole.
Proof. by destruct v. Qed.

Lemma get_walk_object v part rest :
  is_object v → get_walk v (part :: rest) = get_walk (get_prop v part) rest.
Proof. by destruct v. Qed.

Lemma get_after_set_walk parts : ∀ current last v r,
  v ≠ VHole →
  set_walk current parts last v = Ok r →
  get_walk r (parts ++ [last]) = v.
Proof.
  induction parts as [|part rest IH]; intros current last v r Hv; cbn [set_walk].
  - intros H. cbn [app].
    rewrite get_walk_object by (by eapply set_prop_is_object).
    by rewrite (get_set_prop _ _ _ _ Hv H).
  - first_step present Hp. first_step current' Hc. first_step next Hnext.
    intros H. rewrite <- app_comm_cons.
    rewrite get_walk_object by (by eapply set_prop_is_object).
    rewrite (get_set_prop _ _ _ _ (is_object_not_hole _
               (set_walk_is_object _ _ _ _ _ Hnext)) H).
    by eapply IH.
Qed.

Lemma split_not_nil p : split p ≠ [].
Proof.
  destruct p as [|c p]; simpl; [done|].
  destruct (Ascii.eqb c "."); [done|]. by destruct (split p).
Qed.

(** Whenever [setValueByPath] returns, [getValueByPath] on the result and
    the same path gives the value back. *)
Lemma get_after_set D p v r :
  v ≠ VHole → setValueByPath D p v = Ok r → getValueByPath r p = v.
Proof.
  intros Hv. unfold setValueByPath, getValueByPath.
  first_step copy Hr. intros H.
  rewrite (app_removelast_last EmptyString (split_not_nil p)).
  by eapply get_after_set_walk.
Qed.

(** *** Documents that flatten without loss *)

Fixpoint has_dot (s : string) : bool :=
  match s with
  | EmptyString => false
  | String c rest => Ascii.eqb c "." || has_dot rest
  end.

(** A key that can be a segment of a dotted path: not empty, no dot.  The
    key [__proto__] is left out as well: on an object that does not own
    it, reading and assigning it reach the prototype, which is not
    modelled. *)
Definition segment (k : string) : bool :=
  negb (String.eqb k "") && negb (has_dot k)
  && negb (String.eqb k "__proto__").

Definition keys (ps : list (string * value)) : list string := map fst ps.

Fixpoint distinct (ks : list string) : bool :=
  match ks with
  | [] => true
  | k :: rest => negb (existsb (String.eqb k) rest) && distinct rest
  end.

(** The keys are in the order in which [Object.keys] reports them. *)
Fixpoint in_key_order (ks : list string) : bool :=
  match ks with
  | [] => true
  | k :: rest => forallb (key_le k) rest && in_key_order rest
  end.

Definition good_keys (ps : list (string * value)) : bool :=
  forallb segment (keys ps) && distinct (keys ps) && in_key_order (keys ps).

(** A value that [JSON.parse(JSON.stringify(v))] gives back unchanged. *)
Fixpoint json_pure (v : value) : bool :=
  match v with
  | VUndef | VHole => false
  | VNull | VBool _ | VNum _ | VStr _ => true
  | VArr es ps =>
      match ps with [] => true | _ => false end
      && (fix all (es : list value) : bool :=
            match es with
            | [] => true
            | x :: rest => json_pure x && all rest
            end) es
  | VObj ps =>
      (fix all (ps : list (string * value)) : bool :=
         match ps with
         | [] => true
         | (_, x) :: rest => json_pure x && all rest
         end) ps
  end.

(** A value stored under a key of such a document: a JSON leaf (scalar,
    [null] or array), or a nested object that is not empty, has good keys
    and stores such values again. *)
Fixpoint nested_ok (v : value) : bool :=
  match v with
  | VObj ps =>
      match ps with [] => false | _ => true end
      && good_keys ps
      && (fix all (ps : list (string * value)) : bool :=
            match ps with
            | [] => true
            | (_, x) :: rest => nested_ok x && all rest
            end) ps
  | _ => json_pure v
  end.

Definition values_ok (ps : list (string * value)) : bool :=
  forallb (fun kv => nested_ok kv.2) ps.

(** The documents of the amended claim C3. *)
Definition document (D : value) : bool :=
  match D with
  | VObj ps => good_keys ps && values_ok ps
  | _ => false
  end.

Lemma nested_ok_obj ps :
  nested_ok (VObj ps)
  = match ps with [] => false | _ => true end && good_keys ps && values_ok ps.
Proof.
  cbn [nested_ok]. f_equal. unfold values_ok.
  induction ps as [|[k x] ps IH]; [done|]. cbn [forallb snd]. by rewrite IH.
Qed.

Lemma json_pure_obj ps :
  json_pure (VObj ps) = forallb (fun kv => json_pure kv.2) ps.
Proof.
  cbn [json_pure]. induction ps as [|[k x] ps IH]; [done|].
  cbn [forallb snd]. by rewrite IH.
Qed.

Lemma json_pure_arr es ps :
  json_pure (VArr es ps)
  = match ps with [] => true | _ => false end && forallb json_pure es.
Proof.
  reflexivity.
Qed.

Lemma json_pure_defined v : json_pure v = true → is_undefined v = false.
Proof. by destruct v. Qed.

Lemma json_copy_pure v : json_pure v = true → json_copy v = v.
Proof.
  induction v as [| | | | | |es ps IHes _|ps IH] using value_ind; try done.
  - rewrite json_pure_arr. intros [Hps Hes]%andb_true_iff.
    destruct ps; [|done]. cbn [json_copy]. f_equal.
    induction IHes as [|x es Hx _ IHes']; [done|].
    cbn [forallb] in Hes. apply andb_true_iff in Hes as [H1 H2].
    rewrite (json_pure_defined _ H1), (Hx H1). f_equal. by apply IHes'.
  - rewrite json_pure_obj. intros H. cbn [json_copy]. f_equal.
    induction IH as [|[k x] ps Hx _ IHps]; [done|].
    cbn [forallb snd] in H. apply andb_true_iff in H as [H1 H2].
    cbn [snd] in Hx.
    rewrite (json_pure_defined _ H1), (Hx H1). f_equal. by apply IHps.
Qed.

Lemma nested_ok_pure v : nested_ok v = true → json_pure v = true.
Proof.
  induction v as [| | | | | |es ps _ _|ps IH] using value_ind; try done.
  rewrite nested_ok_obj, json_pure_obj.
  intros [[_ _]%andb_true_iff Hv]%andb_true_iff. unfold values_ok in Hv.
  induction IH as [|[k x] ps Hx _ IHps]; [done|].
  cbn [forallb snd] in *. apply andb_true_iff in Hv as [H1 H2].
  rewrite (Hx H1). by apply IHps.
Qed.

Lemma values_ok_pure ps :
  values_ok ps = true → forallb (fun kv => json_pure kv.2) ps = true.
Proof.
  unfold values_ok. induction ps as [|[k x] ps IH]; [done|].
  cbn [forallb snd]. intros [H1 H2]%andb_true_iff.
  by rewrite (nested_ok_pure _ H1), IH.
Qed.

(** *** Where [setValueByPath] and [getValueByPath] do as specified *)

Lemma get_walk_undefined parts : get_walk VUndef parts = VUndef.
Proof. by destruct parts. Qed.

(** [get] through a missing key, [null] or a primitive is [undefined]. *)
Lemma get_walk_missing ps part rest :
  lookup_prop part ps = None → get_walk (VObj ps) (part :: rest) = VUndef.
Proof.
  intros H. cbn [get_walk is_null is_undefined typeof js_type_eqb negb orb
                 get_prop].
  unfold read_prop. rewrite H. apply get_walk_undefined.
Qed.

Lemma get_walk_primitive v part rest :
  ¬ is_object v → get_walk v (part :: rest) = VUndef.
Proof. destruct v; cbn; try done; intros H; by destruct H. Qed.

(** No [null] anywhere in the value. *)
Fixpoint null_free (v : value) : bool :=
  match v with
  | VNull => false
  | VArr es ps =>
      (fix all (es : list value) : bool :=
         match es with
         | [] => true
         | x :: rest => null_free x && all rest
         end) es
      && (fix all (ps : list (string * value)) : bool :=
            match ps with
            | [] => true
            | (_, x) :: rest => null_free x && all rest
            end) ps
  | VObj ps =>
      (fix all (ps : list (string * value)) : bool :=
         match ps with
         | [] => true
         | (_, x) :: rest => null_free x && all rest
         end) ps
  | _ => true
  end.

Lemma null_free_lookup k ps x :
  (fix all (ps : list (string * value)) : bool :=
     match ps with
     | [] => true
     | (_, x) :: rest => null_free x && all rest
     end) ps = true →
  lookup_prop k ps = Some x → null_free x = true.
Proof.
  induction ps as [|[k' y] ps IH]; [done|]. cbn [lookup_prop].
  intros [H1 H2]%andb_true_iff. destruct (String.eqb k' k).
  - by intros [= <-].
  - by apply IH.
Qed.

Lemma null_free_read_prop k ps :
  (fix all (ps : list (string * value)) : bool :=
     match ps with
     | [] => true
     | (_, x) :: rest => null_free x && all rest
     end) ps = true →
  null_free (read_prop k ps) = true.
Proof.
  intros H. unfold read_prop. destruct (lookup_prop k ps) eqn:E; [|done].
  by eapply null_free_lookup.
Qed.

Lemma null_free_get_prop v k :
  null_free v = true → null_free (get_prop v k) = true.
Proof.
  destruct v as [| | | |s| |es ps|ps]; try done; cbn [null_free get_prop].
  - destruct (array_index k); [|done]. unfold char_at.
    by destruct (String.get _ s).
  - intros [Hes Hps]%andb_true_iff. destruct (array_index k) as [i|].
    + unfold read_elem. generalize (N.to_nat i). clear i.
      induction es as [|e es IH]; intros [|i]; cbn [nth_error]; try done;
        apply andb_true_iff in Hes as [He Hes'].
      * by destruct e.
      * by apply IH.
    + by apply null_free_read_prop.
  - apply null_free_read_prop.
Qed.

Lemma typeof_object_cases v :
  typeof v = TObject → null_free v = true → is_object v.
Proof. by destruct v. Qed.

(** On an object or array without [null], the walk of [setValueByPath]
    returns. *)
Lemma set_walk_returns parts : ∀ current last v,
  is_object current → null_free current = true →
  ∃ r, set_walk current parts last v = Ok r.
Proof.
  induction parts as [|part rest IH]; intros current last v Hobj Hnull;
    cbn [set_walk].
  - destruct current; try done; cbn [set_prop]; [destruct (array_index _)|];
      eauto.
  - assert (∃ present, has_prop current part = Ok present) as [present ->].
    { destruct current; try done; cbn [has_prop]; [destruct (array_index _)|];
        eauto. }
    cbn [mbind outcome_bind].
    destruct (negb present
              || negb (js_type_eqb (typeof (get_prop current part)) TObject))
      eqn:Hrepair.
    + assert (∃ c, set_prop current part (VObj []) = Ok c) as [c Hc].
      { destruct current; try done; cbn [set_prop];
          [destruct (array_index _)|]; eauto. }
      rewrite Hc. cbn [mbind outcome_bind].
      assert (VObj [] ≠ VHole) as Hobj' by discriminate.
      rewrite (get_set_prop _ _ _ _ Hobj' Hc).
      destruct (IH (VObj []) last v I eq_refl) as [next ->].
      cbn [mbind outcome_bind].
      pose proof (set_prop_is_object _ _ _ _ Hc).
      destruct c; try done; cbn [set_prop]; [destruct (array_index _)|]; eauto.
    + cbn [mbind outcome_bind].
      apply orb_false_iff in Hrepair as [_ Hty].
      apply negb_false_iff in Hty.
      assert (typeof (get_prop current part) = TObject) as Hty'
        by (by destruct (typeof (get_prop current part))).
      destruct (IH (get_prop current part) last v) as [next ->].
      * apply typeof_object_cases; [done|]. by apply null_free_get_prop.
      * by apply null_free_get_prop.
      * cbn [mbind outcome_bind].
        destruct current; try done; cbn [set_prop];
          [destruct (array_index _)|]; eauto.
Qed.

(** On a JSON object or array that holds no [null], [setValueByPath]
    returns for every value and for every path none of whose segments
    is a name the prototypes define (a member of [Object.prototype] or
    [Array.prototype], [__proto__] and [length] among them), and
    [getValueByPath] reads the value back.  For such a path the walk
    meets own properties only, which is what the embedding covers. *)
Lemma set_get_without_null D p v :
  is_object D → json_pure D = true → null_free D = true → v ≠ VHole →
  own_path p = true →
  ∃ r, setValueByPath D p v = Ok r ∧ getValueByPath r p = v.
Proof.
  intros Hobj Hpure Hnull Hv _.
  destruct (set_walk_returns (removelast (split p)) D
              (List.last (split p) EmptyString) v Hobj Hnull) as [r Hr].
  assert (setValueByPath D p v = Ok r) as Hset.
  { unfold setValueByPath, JSON_parse_stringify.
    rewrite (json_pure_defined _ Hpure). cbn [mbind outcome_bind].
    by rewrite json_copy_pure. }
  exists r. split; [done|]. by eapply get_after_set.
Qed.

(** A new key is set under an existing folder and read back. *)
Lemma set_get_without_null_witness :
  ∃ r, setValueByPath (VObj [("a", VObj [("b", VNum 1)])]) "a.c" (VStr "x")
       = Ok r
       ∧ getValueByPath r "a.c" = VStr "x".
Proof.
  apply set_get_without_null.
  - vm_compute. reflexivity.
  - reflexivity.
  - reflexivity.
  - discriminate.
  - reflexivity.
Defined.

(** *** Paths as lists of segments *)

(** The paths of [flatten_object], before their segments are joined. *)
Fixpoint flat_parts (obj : value) : list (list string) :=
  match obj with
  | VObj ps =>
      (fix props (ps : list (string * value)) : list (list string) :=
         match ps with
         | [] => []
         | (key, v) :: rest =>
             (if is_plain_object v then map (cons key) (flat_parts v)
              else [[key]]) ++ props rest
         end) ps
  | _ => []
  end.

Definition join_parts (prefix : string) (parts : list string) : string :=
  fold_left join_key parts prefix.

Lemma flat_parts_cons key v rest :
  flat_parts (VObj ((key, v) :: rest))
  = (if is_plain_object v then map (cons key) (flat_parts v) else [[key]])
    ++ flat_parts (VObj rest).
Proof. reflexivity. Qed.

Lemma is_plain_object_obj v :
  is_plain_object v = true → ∃ ps, v = VObj ps.
Proof. destruct v; try discriminate. eauto. Qed.

Lemma flatten_object_parts v :
  ∀ prefix, flatten_object v prefix
            = map (join_parts prefix) (flat_parts v)
  ∨ is_plain_object v = false.
Proof.
  induction v as [| | | | | |es ps _ _|ps IH] using value_ind;
    intros prefix; try (by right).
  left. induction IH as [|[k x] ps Hx _ IHps]; [done|].
  rewrite flatten_object_cons, flat_parts_cons, map_app, IHps. f_equal.
  destruct (is_plain_object x) eqn:E; [|done]. cbn [snd] in Hx.
  destruct (Hx (join_key prefix k)) as [->|H]; [|congruence].
  by rewrite map_map.
Qed.

Lemma flatten_object_obj_parts ps prefix :
  flatten_object (VObj ps) prefix
  = map (join_parts prefix) (flat_parts (VObj ps)).
Proof. by destruct (flatten_object_parts (VObj ps) prefix). Qed.

(** *** Splitting a joined path *)

Lemma split_no_dot k : has_dot k = false → split k = [k].
Proof.
  induction k as [|c k IH]; [done|]. cbn [has_dot split].
  intros [Hc Hk]%orb_false_iff. rewrite Hc, (IH Hk). done.
Qed.

Lemma split_dot_append s1 s2 :
  split (s1 +:+ "." +:+ s2) = split s1 ++ split s2.
Proof.
  induction s1 as [|c s1 IH]; [done|].
  simpl. rewrite IH.
  destruct (Ascii.eqb c "."); [done|].
  pose proof (split_not_nil s1). by destruct (split s1).
Qed.

Lemma append_not_empty s1 s2 : s1 ≠ "" → s1 +:+ s2 ≠ "".
Proof. by destruct s1. Qed.

Lemma segment_inv k : segment k = true → k ≠ "" ∧ has_dot k = false.
Proof.
  unfold segment. intros [[H1 H2]%andb_true_iff _]%andb_true_iff. split.
  - apply String.eqb_neq. by apply negb_true_iff.
  - by apply negb_true_iff.
Qed.

Lemma join_key_dotted prefix k :
  prefix ≠ "" → join_key prefix k = prefix +:+ "." +:+ k.
Proof. intros H. unfold join_key. by apply String.eqb_neq in H as ->. Qed.

Lemma split_join_from prefix pre parts :
  prefix ≠ "" → split prefix = pre → forallb segment parts = true →
  split (join_parts prefix parts) = pre ++ parts.
Proof.
  revert prefix pre. induction parts as [|k parts IH]; intros prefix pre Hne Hpre.
  - intros _. by rewrite app_nil_r.
  - cbn [forallb]. intros [Hk Hparts]%andb_true_iff.
    apply segment_inv in Hk as [_ Hk]. cbn [join_parts fold_left].
    fold (join_parts (join_key prefix k) parts).
    rewrite (IH _ (pre ++ [k])); [by rewrite <- app_assoc| | |done].
    + rewrite join_key_dotted by done. by apply append_not_empty.
    + rewrite join_key_dotted by done.
      by rewrite split_dot_append, Hpre, split_no_dot.
Qed.

(** A list of segments is what [split] finds in its joined form. *)
Lemma split_join parts :
  parts ≠ [] → forallb segment parts = true →
  split (join_parts "" parts) = parts.
Proof.
  destruct parts as [|k parts]; [done|]. intros _.
  cbn [forallb]. intros [Hk Hparts]%andb_true_iff.
  apply segment_inv in Hk as [Hne Hk]. cbn [join_parts fold_left].
  change (join_key "" k) with k. fold (join_parts k parts).
  by rewrite (split_join_from k [k]); [|done|apply split_no_dot|].
Qed.

Lemma flat_parts_not_nil v parts : parts ∈ flat_parts v → parts ≠ [].
Proof.
  revert parts.
  induction v as [| | | | | |es ps _ _|ps IH] using value_ind;
    intros parts; try (by intros ?%elem_of_nil).
  induction IH as [|[k x] ps Hx _ IHps]; [by intros ?%elem_of_nil|].
  rewrite flat_parts_cons. intros [H|H]%elem_of_app; [|by apply IHps].
  destruct (is_plain_object x).
  - by apply list_elem_of_fmap in H as (q & -> & _).
  - by apply list_elem_of_singleton in H as ->.
Qed.

Lemma good_keys_cons k x ps :
  good_keys ((k, x) :: ps) = true → segment k = true ∧ good_keys ps = true.
Proof.
  unfold good_keys. cbn [keys map fst forallb distinct in_key_order].
  intros [[[H1 H2]%andb_true_iff [H3 H4]%andb_true_iff]%andb_true_iff
          [H5 H6]%andb_true_iff]%andb_true_iff.
  split; [done|]. unfold keys. by rewrite H2, H4, H6.
Qed.

(** In a document every path of [flat_parts] consists of segments. *)
Lemma flat_parts_segments v :
  (∀ ps, v = VObj ps → good_keys ps = true → values_ok ps = true →
         ∀ parts, parts ∈ flat_parts v → forallb segment parts = true).
Proof.
  induction v as [| | | | | |es ps _ _|ps IH] using value_ind;
    try discriminate.
  intros ? [= <-]. induction IH as [|[k x] ps Hx _ IHps];
    [by intros _ _ parts ?%elem_of_nil|].
  intros [Hk Hg]%good_keys_cons. unfold values_ok. cbn [forallb snd].
  intros [Hok Hv]%andb_true_iff parts. rewrite flat_parts_cons.
  intros [H|H]%elem_of_app; [|by apply IHps].
  destruct (is_plain_object x) eqn:E.
  - apply list_elem_of_fmap in H as (q & -> & Hq). cbn [forallb]. rewrite Hk.
    destruct (is_plain_object_obj _ E) as [sub ->].
    rewrite nested_ok_obj in Hok.
    apply andb_true_iff in Hok as [[_ Hg']%andb_true_iff Hv'].
    cbn [snd] in Hx. by apply (Hx sub).
  - apply list_elem_of_singleton in H as ->. cbn [forallb]. by rewrite Hk.
Qed.

Lemma fold_left_map_ext {A B C : Type} (f : A → B → A) (g : A → C → A)
      (h : C → B) (l : list C) :
  (∀ x, x ∈ l → ∀ a, f a (h x) = g a x) →
  ∀ a, fold_left f (map h l) a = fold_left g l a.
Proof.
  induction l as [|x l IH]; intros H a; [done|]. cbn [map fold_left].
  rewrite H by apply list_elem_of_here. apply IH.
  intros y Hy. apply H. by apply list_elem_of_further.
Qed.

(** On a document, [buildKeyTree] sees the paths of [flat_parts]. *)
Lemma buildKeyTree_parts ps :
  good_keys ps = true → values_ok ps = true →
  buildKeyTree (flatten_object (VObj ps) "")
  = fold_left (fun root parts => insert_parts root "" parts)
              (flat_parts (VObj ps)) [].
Proof.
  intros Hg Hv. unfold buildKeyTree. rewrite flatten_object_obj_parts.
  apply fold_left_map_ext. intros parts Hin root.
  rewrite split_join; [done|by eapply flat_parts_not_nil|].
  by eapply flat_parts_segments.
Qed.

(** *** The tree of a document *)

(** The tree that mirrors an object: one node per key, in order, a leaf
    for everything but a plain object. *)
Fixpoint tree_of (prefix : string) (v : value) : list KeyNode :=
  match v with
  | VObj ps =>
      (fix nodes (ps : list (string * value)) : list KeyNode :=
         match ps with
         | [] => []
         | (k, x) :: rest =>
             mkKeyNode k (join_key prefix k) (negb (is_plain_object x))
                       (tree_of (join_key prefix k) x)
               :: nodes rest
         end) ps
  | _ => []
  end.

Lemma tree_of_cons prefix k x rest :
  tree_of prefix (VObj ((k, x) :: rest))
  = mkKeyNode k (join_key prefix k) (negb (is_plain_object x))
              (tree_of (join_key prefix k) x)
      :: tree_of prefix (VObj rest).
Proof. reflexivity. Qed.

Lemma tree_of_app prefix ps qs :
  tree_of prefix (VObj (ps ++ qs))
  = tree_of prefix (VObj ps) ++ tree_of prefix (VObj qs).
Proof.
  induction ps as [|[k x] ps IH]; [done|].
  by rewrite <- !app_comm_cons, !tree_of_cons, IH.
Qed.

Lemma tree_of_names prefix ps :
  map name (tree_of prefix (VObj ps)) = keys ps.
Proof.
  induction ps as [|[k x] ps IH]; [done|].
  rewrite tree_of_cons. cbn [map name keys fst]. by rewrite IH.
Qed.

Lemma tree_of_leaf prefix x : is_plain_object x = false → tree_of prefix x = [].
Proof. by destruct x. Qed.

(** The leaves of the mirror tree, in order, are the flattened paths:
    this holds for every object. *)
Lemma tree_of_leaf_paths v :
  ∀ prefix, tree_leaf_paths (tree_of prefix v)
            = match v with VObj _ => flatten_object v prefix | _ => [] end.
Proof.
  induction v as [| | | | | |es ps _ _|ps IH] using value_ind;
    intros prefix; try done.
  induction IH as [|[k x] ps Hx _ IHps]; [done|].
  rewrite tree_of_cons, flatten_object_cons. unfold tree_leaf_paths in *.
  cbn [map concat]. rewrite IHps. f_equal. cbn [snd] in Hx.
  destruct x as [| | | | | |es' ps'|ps']; try done.
  (* a nested object: its node is no leaf *)
  cbn [is_plain_object typeof js_type_eqb is_null isArray negb andb leaf_paths].
  rewrite <- (Hx (join_key prefix k)).
  generalize (tree_of (join_key prefix k) (VObj ps')).
  intros cs. induction cs as [|c cs IHcs]; [done|].
  cbn [map concat]. by rewrite IHcs.
Qed.

Lemma find_node_absent k level :
  k ∉ map name level → find_node k level = None.
Proof.
  unfold find_node. induction level as [|n level IH]; [done|].
  cbn [map List.find]. intros [Hn Hl]%not_elem_of_cons.
  destruct (String.eqb_spec (name n) k); [congruence|]. by apply IH.
Qed.

Lemma find_node_last k level n :
  k ∉ map name level → name n = k → find_node k (level ++ [n]) = Some n.
Proof.
  unfold find_node. intros Hk Hn.
  induction level as [|m level IH]; cbn [app map List.find].
  - by rewrite Hn, String.eqb_refl.
  - cbn [map] in Hk. apply not_elem_of_cons in Hk as [Hm Hl].
    destruct (String.eqb_spec (name m) k); [congruence|]. by apply IH.
Qed.

Lemma update_found_last k f level n :
  k ∉ map name level → name n = k →
  update_found k f (level ++ [n]) = level ++ [f n].
Proof.
  intros Hk Hn. induction level as [|m level IH]; cbn [app update_found].
  - by rewrite Hn, String.eqb_refl.
  - cbn [map] in Hk. apply not_elem_of_cons in Hk as [Hm Hl].
    destruct (String.eqb_spec (name m) k); [congruence|]. by rewrite IH.
Qed.

(** The first path under a new key creates its node. *)
Lemma insert_parts_new level prefix k q :
  k ∉ map name level →
  insert_parts level prefix (k :: q)
  = level ++ [mkKeyNode k (join_key prefix k) (is_last q)
                (if is_last q then []
                 else insert_parts [] (join_key prefix k) q)].
Proof. intros Hk. cbn [insert_parts]. by rewrite find_node_absent. Qed.

(** A further path under the key of the last node goes into its
    children. *)
Lemma insert_parts_again level prefix k p leaf cs q :
  k ∉ map name level → q ≠ [] →
  insert_parts (level ++ [mkKeyNode k p leaf cs]) prefix (k :: q)
  = level ++ [mkKeyNode k p leaf (insert_parts cs (join_key prefix k) q)].
Proof.
  intros Hk Hq. cbn [insert_parts].
  rewrite (find_node_last k level (mkKeyNode k p leaf cs) Hk eq_refl).
  destruct q as [|q1 q]; [done|]. cbn [is_last].
  by rewrite (update_found_last k _ level (mkKeyNode k p leaf cs) Hk eq_refl).
Qed.

Definition insert_all (prefix : string) (paths : list (list string))
                      (level : list KeyNode) : list KeyNode :=
  fold_left (fun root parts => insert_parts root prefix parts) paths level.

Lemma insert_all_again level prefix k p leaf paths :
  k ∉ map name level → Forall (fun q => q ≠ []) paths →
  ∀ cs, insert_all prefix (map (cons k) paths)
                   (level ++ [mkKeyNode k p leaf cs])
        = level ++ [mkKeyNode k p leaf
                      (insert_all (join_key prefix k) paths cs)].
Proof.
  intros Hk Hpaths. unfold insert_all.
  induction Hpaths as [|q paths Hq _ IH]; intros cs; [done|].
  cbn [map fold_left]. by rewrite insert_parts_again, IH.
Qed.

(** All the paths below a new key, the first of which creates the node. *)
Lemma insert_all_new level prefix k paths :
  k ∉ map name level → paths ≠ [] → Forall (fun q => q ≠ []) paths →
  insert_all prefix (map (cons k) paths) level
  = level ++ [mkKeyNode k (join_key prefix k) false
                (insert_all (join_key prefix k) paths [])].
Proof.
  intros Hk Hne Hpaths. destruct Hpaths as [|q paths Hq Hpaths]; [done|].
  unfold insert_all at 1. cbn [map fold_left].
  rewrite insert_parts_new by done. destruct q as [|q1 q]; [done|].
  cbn [is_last].
  exact (insert_all_again level prefix k _ false paths Hk Hpaths _).
Qed.

Lemma distinct_not_elem (k : string) ks :
  existsb (String.eqb k) ks = false → k ∉ ks.
Proof.
  induction ks as [|k' ks IH]; [intros _; apply not_elem_of_nil|].
  cbn [existsb]. intros [H1 H2]%orb_false_iff.
  apply not_elem_of_cons. split; [by apply String.eqb_neq|by apply IH].
Qed.

Lemma distinct_middle (ks1 : list string) k ks2 :
  distinct (ks1 ++ k :: ks2) = true → k ∉ ks1.
Proof.
  induction ks1 as [|k1 ks1 IH]; [intros _; apply not_elem_of_nil|].
  cbn [app distinct]. intros [H1 H2]%andb_true_iff.
  apply not_elem_of_cons. split; [|by apply IH].
  apply negb_true_iff, distinct_not_elem in H1.
  intros ->. apply H1, elem_of_app. right. apply list_elem_of_here.
Qed.

Lemma flat_parts_all_not_nil v : Forall (fun q => q ≠ []) (flat_parts v).
Proof. apply Forall_forall. intros q. apply flat_parts_not_nil. Qed.

(** A nested object of a document has at least one path. *)
Lemma flat_parts_nested v :
  is_plain_object v = true → nested_ok v = true → flat_parts v ≠ [].
Proof.
  induction v as [| | | | | |es ps _ _|ps IH] using value_ind; try done.
  intros _. rewrite nested_ok_obj.
  intros [[Hne _]%andb_true_iff Hv]%andb_true_iff.
  destruct IH as [|[k x] ps Hx _]; [done|].
  rewrite flat_parts_cons. unfold values_ok in Hv. cbn [forallb snd] in Hv, Hx.
  apply andb_true_iff in Hv as [Hok _].
  destruct (is_plain_object x) eqn:E; [|done].
  specialize (Hx eq_refl Hok). by destruct (flat_parts x).
Qed.

Lemma insert_all_app prefix l1 l2 level :
  insert_all prefix (l1 ++ l2) level
  = insert_all prefix l2 (insert_all prefix l1 level).
Proof. apply fold_left_app. Qed.

Lemma insert_all_one prefix parts level :
  insert_all prefix [parts] level = insert_parts level prefix parts.
Proof. reflexivity. Qed.

(** [buildKeyTree] on the paths of a document builds its mirror tree. *)
Lemma insert_all_tree v :
  ∀ ps, v = VObj ps →
  ∀ prefix acc, distinct (keys (acc ++ ps)) = true → values_ok ps = true →
    insert_all prefix (flat_parts (VObj ps)) (tree_of prefix (VObj acc))
    = tree_of prefix (VObj (acc ++ ps)).
Proof.
  induction v as [| | | | | |es ps' _ _|ps' IH] using value_ind;
    try discriminate.
  intros ps [= <-] prefix.
  induction IH as [|[k x] ps Hx _ IHps]; intros acc Hd Hv.
  - by rewrite app_nil_r.
  - unfold values_ok in Hv. cbn [forallb snd] in Hv, Hx.
    apply andb_true_iff in Hv as [Hok Hv].
    assert (k ∉ map name (tree_of prefix (VObj acc))) as Hk.
    { rewrite tree_of_names. unfold keys in Hd. rewrite map_app in Hd.
      by apply distinct_middle in Hd. }
    rewrite flat_parts_cons, insert_all_app.
    replace (acc ++ (k, x) :: ps) with ((acc ++ [(k, x)]) ++ ps)
      by (by rewrite <- app_assoc).
    rewrite <- IHps;
      [|by rewrite <- app_assoc|done].
    f_equal. rewrite tree_of_app, tree_of_cons.
    destruct (is_plain_object x) eqn:E.
    + rewrite insert_all_new;
        [|done|by apply flat_parts_nested|apply flat_parts_all_not_nil].
      destruct (is_plain_object_obj _ E) as [sub ->].
      rewrite nested_ok_obj in Hok.
      apply andb_true_iff in Hok as [[_ Hg]%andb_true_iff Hv'].
      unfold good_keys in Hg.
      apply andb_true_iff in Hg as [[_ Hd']%andb_true_iff _].
      specialize (Hx sub eq_refl (join_key prefix k) [] Hd' Hv').
      change (tree_of (join_key prefix k) (VObj [])) with (@nil KeyNode) in Hx.
      rewrite app_nil_l in Hx. by rewrite Hx.
    + rewrite insert_all_one, insert_parts_new by done. cbn [is_last negb].
      by rewrite (tree_of_leaf _ x E).
Qed.

(** The tree of a document is its mirror tree, and the leaf paths of the
    tree are the flattened paths, in order. *)
Lemma buildKeyTree_document ps :
  good_keys ps = true → values_ok ps = true →
  buildKeyTree (flatten_object (VObj ps) "") = tree_of "" (VObj ps).
Proof.
  intros Hg Hv. rewrite buildKeyTree_parts by done.
  apply (insert_all_tree (VObj ps) ps eq_refl "" []); [|done].
  unfold good_keys in Hg.
  by apply andb_true_iff in Hg as [[_ ?]%andb_true_iff _].
Qed.

(** *** Re-deriving a document from its leaves *)

(** The paths of [flat_parts], each with the value it leads to. *)
Fixpoint items (obj : value) : list (list string * value) :=
  match obj with
  | VObj ps =>
      (fix props (ps : list (string * value)) : list (list string * value) :=
         match ps with
         | [] => []
         | (key, v) :: rest =>
             (if is_plain_object v
              then map (fun it => (key :: it.1, it.2)) (items v)
              else [([key], v)]) ++ props rest
         end) ps
  | _ => []
  end.

Lemma items_cons key v rest :
  items (VObj ((key, v) :: rest))
  = (if is_plain_object v then map (fun it => (key :: it.1, it.2)) (items v)
     else [([key], v)])
    ++ items (VObj rest).
Proof. reflexivity. Qed.

Lemma items_parts v : map fst (items v) = flat_parts v.
Proof.
  induction v as [| | | | | |es ps _ _|ps IH] using value_ind; try done.
  induction IH as [|[k x] ps Hx _ IHps]; [done|].
  rewrite items_cons, flat_parts_cons, map_app, IHps. f_equal.
  destruct (is_plain_object x); [|done]. cbn [snd] in Hx.
  rewrite <- Hx, !map_map. done.
Qed.

Lemma lookup_prop_absent k ps : k ∉ keys ps → lookup_prop k ps = None.
Proof.
  induction ps as [|[k' x] ps IH]; [done|]. cbn [keys map fst lookup_prop].
  intros [H1 H2]%not_elem_of_cons.
  destruct (String.eqb_spec k' k); [congruence|]. by apply IH.
Qed.

Lemma lookup_prop_middle k x acc ps :
  k ∉ keys acc → lookup_prop k (acc ++ (k, x) :: ps) = Some x.
Proof.
  intros Hk. rewrite lookup_prop_app, (lookup_prop_absent _ _ Hk).
  cbn [lookup_prop]. by rewrite String.eqb_refl.
Qed.

Lemma good_keys_distinct ps : good_keys ps = true → distinct (keys ps) = true.
Proof.
  unfold good_keys. by intros [[_ ?]%andb_true_iff _]%andb_true_iff.
Qed.

Lemma good_keys_order ps : good_keys ps = true → in_key_order (keys ps) = true.
Proof. unfold good_keys. by intros [_ ?]%andb_true_iff. Qed.

Lemma keys_middle acc k (x : value) ps :
  keys (acc ++ (k, x) :: ps) = keys acc ++ k :: keys ps.
Proof. unfold keys. by rewrite map_app. Qed.

(** In a document, reading a path of [items] gives its value. *)
Lemma items_get v :
  ∀ ps, v = VObj ps →
  ∀ acc, distinct (keys (acc ++ ps)) = true → values_ok ps = true →
  ∀ it, it ∈ items (VObj ps) → get_walk (VObj (acc ++ ps)) it.1 = it.2.
Proof.
  induction v as [| | | | | |es ps' _ _|ps' IH] using value_ind;
    try discriminate.
  intros ps [= <-].
  induction IH as [|[k x] ps Hx _ IHps]; intros acc Hd Hv it;
    [by intros ?%elem_of_nil|].
  unfold values_ok in Hv. cbn [forallb snd] in Hv, Hx.
  apply andb_true_iff in Hv as [Hok Hv].
  rewrite items_cons. intros [H|H]%elem_of_app.
  - assert (k ∉ keys acc) as Hk
      by (rewrite keys_middle in Hd; by apply distinct_middle in Hd).
    destruct (is_plain_object x) eqn:E.
    + apply list_elem_of_fmap in H as ([q lv] & -> & Hq). cbn [fst snd].
      cbn [get_walk is_null is_undefined typeof js_type_eqb negb orb get_prop].
      unfold read_prop.
      rewrite lookup_prop_middle by done.
      destruct (is_plain_object_obj _ E) as [sub ->].
      rewrite nested_ok_obj in Hok.
      apply andb_true_iff in Hok as [[_ Hg]%andb_true_iff Hv'].
      exact (Hx sub eq_refl [] (good_keys_distinct _ Hg) Hv' (q, lv) Hq).
    + apply list_elem_of_singleton in H as ->. cbn [fst snd].
      cbn [get_walk is_null is_undefined typeof js_type_eqb negb orb get_prop].
      unfold read_prop.
      by rewrite lookup_prop_middle.
  - replace (acc ++ (k, x) :: ps) with ((acc ++ [(k, x)]) ++ ps)
      by (by rewrite <- app_assoc).
    apply IHps; [by rewrite <- app_assoc|done|done].
Qed.

(** One step of [rebuild], on the segments of the path. *)
Definition set_parts (doc : value) (parts : list string) (v : value)
  : outcome value :=
  copy ← JSON_parse_stringify doc;
  set_walk copy (removelast parts) (List.last parts EmptyString) v.

Definition step (acc : outcome value) (it : list string * value)
  : outcome value :=
  doc ← acc; set_parts doc it.1 it.2.

Definition fill (its : list (list string * value)) (acc : outcome value)
  : outcome value :=
  fold_left step its acc.

Lemma fill_app its1 its2 acc :
  fill (its1 ++ its2) acc = fill its2 (fill its1 acc).
Proof. apply fold_left_app. Qed.

Lemma fill_cons it its acc : fill (it :: its) acc = fill its (step acc it).
Proof. reflexivity. Qed.

(** On a document, [rebuild] from the flattened paths is [fill] on the
    items. *)
Lemma rebuild_items ps :
  good_keys ps = true → values_ok ps = true →
  rebuild (VObj ps) (flatten_object (VObj ps) "")
  = fill (items (VObj ps)) (Ok (VObj [])).
Proof.
  intros Hg Hv. unfold rebuild, fill.
  rewrite flatten_object_obj_parts, <- items_parts, map_map.
  apply fold_left_map_ext. intros [parts lv] Hin acc. cbn [fst snd].
  assert (parts ∈ flat_parts (VObj ps)) as Hparts.
  { rewrite <- items_parts. apply list_elem_of_fmap. by exists (parts, lv). }
  unfold step, setValueByPath, getValueByPath, set_parts. cbn [fst snd].
  rewrite split_join;
    [|by eapply flat_parts_not_nil|by eapply flat_parts_segments].
  pose proof (items_get (VObj ps) ps eq_refl [] (good_keys_distinct _ Hg) Hv
                (parts, lv) Hin) as Hget.
  cbn [app fst snd] in Hget. by rewrite Hget.
Qed.

Lemma create_prop_last k v ps :
  forallb (fun k' => key_le k' k) (keys ps) = true →
  create_prop k v ps = ps ++ [(k, v)].
Proof.
  induction ps as [|[k' x] ps IH]; [done|].
  cbn [keys map fst forallb create_prop]. intros [H1 H2]%andb_true_iff.
  rewrite H1. cbn [app]. f_equal. by apply IH.
Qed.

Lemma order_middle ks1 k ks2 :
  in_key_order (ks1 ++ k :: ks2) = true →
  forallb (fun k' => key_le k' k) ks1 = true.
Proof.
  induction ks1 as [|k1 ks1 IH]; [done|].
  cbn [app in_key_order forallb]. intros [H1 H2]%andb_true_iff.
  rewrite forallb_app in H1. apply andb_true_iff in H1 as [_ H1].
  cbn [forallb] in H1. apply andb_true_iff in H1 as [-> _]. by apply IH.
Qed.

Lemma replace_prop_last k v x ps :
  k ∉ keys ps → replace_prop k v (ps ++ [(k, x)]) = ps ++ [(k, v)].
Proof.
  induction ps as [|[k' y] ps IH]; cbn [app replace_prop keys map fst].
  - by rewrite String.eqb_refl.
  - intros [H1 H2]%not_elem_of_cons.
    destruct (String.eqb_spec k' k); [congruence|]. by rewrite IH.
Qed.

(** Assigning a key that is new and comes last in key order appends it;
    assigning the last key replaces its value. *)
Lemma assign_prop_new k v ps :
  k ∉ keys ps → forallb (fun k' => key_le k' k) (keys ps) = true →
  assign_prop k v ps = ps ++ [(k, v)].
Proof.
  intros Hk Ho. unfold assign_prop.
  rewrite (lookup_prop_absent _ _ Hk). by apply create_prop_last.
Qed.

Lemma assign_prop_last k v x ps :
  k ∉ keys ps → assign_prop k v (ps ++ [(k, x)]) = ps ++ [(k, v)].
Proof.
  intros Hk. unfold assign_prop. rewrite lookup_prop_middle by done.
  by apply replace_prop_last.
Qed.

Definition pure_props (ps : list (string * value)) : bool :=
  forallb (fun kv => json_pure kv.2) ps.

Lemma json_copy_props ps :
  pure_props ps = true → json_copy (VObj ps) = VObj ps.
Proof. intros H. apply json_copy_pure. by rewrite json_pure_obj. Qed.

(** The copy of an object whose last property holds an object: the other
    properties, pure, are copied as they are. *)
Lemma json_copy_last acc k c :
  pure_props acc = true →
  ∃ c', json_copy (VObj c) = VObj c'
        ∧ json_copy (VObj (acc ++ [(k, VObj c)])) = VObj (acc ++ [(k, VObj c')]).
Proof.
  intros Hacc. cbn [json_copy]. eexists. split; [reflexivity|]. f_equal.
  induction acc as [|[k' x] acc IH]; [done|].
  unfold pure_props in Hacc. cbn [forallb snd] in Hacc.
  apply andb_true_iff in Hacc as [H1 H2]. cbn [app].
  rewrite (json_pure_defined _ H1), (json_copy_pure _ H1). f_equal.
  by apply IH.
Qed.

Lemma removelast_cons {A} (a : A) l : l ≠ [] → removelast (a :: l) = a :: removelast l.
Proof. by destruct l. Qed.

Lemma last_cons {A} (a d : A) l : l ≠ [] → List.last (a :: l) d = List.last l d.
Proof. by destruct l. Qed.

(** Placing the outcome of a nested step under key [k], after [acc]. *)
Definition wrap (acc : list (string * value)) (k : string)
                (o : outcome value) : outcome value :=
  child ← o; Ok (VObj (acc ++ [(k, child)])).

(** A leaf under a new key. *)
Lemma step_leaf acc k v :
  pure_props acc = true → k ∉ keys acc →
  forallb (fun k' => key_le k' k) (keys acc) = true →
  step (Ok (VObj acc)) ([k], v) = Ok (VObj (acc ++ [(k, v)])).
Proof.
  intros Hp Hk Ho. unfold step, set_parts, JSON_parse_stringify.
  cbn [mbind outcome_bind fst snd is_undefined removelast List.last].
  rewrite json_copy_props by done. cbn [set_walk set_prop].
  by rewrite assign_prop_new.
Qed.

(** A longer path under a new key: the object for the key is created,
    and the rest of the path is installed in it. *)
Lemma step_new acc k q v :
  pure_props acc = true → k ∉ keys acc →
  forallb (fun k' => key_le k' k) (keys acc) = true → q ≠ [] →
  step (Ok (VObj acc)) (k :: q, v) = wrap acc k (step (Ok (VObj [])) (q, v)).
Proof.
  intros Hp Hk Ho Hq. unfold step, wrap, set_parts, JSON_parse_stringify.
  cbn [mbind outcome_bind fst snd is_undefined].
  rewrite json_copy_props by done.
  rewrite removelast_cons, last_cons by done.
  cbn [set_walk has_prop get_prop json_copy]. unfold read_prop.
  rewrite (lookup_prop_absent _ _ Hk).
  rewrite bool_decide_eq_false_2 by (by intros [? [=]]).
  cbn [mbind outcome_bind negb orb set_prop].
  rewrite assign_prop_new by done. cbn [get_prop]. unfold read_prop.
  rewrite lookup_prop_middle by done.
  destruct (set_walk (VObj []) (removelast q) (List.last q "") v) as [next|e];
    cbn [mbind outcome_bind]; [|done].
  by rewrite assign_prop_last.
Qed.

(** A path under the key of the last property, which holds an object:
    the path is installed in that object. *)
Lemma step_nested acc k c q v :
  pure_props acc = true → k ∉ keys acc → q ≠ [] →
  step (Ok (VObj (acc ++ [(k, VObj c)]))) (k :: q, v)
  = wrap acc k (step (Ok (VObj c)) (q, v)).
Proof.
  intros Hp Hk Hq. unfold step, wrap, set_parts, JSON_parse_stringify.
  cbn [mbind outcome_bind fst snd is_undefined].
  destruct (json_copy_last acc k c Hp) as (c' & -> & ->).
  rewrite removelast_cons, last_cons by done.
  cbn [set_walk has_prop get_prop]. unfold read_prop.
  rewrite lookup_prop_middle by done.
  rewrite bool_decide_eq_true_2 by eauto.
  cbn [mbind outcome_bind negb orb typeof js_type_eqb get_prop].
  unfold read_prop. rewrite lookup_prop_middle by done.
  destruct (set_walk (VObj c') (removelast q) (List.last q "") v) as [next|e];
    cbn [mbind outcome_bind set_prop]; [|done].
  by rewrite assign_prop_last.
Qed.

(** An outcome that is an object, if it is a value at all. *)
Definition objish (o : outcome value) : Prop :=
  match o with
  | Ok (VObj _) | Throw _ => True
  | Ok _ => False
  end.

Lemma set_walk_obj c parts last v :
  objish (set_walk (VObj c) parts last v).
Proof.
  destruct parts as [|part rest]; cbn [set_walk set_prop has_prop]; [done|].
  cbn [mbind outcome_bind].
  destruct (negb _ || negb _); cbn [set_prop mbind outcome_bind];
    destruct (set_walk _ rest last v); cbn [mbind outcome_bind objish]; done.
Qed.

Lemma step_objish o it : objish o → objish (step o it).
Proof.
  destruct o as [[| | | | | | |c]|e]; try done. intros _.
  unfold step, set_parts, JSON_parse_stringify.
  cbn [mbind outcome_bind is_undefined json_copy]. apply set_walk_obj.
Qed.

Lemma step_wrap acc k o q v :
  pure_props acc = true → k ∉ keys acc → q ≠ [] → objish o →
  step (wrap acc k o) (k :: q, v) = wrap acc k (step o (q, v)).
Proof.
  intros Hp Hk Hq. destruct o as [[| | | | | | |c]|e]; try done. intros _.
  by apply step_nested.
Qed.

Lemma wrap_objish acc k o : objish (wrap acc k o).
Proof. by destruct o. Qed.

(** All the paths of a nested object, installed below its key. *)
Lemma fill_wrap acc k its :
  pure_props acc = true → k ∉ keys acc →
  Forall (fun it => it.1 ≠ []) its →
  ∀ o, objish o →
       fill (map (fun it => (k :: it.1, it.2)) its) (wrap acc k o)
       = wrap acc k (fill its o).
Proof.
  intros Hp Hk Hits. induction Hits as [|[q v] its Hq _ IH]; intros o Ho;
    [done|].
  cbn [map fst snd]. rewrite !fill_cons, step_wrap by done.
  apply IH. by apply step_objish.
Qed.

Lemma items_all_not_nil v : Forall (fun it => it.1 ≠ []) (items v).
Proof.
  apply Forall_forall. intros it Hin. apply (flat_parts_not_nil v).
  rewrite <- items_parts. apply list_elem_of_fmap. by exists it.
Qed.

Lemma items_nested v :
  is_plain_object v = true → nested_ok v = true → items v ≠ [].
Proof.
  intros H1 H2 H3. apply (flat_parts_nested v H1 H2).
  by rewrite <- items_parts, H3.
Qed.

Lemma pure_props_app ps qs :
  pure_props (ps ++ qs) = pure_props ps && pure_props qs.
Proof. apply forallb_app. Qed.

(** Installing the leaves of a document, in order, gives the document:
    every key is created after the ones before it, and every nested
    object is completed before the next key is created. *)
Lemma fill_document v :
  ∀ ps, v = VObj ps →
  ∀ acc, pure_props acc = true →
         distinct (keys (acc ++ ps)) = true →
         in_key_order (keys (acc ++ ps)) = true →
         values_ok ps = true →
    fill (items (VObj ps)) (Ok (VObj acc)) = Ok (VObj (acc ++ ps)).
Proof.
  induction v as [| | | | | |es ps' _ _|ps' IH] using value_ind;
    try discriminate.
  intros ps [= <-].
  induction IH as [|[k x] ps Hx _ IHps]; intros acc Hp Hd Ho Hv.
  - by rewrite app_nil_r.
  - unfold values_ok in Hv. cbn [forallb snd] in Hv, Hx.
    apply andb_true_iff in Hv as [Hok Hv].
    rewrite keys_middle in Hd, Ho.
    pose proof (distinct_middle _ _ _ Hd) as Hk.
    pose proof (order_middle _ _ _ Ho) as Hle.
    rewrite items_cons, fill_app.
    replace (acc ++ (k, x) :: ps) with ((acc ++ [(k, x)]) ++ ps)
      by (by rewrite <- app_assoc).
    rewrite <- IHps; [f_equal| | | |done].
    + destruct (is_plain_object x) eqn:E.
      * destruct (items x) as [|[q1 v1] its] eqn:Hits;
          [by apply items_nested in Hits|].
        pose proof (items_all_not_nil x) as Hne. rewrite Hits in Hne.
        apply Forall_cons in Hne as [Hq1 Hne]. cbn [fst] in Hq1.
        cbn [map fst snd]. rewrite fill_cons, step_new by done.
        rewrite fill_wrap; [|done..|by apply step_objish].
        rewrite <- fill_cons, <- Hits.
        destruct (is_plain_object_obj _ E) as [sub ->].
        rewrite nested_ok_obj in Hok.
        apply andb_true_iff in Hok as [[_ Hg]%andb_true_iff Hv'].
        rewrite (Hx sub eq_refl [] eq_refl (good_keys_distinct _ Hg)
                   (good_keys_order _ Hg) Hv').
        done.
      * rewrite fill_cons. cbn [fill fold_left]. by apply step_leaf.
    + rewrite pure_props_app, Hp. unfold pure_props. cbn [forallb snd].
      by rewrite (nested_ok_pure _ Hok).
    + rewrite <- app_assoc. cbn [app]. by rewrite keys_middle.
    + rewrite <- app_assoc. cbn [app]. by rewrite keys_middle.
Qed.

(** C3 (amended): for every JSON object [D] in which the keys of every
    plain object are non-empty, free of dots, other than [__proto__], and
    distinct (in the order of [Object.keys]), and in which no nested
    plain object is empty,
    [flattenKeys] returns paths such that the leaf paths of
    [buildKeyTree], read in order, are exactly those paths, and setting
    each leaf path on [{}] to the value [getValueByPath] reads in [D]
    gives [D] back, key order included. *)
Theorem flatten_tree_rebuild D :
  document D = true →
  ∃ paths,
    flattenKeys D "" = Ok paths
    ∧ tree_leaf_paths (buildKeyTree paths) = paths
    ∧ rebuild D (tree_leaf_paths (buildKeyTree paths)) = Ok D.
Proof.
  destruct D as [| | | | | | |ps]; try discriminate.
  cbn [document]. intros [Hg Hv]%andb_true_iff.
  exists (flatten_object (VObj ps) ""). split; [done|].
  assert (tree_leaf_paths (buildKeyTree (flatten_object (VObj ps) ""))
          = flatten_object (VObj ps) "") as Hleaves.
  { rewrite buildKeyTree_document by done.
    exact (tree_of_leaf_paths (VObj ps) ""). }
  split; [done|]. rewrite Hleaves, rebuild_items by done.
  exact (fill_document (VObj ps) ps eq_refl [] eq_refl
           (good_keys_distinct _ Hg) (good_keys_order _ Hg) Hv).
Qed.

(** A document with an index-like key, a nested object, an array and
    [null]. *)
Definition sample : value :=
  VObj [("7", VStr "seven");
        ("a", VObj [("b", VStr "Hello");
                    ("c", VArr [VNum 1; VObj [("k.", VNull)]] [])]);
        ("d", VNull)].

Lemma flatten_tree_rebuild_witness :
  ∃ paths,
    flattenKeys sample "" = Ok paths
    ∧ tree_leaf_paths (buildKeyTree paths) = paths
    ∧ rebuild sample (tree_leaf_paths (buildKeyTree paths)) = Ok sample.
Proof. apply flatten_tree_rebuild. vm_compute. reflexivity. Defined.

(** C3, as stated, fails on a document with an empty nested object:
    [{"a": {}}] has no array or scalar on the way to a leaf, it flattens
    to no path at all, and what is re-derived from the tree is [{}]. *)
Lemma empty_object_is_lost :
  flattenKeys (VObj [("a", VObj [])]) "" = Ok []
  ∧ tree_leaf_paths (buildKeyTree []) = []
  ∧ rebuild (VObj [("a", VObj [])]) (tree_leaf_paths (buildKeyTree []))
    = Ok (VObj [])
  ∧ VObj [] ≠ VObj [("a", VObj [])].
Proof. repeat split. discriminate. Qed.

(** Keys with dots are not told apart from nesting: two leaves of the
    document below share one path, and the tree has one leaf. *)
Lemma dotted_key_collides :
  flattenKeys (VObj [("a", VObj [("b", VNum 1)]); ("a.b", VNum 2)]) ""
  = Ok ["a.b"; "a.b"]
  ∧ tree_leaf_paths (buildKeyTree ["a.b"; "a.b"]) = ["a.b"].
Proof. repeat split. Qed.

End KeyPathProofs.

(* ================================================================== *)
(** ** Properties of the completeness statistics                      *)
(* ================================================================== *)

Module StatsProofs.
Import JS KeyPath Stats.

Definition count_if {A} (f : A → bool) (l : list A) : nat :=
  length (List.filter f l).

Lemma count_if_app {A} (f : A → bool) l1 l2 :
  count_if f (l1 ++ l2) = count_if f l1 + count_if f l2.
Proof. unfold count_if. by rewrite List.filter_app, length_app. Qed.

Definition add_stats (a b : NodeStats) : NodeStats :=
  mkNodeStats (totalKeys a + totalKeys b) (translatedKeys a + translatedKeys b)
              (partialKeys a + partialKeys b) (missingKeys a + missingKeys b).

Definition is_empty {A} (l : list A) : bool :=
  match l with [] => true | _ => false end.

Section Classes.
Variable translations : value.
Variable languages : list string.

(** The classes of a leaf, as the specification words them. *)
Definition all_translated (p : string) : bool :=
  forallb (translated_for translations p) languages.
Definition some_translated (p : string) : bool :=
  existsb (translated_for translations p) languages.

Definition complete (p : string) : bool :=
  negb (is_empty languages) && all_translated p.
Definition partial (p : string) : bool :=
  some_translated p && negb (all_translated p).
Definition missing (p : string) : bool :=
  negb (some_translated p).

(** What [calculateNodeStats] counts as missing: nothing when there is no
    target language. *)
Definition counted_missing (p : string) : bool :=
  negb (is_empty languages) && negb (some_translated p).

(** The statistics of a list of leaves. *)
Definition leaf_stats (leaves : list string) : NodeStats :=
  mkNodeStats (length leaves) (count_if complete leaves)
              (count_if partial leaves) (count_if counted_missing leaves).

End Classes.

Lemma translatedCount_le tr p L : (translatedCount tr p L ≤ length L)%nat.
Proof.
  induction L as [|l L IH]; simpl; [lia|].
  destruct (translated_for tr p l); lia.
Qed.

Lemma translatedCount_all tr p L :
  (translatedCount tr p L =? length L)%nat = all_translated tr L p.
Proof.
  unfold all_translated. induction L as [|l L IH]; simpl; [done|].
  pose proof (translatedCount_le tr p L).
  destruct (translated_for tr p l); simpl.
  - exact IH.
  - apply Nat.eqb_neq. lia.
Qed.

Lemma translatedCount_some tr p L :
  (0 <? translatedCount tr p L)%nat = some_translated tr L p.
Proof.
  unfold some_translated. induction L as [|l L IH]; simpl; [done|].
  destruct (translated_for tr p l); simpl; [done|exact IH].
Qed.

(** One leaf adds one to the total and to at most one class. *)
Lemma count_leaf_adds tr L p stats :
  count_leaf tr L p stats = add_stats stats (leaf_stats tr L [p]).
Proof.
  unfold count_leaf, leaf_stats, count_if, add_stats, complete, partial,
    counted_missing.
  rewrite translatedCount_all, translatedCount_some. cbn [List.filter].
  destruct stats as [t c pa m]. destruct L as [|l L]; cbn [length is_empty].
  { cbn. f_equal; lia. }
  cbn [Nat.eqb negb andb].
  destruct (all_translated tr (l :: L) p) eqn:Ha;
    destruct (some_translated tr (l :: L) p) eqn:Hs; cbn; f_equal; try lia.
  (* translated for all of a non-empty list, yet for none: impossible *)
  exfalso. unfold all_translated, some_translated in *. simpl in *.
  destruct (translated_for tr p l); simpl in *; congruence.
Qed.

Lemma leaf_stats_app tr L l1 l2 :
  leaf_stats tr L (l1 ++ l2) = add_stats (leaf_stats tr L l1) (leaf_stats tr L l2).
Proof.
  unfold leaf_stats, add_stats. cbn. by rewrite length_app, !count_if_app.
Qed.

Lemma add_stats_assoc a b c :
  add_stats (add_stats a b) c = add_stats a (add_stats b c).
Proof. unfold add_stats. cbn. f_equal; lia. Qed.

Lemma add_stats_zero a : add_stats a (mkNodeStats 0 0 0 0) = a.
Proof. destruct a. unfold add_stats. cbn. f_equal; lia. Qed.

Lemma add_stats_zero_l a : add_stats (mkNodeStats 0 0 0 0) a = a.
Proof. by destruct a. Qed.

(** [traverse] adds to [stats] the statistics of the leaves below the
    node. *)
Lemma traverse_adds tr L node :
  ∀ stats, traverse tr L node stats
           = add_stats stats (leaf_stats tr L (leaf_paths node)).
Proof.
  induction node as [n p leaf cs IH] using KeyPathProofs.KeyNode_ind.
  intros stats. destruct leaf; cbn [traverse leaf_paths].
  - apply count_leaf_adds.
  - revert stats. induction IH as [|c cs Hc _ IHcs]; intros stats.
    + by rewrite add_stats_zero.
    + rewrite IHcs, Hc, leaf_stats_app, add_stats_assoc. done.
Qed.

Lemma leaf_paths_folder n p cs :
  leaf_paths (mkKeyNode n p false cs) = concat (map leaf_paths cs).
Proof. cbn [leaf_paths]. induction cs as [|c cs IH]; simpl; [done|]. by rewrite IH. Qed.

(** C5 (amended): a leaf counts as translated for a language iff
    [get(translations[lang], path)] is neither undefined, null nor the
    empty string.  [calculateNodeStats] counts every leaf below the node
    in [totalKeys]; it counts a leaf as complete iff the language list is
    not empty and the leaf is translated for all of it, as partial iff it
    is translated for at least one language but not all, and as missing
    iff the language list is not empty and the leaf is translated for
    none: with no target language a leaf is only counted in the total.
    The statistics of a folder are the sums of those of its children.
    The progress of a folder is 0 when it has no leaf or when there is no
    target language, and otherwise [Math.round] of the double-precision
    product [(complete / total) * 100]. *)
Theorem stats_count_leaves node translations languages :
  (∀ p lang,
     translated_for translations p lang = true ↔
     is_undefined (getValueByPath (language_doc translations lang) p) = false
     ∧ getValueByPath (language_doc translations lang) p ≠ VNull
     ∧ getValueByPath (language_doc translations lang) p ≠ VStr "")
  ∧ calculateNodeStats node translations languages
    = leaf_stats translations languages (leaf_paths node)
  ∧ (∀ n p cs,
       calculateNodeStats (mkKeyNode n p false cs) translations languages
       = fold_right add_stats (mkNodeStats 0 0 0 0)
           (map (fun c => calculateNodeStats c translations languages) cs))
  ∧ (∀ stats,
       folderProgress node stats languages
       = if isLeaf node || (totalKeys stats =? 0)%nat || is_empty languages
         then 0%Z
         else percentage (translatedKeys stats) (totalKeys stats)).
Proof.
  split; [|split; [|split]].
  - intros p lang. unfold translated_for, has_translation.
    destruct (getValueByPath _ p) as [| | | |s| | |]; cbn;
      try (intuition congruence).
    destruct (String.eqb_spec s ""); cbn; intuition congruence.
  - unfold calculateNodeStats. by rewrite traverse_adds, add_stats_zero_l.
  - intros n p cs. unfold calculateNodeStats.
    rewrite traverse_adds, add_stats_zero_l, leaf_paths_folder.
    induction cs as [|c cs IH]; [done|].
    cbn [map concat fold_right].
    by rewrite leaf_stats_app, IH, traverse_adds, add_stats_zero_l.
  - intros stats. unfold folderProgress. by destruct languages.
Qed.

(** The example of the specification: one key, translated in German
    only, is partial. *)
Lemma stats_example :
  let master := VObj [("a", VObj [("b", VStr "Hello")])] in
  let translations :=
    VObj [("de", VObj [("a", VObj [("b", VStr "Hallo")])]); ("fr", VObj [])] in
  flattenKeys master "" = Ok ["a.b"]
  ∧ partial translations ["de"; "fr"] "a.b" = true
  ∧ map (fun n => calculateNodeStats n translations ["de"; "fr"])
        (buildKeyTree ["a.b"])
    = [mkNodeStats 1 0 1 0].
Proof. repeat split. Qed.

(** C5, as stated, fails when there is no target language: the leaf is
    translated for none, hence missing in the words of the claim, but
    [calculateNodeStats] counts no missing key. *)
Lemma no_language_no_missing :
  missing (VObj []) [] "a" = true
  ∧ count_if (missing (VObj []) []) (leaf_paths (mkKeyNode "a" "a" true [])) = 1
  ∧ calculateNodeStats (mkKeyNode "a" "a" true []) (VObj []) []
    = mkNodeStats 1 0 0 0.
Proof. repeat split. Qed.

(** The percentage is computed on doubles: 29 complete keys of 200 give
    14, where the exact quotient 14.5 would round to 15. *)
Lemma percentage_on_doubles :
  percentage 29 200 = 14%Z
  ∧ percentage 1 2 = 50%Z
  ∧ percentage 1 3 = 33%Z
  ∧ percentage 200 200 = 100%Z.
Proof. vm_compute. repeat split. Qed.

(** Half-up rounding of the exact quotient [100 * translated / total]. *)
Definition exact_percentage (translated total : nat) : Z :=
  ((200 * Z.of_nat translated + Z.of_nat total) / (2 * Z.of_nat total))%Z.

Definition percentage_checks (translated total : nat) : bool :=
  let p := percentage translated total in
  let e := exact_percentage translated total in
  ((p =? e) || (p =? e - 1))%Z
  && ((0 <=? p) && (p <=? 100))%Z
  && Bool.eqb (p =? 100)%Z (translated =? total)%nat
  && Bool.eqb (p =? 0)%Z (translated =? 0)%nat.

(** Every count up to a total of 100, checked by evaluation. *)
Lemma percentage_table :
  forallb
    (fun total =>
       forallb (fun translated => percentage_checks translated total)
               (seq 0 (S total)))
    (seq 1 100)
  = true.
Proof. vm_compute. reflexivity. Qed.

(** For every total up to 100 keys, the percentage computed on doubles
    is the half-up rounding of the exact quotient or one less than it
    (it is one less for 23 of 40); it lies between 0 and 100, is 100
    only when every key is complete and 0 only when none is. *)
Theorem percentage_close_to_exact translated total :
  (0 < total)%nat → (total ≤ 100)%nat → (translated ≤ total)%nat →
  (percentage translated total = exact_percentage translated total
   ∨ percentage translated total = (exact_percentage translated total - 1)%Z)
  ∧ (0 ≤ percentage translated total ≤ 100)%Z
  ∧ (percentage translated total = 100%Z ↔ translated = total)
  ∧ (percentage translated total = 0%Z ↔ translated = 0%nat).
Proof.
  intros Hpos Hmax Hle.
  pose proof percentage_table as Htable.
  rewrite forallb_forall in Htable.
  assert (In total (seq 1 100)) as Htotal by (apply in_seq; lia).
  pose proof (Htable total Htotal) as Hrow. rewrite forallb_forall in Hrow.
  assert (In translated (seq 0 (S total))) as Htr by (apply in_seq; lia).
  pose proof (Hrow translated Htr) as Hok. unfold percentage_checks in Hok.
  cbn zeta in Hok.
  apply andb_true_iff in Hok as [Hok Hzero].
  apply andb_true_iff in Hok as [Hok Hfull].
  apply andb_true_iff in Hok as [Hexact Hrange].
  apply andb_true_iff in Hrange as [Hlo%Z.leb_le Hhi%Z.leb_le].
  apply Bool.eqb_prop in Hzero, Hfull.
  split; [|split; [lia|split]].
  - apply orb_true_iff in Hexact as [H%Z.eqb_eq|H%Z.eqb_eq]; [by left|by right].
  - rewrite <- Z.eqb_eq, Hfull. apply Nat.eqb_eq.
  - rewrite <- Z.eqb_eq, Hzero. apply Nat.eqb_eq.
Qed.

Lemma percentage_close_to_exact_witness :
  (percentage 23 40 = exact_percentage 23 40
   ∨ percentage 23 40 = (exact_percentage 23 40 - 1)%Z)
  ∧ (0 ≤ percentage 23 40 ≤ 100)%Z
  ∧ (percentage 23 40 = 100%Z ↔ 23 = 40)
  ∧ (percentage 23 40 = 0%Z ↔ 23 = 0%nat).
Proof.
  apply percentage_close_to_exact; lia.
Defined.

End StatsProofs.

(* ================================================================== *)
(** ** Assignments to one property leave the others alone             *)
(* ================================================================== *)

Module ObjectProofs.
Import JS.

Lemma lookup_replace_prop_ne k k' v ps :
  k ≠ k' → lookup_prop k (replace_prop k' v ps) = lookup_prop k ps.
Proof.
  intros Hne. induction ps as [|[a x] ps IH]; [done|]. cbn [replace_prop].
  destruct (String.eqb_spec a k') as [->|Ha]; cbn [lookup_prop].
  - destruct (String.eqb_spec k' k); [congruence|done].
  - by rewrite IH.
Qed.

Lemma lookup_create_prop_ne k k' v ps :
  k ≠ k' → lookup_prop k (create_prop k' v ps) = lookup_prop k ps.
Proof.
  intros Hne. induction ps as [|[a x] ps IH]; cbn [create_prop lookup_prop].
  - destruct (String.eqb_spec k' k); [congruence|done].
  - destruct (key_le a k'); cbn [lookup_prop].
    + by rewrite IH.
    + destruct (String.eqb_spec k' k); [congruence|done].
Qed.

Lemma lookup_assign_prop_ne k k' v ps :
  k ≠ k' → lookup_prop k (assign_prop k' v ps) = lookup_prop k ps.
Proof.
  intros Hne. unfold assign_prop. destruct (lookup_prop k' ps).
  - by apply lookup_replace_prop_ne.
  - by apply lookup_create_prop_ne.
Qed.

End ObjectProofs.

(* ================================================================== *)
(** ** Properties of the overview                                     *)
(* ================================================================== *)

Module OverviewProofs.
Import JS KeyPath Stats StatsProofs.

(** The four key counters among the counters of [countNodes]. *)
Definition key_counts (c : Overview.Counters) : NodeStats :=
  mkNodeStats (Overview.c_totalKeys c) (Overview.c_translatedKeys c)
              (Overview.c_partialKeys c) (Overview.c_missingKeys c).

Lemma count_leaf_same tr L p c :
  key_counts (Overview.count_leaf tr L p c)
  = Stats.count_leaf tr L p (key_counts c).
Proof.
  unfold Overview.count_leaf, Stats.count_leaf, key_counts.
  destruct c; cbn. by repeat case_match.
Qed.

Lemma count_node_same tr L n :
  ∀ c, key_counts (Overview.count_node tr L n c)
       = traverse tr L n (key_counts c).
Proof.
  induction n as [n p leaf cs IH] using KeyPathProofs.KeyNode_ind.
  intros c. destruct leaf; cbn [Overview.count_node traverse].
  - apply count_leaf_same.
  - change (key_counts c)
      with (key_counts
              (Overview.mkCounters
                 (Overview.c_totalKeys c) (Overview.c_translatedKeys c)
                 (Overview.c_partialKeys c) (Overview.c_missingKeys c)
                 (S (Overview.c_totalGroups c)))).
    generalize (Overview.mkCounters
                  (Overview.c_totalKeys c) (Overview.c_translatedKeys c)
                  (Overview.c_partialKeys c) (Overview.c_missingKeys c)
                  (S (Overview.c_totalGroups c))).
    induction IH as [|x cs Hx _ IHcs]; intros c'; [done|].
    by rewrite IHcs, Hx.
Qed.

Lemma countNodes_counts tr L tree :
  ∀ c, key_counts (Overview.countNodes tr L tree c)
       = add_stats (key_counts c) (leaf_stats tr L (tree_leaf_paths tree)).
Proof.
  unfold Overview.countNodes, tree_leaf_paths.
  induction tree as [|n tree IH]; intros c; cbn [fold_left map concat].
  - by rewrite add_stats_zero.
  - by rewrite IH, count_node_same, traverse_adds, leaf_stats_app,
      add_stats_assoc.
Qed.

Lemma rows_sum tr L tree :
  fold_right add_stats (mkNodeStats 0 0 0 0)
    (map (fun n => calculateNodeStats n tr L) tree)
  = leaf_stats tr L (tree_leaf_paths tree).
Proof.
  unfold tree_leaf_paths, calculateNodeStats.
  induction tree as [|n tree IH]; [done|].
  cbn [map concat fold_right].
  by rewrite IH, traverse_adds, add_stats_zero_l, leaf_stats_app.
Qed.

(** With at least one language a leaf is in exactly one class. *)
Lemma one_class tr L p :
  L ≠ [] →
  let classes := (complete tr L p, partial tr L p, counted_missing tr L p) in
  classes = (true, false, false) ∨ classes = (false, true, false)
  ∨ classes = (false, false, true).
Proof.
  intros HL. unfold complete, partial, counted_missing.
  assert (all_translated tr L p = true → some_translated tr L p = true) as Himp.
  { unfold all_translated, some_translated. destruct L as [|l L]; [done|].
    cbn. by intros [-> _]%andb_true_iff. }
  destruct L as [|l L]; [done|]. cbn [is_empty negb andb].
  destruct (all_translated tr (l :: L) p).
  - rewrite (Himp eq_refl). by left.
  - destruct (some_translated tr (l :: L) p); [right; by left|right; by right].
Qed.

Lemma leaf_stats_partition tr L leaves :
  L ≠ [] →
  totalKeys (leaf_stats tr L leaves)
  = translatedKeys (leaf_stats tr L leaves)
    + partialKeys (leaf_stats tr L leaves)
    + missingKeys (leaf_stats tr L leaves).
Proof.
  intros HL. unfold leaf_stats, count_if. cbn.
  induction leaves as [|p leaves IH]; [done|]. cbn [length List.filter].
  pose proof (one_class tr L p HL) as Hc.
  destruct (complete tr L p), (partial tr L p), (counted_missing tr L p);
    cbn [length]; try lia; exfalso; cbn zeta in Hc; intuition congruence.
Qed.

Lemma leaf_stats_no_language tr leaves :
  leaf_stats tr [] leaves = mkNodeStats (length leaves) 0 0 0.
Proof.
  unfold leaf_stats, count_if. f_equal.
  - induction leaves as [|p leaves IH]; [done|]. exact IH.
  - induction leaves as [|p leaves IH]; [done|]. exact IH.
  - induction leaves as [|p leaves IH]; [done|]. exact IH.
Qed.

(** The header of the overview and its rows agree: the four key counters
    of [stats] are the sums of the [calculateNodeStats] of the top-level
    rows.  With at least one target language every key is complete,
    partial or missing, so the three classes add up to the total; with
    none, every class is empty and the progress is 0. *)
Theorem header_sums_rows tree translations languages :
  let s := Overview.stats tree translations languages in
  mkNodeStats (Overview.totalKeys s) (Overview.translatedKeys s)
              (Overview.partialKeys s) (Overview.missingKeys s)
  = fold_right add_stats (mkNodeStats 0 0 0 0)
      (map (fun n => calculateNodeStats n translations languages) tree)
  ∧ (languages ≠ [] →
     Overview.totalKeys s
     = Overview.translatedKeys s + Overview.partialKeys s
       + Overview.missingKeys s)
  ∧ (languages = [] →
     Overview.translatedKeys s = 0 ∧ Overview.partialKeys s = 0
     ∧ Overview.missingKeys s = 0 ∧ Overview.progress s = 0%Z).
Proof.
  pose proof (countNodes_counts translations languages tree
                (Overview.mkCounters 0 0 0 0 0)) as H.
  rewrite add_stats_zero_l in H. unfold key_counts in H.
  cbn zeta. unfold Overview.stats. cbn [Overview.totalKeys
    Overview.translatedKeys Overview.partialKeys Overview.missingKeys
    Overview.progress].
  split; [|split].
  - by rewrite rows_sum.
  - intros HL.
    pose proof (leaf_stats_partition translations languages
                  (tree_leaf_paths tree) HL) as Hp.
    rewrite <- H in Hp. exact Hp.
  - intros ->. rewrite leaf_stats_no_language in H.
    injection H as _ -> -> ->. rewrite andb_false_r. done.
Qed.

(** *** The bars per language *)

Lemma init_langStats_from L l : ∀ m : gmap string Overview.LangStat,
  l ∈ L ∨ m !! l = Some (Overview.mkLangStat 0 0) →
  fold_left (fun langStats lang => <[lang := Overview.mkLangStat 0 0]> langStats)
            L m !! l
  = Some (Overview.mkLangStat 0 0).
Proof.
  induction L as [|x L IH]; intros m [H|H]; cbn [fold_left].
  - by apply elem_of_nil in H.
  - done.
  - apply IH. apply elem_of_cons in H as [->|H]; [right|by left].
    apply lookup_insert_eq.
  - apply IH. right. destruct (decide (x = l)) as [->|Hne].
    + apply lookup_insert_eq.
    + by rewrite lookup_insert_ne.
Qed.

Lemma count_langs_other tr L p l :
  l ∉ L → ∀ m : gmap string Overview.LangStat,
  Overview.count_langs tr L p m !! l = m !! l.
Proof.
  unfold Overview.count_langs.
  induction L as [|x L IH]; intros Hl m; cbn [fold_left]; [done|].
  apply not_elem_of_cons in Hl as [Hne Hl].
  rewrite (IH Hl). by apply lookup_alter_ne.
Qed.

(** One leaf adds one to the total of each language, and one to its
    count of translated keys when the leaf is translated for it. *)
Lemma count_langs_lookup tr L p l :
  NoDup L → l ∈ L → ∀ m st,
  m !! l = Some st →
  Overview.count_langs tr L p m !! l
  = Some (Overview.mkLangStat
            (if translated_for tr p l then S (Overview.ls_translated st)
             else Overview.ls_translated st)
            (S (Overview.ls_total st))).
Proof.
  induction L as [|x L IH]; intros Hnd Hl m st Hm.
  - by apply elem_of_nil in Hl.
  - apply NoDup_cons in Hnd as [Hx Hnd].
    change (Overview.count_langs tr (x :: L) p m)
      with (Overview.count_langs tr L p
              (alter (fun st =>
                        Overview.mkLangStat
                          (if translated_for tr p x
                           then S (Overview.ls_translated st)
                           else Overview.ls_translated st)
                          (S (Overview.ls_total st))) x m)).
    apply elem_of_cons in Hl as [->|Hl].
    + rewrite (count_langs_other _ _ _ _ Hx), lookup_alter_eq, Hm. done.
    + apply (IH Hnd Hl). rewrite lookup_alter_ne; [done|].
      intros ->. contradiction.
Qed.

Lemma count_leaf_node_lookup tr L l n :
  NoDup L → l ∈ L → ∀ m st,
  m !! l = Some st →
  Overview.count_leaf_node tr L n m !! l
  = Some (Overview.mkLangStat
            (Overview.ls_translated st
             + count_if (fun p => translated_for tr p l) (leaf_paths n))
            (Overview.ls_total st + length (leaf_paths n))).
Proof.
  intros Hnd Hl.
  induction n as [n p leaf cs IH] using KeyPathProofs.KeyNode_ind.
  intros m st Hm. destruct leaf.
  - cbn [Overview.count_leaf_node leaf_paths].
    rewrite (count_langs_lookup _ _ _ _ Hnd Hl _ _ Hm).
    unfold count_if. cbn [List.filter length].
    destruct (translated_for tr p l); cbn [length]; f_equal; f_equal; lia.
  - rewrite leaf_paths_folder. cbn [Overview.count_leaf_node].
    revert m st Hm. induction IH as [|c cs Hc _ IHcs]; intros m st Hm.
    + cbn. rewrite Hm. destruct st. unfold count_if. cbn.
      f_equal; f_equal; lia.
    + cbn [map concat]. rewrite (IHcs _ _ (Hc _ _ Hm)).
      cbn [Overview.ls_translated Overview.ls_total].
      rewrite count_if_app, length_app. f_equal; f_equal; lia.
Qed.

(** The bar of a language that is listed once. *)
Lemma languageStats_lookup tree translations languages lang :
  NoDup languages → lang ∈ languages →
  Overview.languageStats tree translations languages !! lang
  = Some (Overview.mkLangStat
            (count_if (fun p => translated_for translations p lang)
                      (tree_leaf_paths tree))
            (length (tree_leaf_paths tree))).
Proof.
  intros Hnd Hl. unfold Overview.languageStats.
  assert (∀ (m : gmap string Overview.LangStat) st, m !! lang = Some st →
            fold_left
              (fun langStats node =>
                 Overview.count_leaf_node translations languages node langStats)
              tree m !! lang
            = Some (Overview.mkLangStat
                      (Overview.ls_translated st
                       + count_if (fun p => translated_for translations p lang)
                                  (tree_leaf_paths tree))
                      (Overview.ls_total st + length (tree_leaf_paths tree))))
    as Hfold.
  { unfold tree_leaf_paths.
    induction tree as [|n tree IH]; intros m st Hm; cbn [fold_left map concat].
    - rewrite Hm. destruct st. unfold count_if. cbn. f_equal; f_equal; lia.
    - rewrite (IH _ _ (count_leaf_node_lookup _ _ _ n Hnd Hl _ _ Hm)).
      cbn [Overview.ls_translated Overview.ls_total].
      rewrite count_if_app, length_app. f_equal; f_equal; lia. }
  rewrite (Hfold _ (Overview.mkLangStat 0 0)); [done|].
  apply init_langStats_from. by left.
Qed.

Lemma count_if_all {A} (f : A → bool) l :
  count_if f l = length l ↔ ∀ x, x ∈ l → f x = true.
Proof.
  induction l as [|a l IH].
  - split; [|done]. intros _ x H. by apply elem_of_nil in H.
  - unfold count_if in *. cbn [List.filter].
    pose proof (filter_length_le f l) as Hle.
    destruct (f a) eqn:Ha; cbn [length].
    + split.
      * intros H x [->|Hx]%elem_of_cons; [done|]. apply IH; [lia|done].
      * intros H. f_equal. apply IH. intros x Hx. apply H.
        apply elem_of_cons. by right.
    + split; [lia|]. intros H.
      rewrite H in Ha; [done|]. apply elem_of_cons. by left.
Qed.

(** When no language is listed twice, the bar of a listed language
    counts every leaf of the tree in its total and, as translated, the
    leaves whose value for that language is neither undefined, null nor
    the empty string; and, with at least one language, the header counts
    every key as complete exactly when the bar of every language is
    full. *)
Theorem language_bars tree translations languages :
  NoDup languages →
  (∀ lang, lang ∈ languages →
     Overview.languageStats tree translations languages !! lang
     = Some (Overview.mkLangStat
               (count_if (fun p => translated_for translations p lang)
                         (tree_leaf_paths tree))
               (length (tree_leaf_paths tree))))
  ∧ (languages ≠ [] →
     Overview.translatedKeys (Overview.stats tree translations languages)
     = Overview.totalKeys (Overview.stats tree translations languages)
     ↔ ∀ lang, lang ∈ languages →
         ∃ st, Overview.languageStats tree translations languages !! lang
               = Some st
               ∧ Overview.ls_translated st = Overview.ls_total st).
Proof.
  intros Hnd. split.
  { intros lang Hin. by apply languageStats_lookup. }
  intros HL.
  pose proof (countNodes_counts translations languages tree
                (Overview.mkCounters 0 0 0 0 0)) as H.
  rewrite add_stats_zero_l in H. unfold key_counts, leaf_stats in H.
  injection H as Htotal Hdone _ _.
  unfold Overview.stats.
  cbn [Overview.translatedKeys Overview.totalKeys].
  rewrite Htotal, Hdone, count_if_all.
  assert (∀ p, complete translations languages p = true
               ↔ ∀ lang, lang ∈ languages →
                         translated_for translations p lang = true) as Hc.
  { intros p. unfold complete, all_translated.
    destruct languages as [|l L]; [done|]. cbn [is_empty negb andb].
    rewrite forallb_forall. split; intros Hall lang Hin; apply Hall.
    - by apply list_elem_of_In.
    - by apply list_elem_of_In. }
  split.
  - intros Hall lang Hin. eexists. split.
    + by apply languageStats_lookup.
    + cbn [Overview.ls_translated Overview.ls_total].
      apply count_if_all. intros p Hp. by apply Hc; [apply Hall|].
  - intros Hbars p Hp. apply Hc. intros lang Hin.
    destruct (Hbars lang Hin) as (st & Hst & Heq).
    rewrite (languageStats_lookup _ _ _ _ Hnd Hin) in Hst.
    injection Hst as <-. cbn [Overview.ls_translated Overview.ls_total] in Heq.
    by apply (proj1 (count_if_all _ _) Heq).
Qed.

(** German is translated for one of three keys, French for none. *)
Lemma language_bars_witness :
  Overview.languageStats (buildKeyTree ["a.b"; "a.c"; "d"])
    (VObj [("de", VObj [("a", VObj [("b", VStr "Hallo")])])]) ["de"; "fr"]
  !! "de"
  = Some (Overview.mkLangStat 1 3).
Proof.
  destruct (language_bars (buildKeyTree ["a.b"; "a.c"; "d"])
              (VObj [("de", VObj [("a", VObj [("b", VStr "Hallo")])])])
              ["de"; "fr"]) as [Hbar _].
  - apply NoDup_cons. split; [by intros [=]%list_elem_of_singleton|].
    apply NoDup_singleton.
  - rewrite Hbar; [reflexivity|]. apply elem_of_cons. by left.
Defined.

(** *** The status of a row *)

Lemma status_loop_count tr p L :
  ∀ acc,
  (fold_left
     (fun acc lang =>
        let hasTranslation := translated_for tr p lang in
        (Overview.assign_status lang hasTranslation acc.1,
         if hasTranslation then S acc.2 else acc.2))
     L acc).2
  = acc.2 + translatedCount tr p L.
Proof.
  induction L as [|x L IH]; intros acc; cbn [fold_left translatedCount].
  - lia.
  - rewrite IH. cbn [snd]. destruct (translated_for tr p x); lia.
Qed.

Lemma lookup_assign_status_ne l lang b statuses :
  l ≠ lang →
  lookup_prop l (Overview.assign_status lang b statuses)
  = lookup_prop l statuses.
Proof.
  intros Hne. unfold Overview.assign_status.
  destruct (String.eqb lang "__proto__"); [done|].
  by apply ObjectProofs.lookup_assign_prop_ne.
Qed.

Lemma status_loop_other tr p L l :
  l ∉ L → ∀ acc,
  lookup_prop l
    (fold_left
       (fun acc lang =>
          let hasTranslation := translated_for tr p lang in
          (Overview.assign_status lang hasTranslation acc.1,
           if hasTranslation then S acc.2 else acc.2))
       L acc).1
  = lookup_prop l acc.1.
Proof.
  induction L as [|x L IH]; intros Hl acc; cbn [fold_left]; [done|].
  apply not_elem_of_cons in Hl as [Hne Hl].
  rewrite (IH Hl). cbn [fst]. by apply lookup_assign_status_ne.
Qed.

Lemma status_loop_lookup tr p L l :
  l ∈ L → l ≠ "__proto__" → ∀ acc,
  lookup_prop l
    (fold_left
       (fun acc lang =>
          let hasTranslation := translated_for tr p lang in
          (Overview.assign_status lang hasTranslation acc.1,
           if hasTranslation then S acc.2 else acc.2))
       L acc).1
  = Some (VBool (translated_for tr p l)).
Proof.
  intros Hl Hproto.
  induction L as [|x L IH]; intros acc; cbn [fold_left].
  - by apply elem_of_nil in Hl.
  - destruct (decide (l ∈ L)) as [Hin|Hout]; [by apply IH|].
    apply elem_of_cons in Hl as [->|Hl]; [|contradiction].
    rewrite (status_loop_other _ _ _ _ Hout). cbn [fst].
    unfold Overview.assign_status.
    apply String.eqb_neq in Hproto. rewrite Hproto.
    apply KeyPathProofs.lookup_assign_prop.
Qed.

Lemma status_loop_spec tr p L :
  (Overview.status_loop tr p L).2 = translatedCount tr p L
  ∧ ∀ l, l ∈ L → l ≠ "__proto__" →
      lookup_prop l (Overview.status_loop tr p L).1
      = Some (VBool (translated_for tr p l)).
Proof.
  unfold Overview.status_loop. split.
  - by rewrite status_loop_count.
  - intros l Hl Hproto. by apply status_loop_lookup.
Qed.

(** The dot of a leaf row and the counters agree: [calculateNodeStats]
    of a leaf counts it as complete, partial or missing exactly when its
    [translationStatus] says so, except that with no target language the
    status says missing while nothing is counted; and [langStatuses]
    holds, for every listed language other than [__proto__], whether the
    leaf is translated for it. *)
Theorem row_status_agrees node translations languages :
  isLeaf node = true →
  ∃ st,
    Overview.translationStatus node translations languages = Some st
    ∧ Overview.translated st
      = translatedCount translations (path node) languages
    ∧ calculateNodeStats node translations languages
      = mkNodeStats 1
          (if Overview.complete st then 1 else 0)
          (if Overview.partial st then 1 else 0)
          (if Overview.missing st && negb (is_empty languages) then 1 else 0)
    ∧ ∀ lang, lang ∈ languages → lang ≠ "__proto__" →
        read_prop lang (Overview.langStatuses st)
        = VBool (translated_for translations (path node) lang).
Proof.
  destruct node as [n p leaf cs]. cbn [isLeaf]. intros ->.
  unfold Overview.translationStatus. cbn [isLeaf negb path].
  destruct (status_loop_spec translations p languages) as [Hcount Hlook].
  destruct (Overview.status_loop translations p languages)
    as [statuses count] eqn:Hloop.
  cbn [fst snd] in Hcount, Hlook.
  eexists. split; [done|].
  cbn [Overview.translated Overview.complete Overview.partial
       Overview.missing Overview.langStatuses].
  split; [done|]. split.
  - unfold calculateNodeStats. cbn [traverse]. unfold Stats.count_leaf.
    cbn [totalKeys translatedKeys partialKeys missingKeys]. rewrite Hcount.
    pose proof (translatedCount_le translations p languages) as Hle.
    destruct languages as [|l L].
    { cbn. done. }
    cbn [is_empty negb andb length Nat.eqb]. rewrite andb_true_r.
    set (k := translatedCount translations p (l :: L)) in *.
    cbn [length] in Hle.
    destruct (Nat.eqb_spec k (S (length L))) as [Hk|Hk];
      destruct (Nat.ltb_spec 0 k) as [Hpos|Hzero];
      destruct (Nat.ltb_spec k (S (length L))) as [Hlt|Hge];
      destruct (Nat.eqb_spec k 0) as [Hz|Hnz];
      destruct (Nat.ltb_spec 0 (S (length L))) as [Hs|Hs];
      cbn [andb]; try reflexivity; exfalso; lia.
  - intros lang Hin Hproto. unfold read_prop.
    by rewrite (Hlook lang Hin Hproto).
Qed.

(** A key translated into German but not into French is partial. *)
Lemma row_status_agrees_witness :
  ∃ st,
    Overview.translationStatus (mkKeyNode "b" "a.b" true [])
      (VObj [("de", VObj [("a", VObj [("b", VStr "Hallo")])])]) ["de"; "fr"]
    = Some st
    ∧ Overview.translated st
      = translatedCount
          (VObj [("de", VObj [("a", VObj [("b", VStr "Hallo")])])])
          (path (mkKeyNode "b" "a.b" true [])) ["de"; "fr"]
    ∧ calculateNodeStats (mkKeyNode "b" "a.b" true [])
        (VObj [("de", VObj [("a", VObj [("b", VStr "Hallo")])])]) ["de"; "fr"]
      = mkNodeStats 1
          (if Overview.complete st then 1 else 0)
          (if Overview.partial st then 1 else 0)
          (if Overview.missing st && negb (is_empty ["de"; "fr"]) then 1 else 0)
    ∧ ∀ lang, lang ∈ ["de"; "fr"] → lang ≠ "__proto__" →
        read_prop lang (Overview.langStatuses st)
        = VBool (translated_for
                   (VObj [("de", VObj [("a", VObj [("b", VStr "Hallo")])])])
                   (path (mkKeyNode "b" "a.b" true [])) lang).
Proof.
  apply row_status_agrees. reflexivity.
Defined.

End OverviewProofs.

(* ================================================================== *)
(** ** Properties of the profile route                                *)
(* ================================================================== *)

Module UsersProofs.
Import Cloud Users.

(** The constraints of the table: the primary key and the unique index
    on [email]. *)
Definition well_formed (table : list User) : Prop :=
  NoDup (map id table) ∧ NoDup (map email table).

Lemma create_user_well_formed table u table' :
  well_formed table → create_user table u = Some table' →
  well_formed table'.
Proof.
  intros [Hid Hem]. unfold create_user.
  destruct (existsb _ table) eqn:He; [discriminate|]. intros [= <-].
  assert (∀ x, x ∈ table → id x ≠ id u ∧ email x ≠ email u) as Hfresh.
  { intros x Hx. apply list_elem_of_In in Hx.
    split; intros Heq;
      (match type of He with
       | ?t = false => assert (t = true) as Ht; [|congruence]
       end);
      apply existsb_exists; exists x; (split; [done|]);
      rewrite Heq, String.eqb_refl; [done|apply orb_true_r]. }
  unfold well_formed. rewrite !map_app. cbn [map].
  split; apply NoDup_app; (split; [done|]); (split; [|apply NoDup_singleton]).
  - intros i Hi [=->]%list_elem_of_singleton.
    apply list_elem_of_fmap in Hi as (x & Hx1 & Hx2).
    by destruct (Hfresh x Hx2).
  - intros e He' [=->]%list_elem_of_singleton.
    apply list_elem_of_fmap in He' as (x & Hx1 & Hx2).
    by destruct (Hfresh x Hx2).
Qed.

Lemma update_ids userId updated table :
  id updated = userId →
  map id (map (fun x => if String.eqb (id x) userId then updated else x) table)
  = map id table.
Proof.
  intros Hu. induction table as [|a l IH]; [done|]. cbn [map]. rewrite IH.
  destruct (String.eqb_spec (id a) userId); congruence.
Qed.

Lemma update_absent userId updated table :
  userId ∉ map id table →
  map (fun x => if String.eqb (id x) userId then updated else x) table = table.
Proof.
  induction table as [|a l IH]; [done|]. cbn [map].
  intros [Ha Hl]%not_elem_of_cons.
  rewrite (IH Hl). destruct (String.eqb_spec (id a) userId); congruence.
Qed.

Lemma update_emails userId updated table :
  NoDup (map id table) → NoDup (map email table) →
  (∀ x, x ∈ table → id x ≠ userId → email x ≠ email updated) →
  NoDup (map email
           (map (fun x => if String.eqb (id x) userId then updated else x)
                table)).
Proof.
  induction table as [|a l IH]; [done|]. cbn [map].
  intros [Hida Hid]%NoDup_cons [Hema Hem]%NoDup_cons Hfresh.
  destruct (String.eqb_spec (id a) userId) as [Ha|Ha].
  - rewrite update_absent by congruence.
    apply NoDup_cons. split; [|done].
    intros (x & Hx1 & Hx2)%list_elem_of_fmap.
    apply (Hfresh x); [by apply elem_of_cons; right| |done].
    intros Hx. apply Hida. rewrite Ha, <- Hx. by apply list_elem_of_fmap_2.
  - apply NoDup_cons. split.
    + intros (y & Hy1 & Hy2)%list_elem_of_fmap.
      apply list_elem_of_fmap in Hy2 as (x & -> & Hx).
      destruct (String.eqb_spec (id x) userId).
      * apply (Hfresh a); [by apply elem_of_cons; left|done|done].
      * apply Hema. rewrite Hy1. by apply list_elem_of_fmap_2.
    + apply IH; [done..|]. intros x Hx. apply Hfresh.
      apply elem_of_cons. by right.
Qed.

(** Neither handler ever breaks the constraints of the table: whatever
    the headers and the body, ids and e-mails stay unique. *)
Theorem users_stay_unique table h body :
  well_formed table →
  well_formed (GET table h).1 ∧ well_formed (PUT table h body).1.
Proof.
  intros Hwf. split.
  - unfold GET. destruct (truthy_string (x_user_id h)) as [userId|]; [|done].
    destruct (find_by_id table userId); [done|].
    destruct (truthy_string (x_user_email h)) as [e|]; [|done].
    destruct (find_by_email table e); [done|].
    destruct (create_user table _) as [table'|] eqn:Hc; [|done].
    by eapply create_user_well_formed.
  - unfold PUT. destruct (truthy_string (x_user_id h)) as [userId|]; [|done].
    destruct (find_by_id table userId) as [old|].
    + destruct (existsb _ table) eqn:He; [done|]. cbn [fst].
      destruct Hwf as [Hid Hem]. split.
      * by rewrite update_ids.
      * apply update_emails; [done..|]. intros x Hx Hne Heq.
        match type of He with
        | ?t = false => assert (t = true) as Ht; [|congruence]
        end.
        apply existsb_exists. exists x.
        split; [by apply list_elem_of_In|].
        apply andb_true_iff. split.
        -- apply negb_true_iff. by apply String.eqb_neq.
        -- by apply String.eqb_eq.
    + destruct (create_user table _) as [table'|] eqn:Hc; [|done].
      by eapply create_user_well_formed.
Qed.

(** Two users; Bob asks for Ann's e-mail, which is refused. *)
Definition two_users : list User :=
  [mkUser "u1" "ann@example.org" (Some "Ann");
   mkUser "u2" "bob@example.org" None].

Lemma users_stay_unique_witness :
  well_formed
    (PUT two_users (mkHeaders (Some "u3") (Some "") None)
         (mkUserBody (Some "Cy") (Some "cy@example.org"))).1.
Proof.
  apply (users_stay_unique two_users
           (mkHeaders (Some "u3") (Some "") None)
           (mkUserBody (Some "Cy") (Some "cy@example.org"))).
  split.
  - apply NoDup_cons. split; [by intros [=]%list_elem_of_singleton|].
    apply NoDup_singleton.
  - apply NoDup_cons. split; [by intros [=]%list_elem_of_singleton|].
    apply NoDup_singleton.
Defined.

Lemma find_by_id_app table u :
  find_by_id table (id u) = None → find_by_id (table ++ [u]) (id u) = Some u.
Proof.
  unfold find_by_id. induction table as [|a l IH]; cbn [List.find app].
  - intros _. by rewrite String.eqb_refl.
  - destruct (String.eqb (id a) (id u)); [discriminate|exact IH].
Qed.

Lemma find_by_id_update table userId old updated :
  id updated = userId →
  find_by_id table userId = Some old →
  find_by_id
    (map (fun x => if String.eqb (id x) userId then updated else x) table)
    userId
  = Some updated.
Proof.
  intros Hu. unfold find_by_id.
  induction table as [|a l IH]; [done|]. cbn [List.find map].
  destruct (String.eqb_spec (id a) userId) as [Ha|Ha].
  - intros _. by rewrite Hu, String.eqb_refl.
  - destruct (String.eqb_spec (id a) userId); [done|]. exact IH.
Qed.

Lemma create_user_find table u table' :
  find_by_id table (id u) = None →
  create_user table u = Some table' →
  find_by_id table' (id u) = Some u.
Proof.
  intros Hn. unfold create_user. destruct (existsb _ table); [discriminate|].
  intros [= <-]. by apply find_by_id_app.
Qed.

(** The profile is stable: a GET that answered a user answers the same
    user again without changing the table, and after a PUT that
    succeeded every GET of the same caller answers the user that the PUT
    answered, whatever e-mail and name its headers carry. *)
Theorem profile_is_stable table h :
  (∀ table' u,
     GET table h = (table', Success u) → GET table' h = (table', Success u))
  ∧ (∀ body table' u,
       PUT table h body = (table', Success u) →
       ∀ e n, GET table' (mkHeaders (x_user_id h) e n) = (table', Success u)).
Proof.
  split.
  - intros table' u. unfold GET.
    destruct (truthy_string (x_user_id h)) as [userId|]; [|discriminate].
    destruct (find_by_id table userId) as [found|] eqn:Hid.
    { intros [= <- <-]. by rewrite Hid. }
    destruct (truthy_string (x_user_email h)) as [e|]; [|discriminate].
    destruct (find_by_email table e) as [found|] eqn:Hem.
    { intros [= <- <-]. by rewrite Hid, Hem. }
    destruct (create_user table _) as [table1|] eqn:Hc; [|discriminate].
    intros [= <- <-].
    pose proof (create_user_find table
                  (mkUser userId e (truthy_string (x_user_name h)))
                  table1 Hid Hc) as Hf.
    cbn [id] in Hf. by rewrite Hf.
  - intros body table' u. unfold PUT, GET. cbn [x_user_id].
    destruct (truthy_string (x_user_id h)) as [userId|]; [|discriminate].
    destruct (find_by_id table userId) as [old|] eqn:Hid.
    + destruct (existsb _ table); [discriminate|].
      intros [= <- <-] e n.
      by rewrite (find_by_id_update _ _ old).
    + destruct (create_user table _) as [table1|] eqn:Hc; [|discriminate].
      intros [= <- <-] e n.
      match type of Hc with
      | create_user _ ?created = _ =>
          pose proof (create_user_find table created table1 Hid Hc) as Hf
      end.
      cbn [id] in Hf. by rewrite Hf.
Qed.

Lemma truthy_string_Some s x :
  truthy_string s = Some x → s = Some x ∧ x ≠ "".
Proof.
  destruct s as [y|]; [|discriminate]. cbn.
  destruct (String.eqb_spec y ""); [discriminate|]. by intros [= <-].
Qed.

Lemma find_by_id_none table i : find_by_id table i = None → i ∉ ids table.
Proof.
  unfold find_by_id, ids. intros Hn Hin.
  apply elem_of_list_to_set, list_elem_of_fmap in Hin as (x & -> & Hx).
  apply list_elem_of_In in Hx.
  pose proof (find_none _ _ Hn x Hx) as Hf. cbn in Hf.
  by rewrite String.eqb_refl in Hf.
Qed.

(** A caller whose id is unknown but whose e-mail is registered under
    another id is answered the row of that other id, and no row is made
    for the caller.  The caller's own id, which the client keeps
    sending, is then still not a user: it can neither create a project
    nor join one. *)
Theorem profile_of_another_id table h table' u :
  GET table h = (table', Success u) →
  x_user_id h ≠ Some (id u) →
  ∃ caller,
    x_user_id h = Some caller
    ∧ table' = table
    ∧ x_user_email h = Some (email u)
    ∧ (caller ∉ ids table')
    ∧ ∀ db, users db = ids table' →
        (∀ new_id body, ∃ status e,
           post_project new_id db (Some caller) body = (db, Fail status e))
        ∧ (∀ now c, ∃ status e,
             join now db (JoinProofs.request caller c) = (db, Fail status e)).
Proof.
  unfold GET.
  destruct (truthy_string (x_user_id h)) as [caller|] eqn:Hcaller;
    [|discriminate].
  apply truthy_string_Some in Hcaller as [Hcaller Hne].
  destruct (find_by_id table caller) as [found|] eqn:Hid.
  { intros [= <- <-] Hdiff. exfalso. apply Hdiff. rewrite Hcaller. f_equal.
    unfold find_by_id in Hid. apply find_some in Hid as [_ Hid].
    by apply String.eqb_eq in Hid. }
  destruct (truthy_string (x_user_email h)) as [e|] eqn:Hemail;
    [|discriminate].
  apply truthy_string_Some in Hemail as [Hemail _].
  destruct (find_by_email table e) as [found|] eqn:Hem.
  - intros [= <- <-] _. exists caller.
    split; [done|]. split; [done|]. split.
    { rewrite Hemail. f_equal. unfold find_by_email in Hem.
      apply find_some in Hem as [_ Hem]. apply String.eqb_eq in Hem. done. }
    pose proof (find_by_id_none _ _ Hid) as Hout.
    split; [done|]. intros db Hdb. split.
    + intros new_id body. unfold post_project.
      apply String.eqb_neq in Hne. rewrite Hne.
      destruct (String.eqb (c_name body) ""); [by eauto|].
      rewrite Hdb, (bool_decide_eq_false_2 _ Hout). cbn. by eauto.
    + intros now c.
      destruct (join now db (JoinProofs.request caller c)) as [db' [st m|j]]
        eqn:Hj.
      * rewrite (JoinProofs.join_rejected_unchanged _ _ _ _ _ _ Hj). by eauto.
      * exfalso.
        apply JoinProofs.join_success_inv in Hj
          as (u' & c' & _ & _ & Hreq & _ & _ & _ & _ & _ & _ & _ & _ & Hin & _).
        injection Hreq as <- _. rewrite Hdb in Hin. contradiction.
  - destruct (create_user table _) as [table1|]; [|discriminate].
    intros [= <- <-] Hdiff. exfalso. apply Hdiff. by rewrite Hcaller.
Qed.

(** Ann opens the application in a second browser, which drew the id
    [u9], and enters her e-mail. *)
Lemma profile_of_another_id_witness :
  ∃ caller,
    x_user_id (mkHeaders (Some "u9") (Some "ann@example.org") None)
    = Some caller
    ∧ two_users = two_users
    ∧ x_user_email (mkHeaders (Some "u9") (Some "ann@example.org") None)
      = Some (email (mkUser "u1" "ann@example.org" (Some "Ann")))
    ∧ (caller ∉ ids two_users)
    ∧ ∀ db, users db = ids two_users →
        (∀ new_id body, ∃ status e,
           post_project new_id db (Some caller) body = (db, Fail status e))
        ∧ (∀ now c, ∃ status e,
             join now db (JoinProofs.request caller c) = (db, Fail status e)).
Proof.
  apply (profile_of_another_id two_users
           (mkHeaders (Some "u9") (Some "ann@example.org") None)
           two_users (mkUser "u1" "ann@example.org" (Some "Ann"))).
  - reflexivity.
  - discriminate.
Defined.

End UsersProofs.

(* ================================================================== *)
(** ** Properties of the editing handlers                             *)
(* ================================================================== *)

Module EditorProofs.
Import JS KeyPath Session Editor.

(** *** Languages *)

Lemma get_empty p : getValueByPath (VObj []) p = VUndef.
Proof.
  unfold getValueByPath. pose proof (KeyPathProofs.split_not_nil p) as Hne.
  destruct (split p) as [|part rest]; [done|].
  by apply KeyPathProofs.get_walk_missing.
Qed.

Lemma not_listed (lang : string) L :
  existsb (String.eqb lang) L = false ↔ lang ∉ L.
Proof.
  split.
  - apply KeyPathProofs.distinct_not_elem.
  - intros Hout. destruct (existsb _ L) eqn:He; [|done].
    apply existsb_exists in He as (x & Hx & Heq).
    apply String.eqb_eq in Heq as ->. by apply list_elem_of_In in Hx.
Qed.

(** Adding a language, given with any blanks around it and in any case,
    appends its trimmed lower-case form to the target languages, which
    stay free of repetitions, and marks the project as unsaved.  The new
    language starts with no translation at all: whatever was stored
    under its name is replaced by the empty document, in which no key
    made of own names (no segment is a name the prototypes define) is
    translated.  The documents of the other languages are untouched,
    and adding the language a second time changes nothing. *)
Theorem added_language_starts_empty langInput s prev :
  currentProject s = Some prev →
  trim langInput ≠ "" →
  toLowerCase (trim langInput) ∉ targetLanguages prev →
  ∃ updated,
    handleAddLanguage langInput s = with_project (Some updated) true s
    ∧ targetLanguages updated
      = targetLanguages prev ++ [toLowerCase (trim langInput)]
    ∧ (NoDup (targetLanguages prev) → NoDup (targetLanguages updated))
    ∧ (∀ p, own_path p = true →
            Stats.translated_for (translations updated) p
              (toLowerCase (trim langInput)) = false)
    ∧ (∀ ps l, translations prev = VObj ps →
               l ≠ toLowerCase (trim langInput) →
               get_prop (translations updated) l
               = get_prop (translations prev) l)
    ∧ handleAddLanguage langInput (handleAddLanguage langInput s)
      = handleAddLanguage langInput s.
Proof.
  intros Hprev Hne Hout. set (lang := toLowerCase (trim langInput)) in *.
  unfold handleAddLanguage. fold lang.
  apply String.eqb_neq in Hne. rewrite Hne, Hprev.
  rewrite (proj2 (not_listed _ _) Hout).
  eexists. split; [done|]. cbn [targetLanguages translations].
  split; [done|]. split; [|split; [|split]].
  - intros Hnd. apply NoDup_app. split; [done|]. split.
    + intros x Hx [=->]%list_elem_of_singleton. contradiction.
    + apply NoDup_singleton.
  - intros p _.
    unfold Stats.translated_for, Stats.language_doc, spread_with.
    cbn [get_prop]. unfold read_prop.
    rewrite KeyPathProofs.lookup_assign_prop. cbn [truthy].
    by rewrite get_empty.
  - intros ps l -> Hl. unfold spread_with. cbn [own_entries get_prop].
    unfold read_prop. by rewrite ObjectProofs.lookup_assign_prop_ne.
  - cbn [with_project currentProject targetLanguages].
    assert (existsb (String.eqb lang) (targetLanguages prev ++ [lang]) = true)
      as ->; [|done].
    rewrite existsb_app. cbn. by rewrite String.eqb_refl, orb_true_r.
Qed.

(** A project in German, to which Italian is added. *)
Definition deck : TranslationProject :=
  mkTranslationProject "local-7" "deck" "en" ["de"]
    (VObj [("title", VStr "Hello")])
    (VObj [("de", VObj [("title", VStr "Hallo")])]) 10.

Definition deck_state : State :=
  mkState (Some deck) None viewer false false None None [deck] [].

Lemma added_language_starts_empty_witness :
  ∃ updated,
    handleAddLanguage " IT " deck_state = with_project (Some updated) true deck_state
    ∧ targetLanguages updated
      = targetLanguages deck ++ [toLowerCase (trim " IT ")]
    ∧ (NoDup (targetLanguages deck) → NoDup (targetLanguages updated))
    ∧ (∀ p, own_path p = true →
            Stats.translated_for (translations updated) p
              (toLowerCase (trim " IT ")) = false)
    ∧ (∀ ps l, translations deck = VObj ps →
               l ≠ toLowerCase (trim " IT ") →
               get_prop (translations updated) l
               = get_prop (translations deck) l)
    ∧ handleAddLanguage " IT " (handleAddLanguage " IT " deck_state)
      = handleAddLanguage " IT " deck_state.
Proof.
  apply (added_language_starts_empty " IT " deck_state deck).
  - reflexivity.
  - discriminate.
  - apply not_listed. reflexivity.
Defined.

Lemma fromEntries_from rest :
  ∀ acc,
  KeyPathProofs.distinct (KeyPathProofs.keys (acc ++ rest)) = true →
  KeyPathProofs.in_key_order (KeyPathProofs.keys (acc ++ rest)) = true →
  fold_left (fun ps kv => assign_prop kv.1 kv.2 ps) rest acc = acc ++ rest.
Proof.
  induction rest as [|[k x] rest IH]; intros acc Hd Ho; cbn [fold_left].
  - by rewrite app_nil_r.
  - cbn [fst snd]. rewrite KeyPathProofs.keys_middle in Hd, Ho.
    rewrite KeyPathProofs.assign_prop_new.
    + rewrite IH; rewrite <- ?app_assoc; cbn [app]; [done| |];
        by rewrite KeyPathProofs.keys_middle.
    + by eapply KeyPathProofs.distinct_middle.
    + by eapply KeyPathProofs.order_middle.
Qed.

(** Listing the entries of a well-formed object and building an object
    from them gives the object back. *)
Lemma fromEntries_entries ps :
  KeyPathProofs.distinct (KeyPathProofs.keys ps) = true →
  KeyPathProofs.in_key_order (KeyPathProofs.keys ps) = true →
  Object_fromEntries ps = VObj ps.
Proof.
  intros Hd Ho. unfold Object_fromEntries. f_equal.
  by apply (fromEntries_from ps []).
Qed.

Lemma filter_absent k (ps : list (string * value)) :
  k ∉ KeyPathProofs.keys ps →
  List.filter (fun kv : string * value => negb (String.eqb kv.1 k)) ps = ps.
Proof.
  induction ps as [|[k' x] ps IH]; [done|].
  cbn [KeyPathProofs.keys map fst]. intros [Hne Hout]%not_elem_of_cons.
  cbn [List.filter fst].
  assert (negb (String.eqb k' k) = true) as ->.
  { apply negb_true_iff, String.eqb_neq. congruence. }
  f_equal. by apply IH.
Qed.

Lemma filter_create_prop k v ps :
  k ∉ KeyPathProofs.keys ps →
  List.filter (fun kv : string * value => negb (String.eqb kv.1 k))
              (create_prop k v ps) = ps.
Proof.
  induction ps as [|[k' x] ps IH]; cbn [KeyPathProofs.keys map fst create_prop].
  - intros _. cbn. by rewrite String.eqb_refl.
  - intros Hout. pose proof Hout as [Hne Hout']%not_elem_of_cons.
    assert (negb (String.eqb k' k) = true) as Hk'.
    { apply negb_true_iff, String.eqb_neq. congruence. }
    destruct (key_le k' k).
    + cbn [List.filter fst]. rewrite Hk'. f_equal. by apply IH.
    + cbn [List.filter fst]. rewrite String.eqb_refl. cbn [negb].
      by apply (filter_absent k ((k', x) :: ps)).
Qed.

Lemma filter_last (lang : string) L :
  lang ∉ L →
  List.filter (fun l => negb (String.eqb l lang)) (L ++ [lang]) = L.
Proof.
  induction L as [|l L IH]; cbn [app List.filter].
  - intros _. by rewrite String.eqb_refl.
  - intros [Hne Hout]%not_elem_of_cons.
    assert (negb (String.eqb l lang) = true) as ->.
    { apply negb_true_iff, String.eqb_neq. congruence. }
    f_equal. by apply IH.
Qed.

(** Removing a language that was just added gives the project back:
    for a project whose translations are a well-formed object holding
    nothing under the name of the new language, adding the language and
    removing it again leaves the project as it was, marked as
    unsaved. *)
Theorem remove_undoes_add langInput s prev ps :
  currentProject s = Some prev →
  trim langInput ≠ "" →
  toLowerCase (trim langInput) ∉ targetLanguages prev →
  translations prev = VObj ps →
  KeyPathProofs.distinct (KeyPathProofs.keys ps) = true →
  KeyPathProofs.in_key_order (KeyPathProofs.keys ps) = true →
  toLowerCase (trim langInput) ∉ KeyPathProofs.keys ps →
  handleRemoveLanguage (toLowerCase (trim langInput))
    (handleAddLanguage langInput s)
  = Ok (with_project (Some prev) true s).
Proof.
  intros Hprev Hne Hout Htr Hd Ho Hkey.
  set (lang := toLowerCase (trim langInput)) in *.
  unfold handleAddLanguage. fold lang.
  apply String.eqb_neq in Hne. rewrite Hne, Hprev.
  rewrite (proj2 (not_listed _ _) Hout).
  unfold handleRemoveLanguage.
  cbn [with_project currentProject translations targetLanguages id name
       masterLanguage masterData lastModified].
  rewrite Htr. unfold spread_with, Object_entries.
  cbn [own_entries is_null is_undefined orb mbind outcome_bind].
  unfold assign_prop. rewrite (KeyPathProofs.lookup_prop_absent _ _ Hkey).
  rewrite filter_create_prop by done. rewrite filter_last by done.
  rewrite fromEntries_entries by done. rewrite <- Htr.
  by destruct prev.
Qed.

Lemma remove_undoes_add_witness :
  handleRemoveLanguage (toLowerCase (trim " IT "))
    (handleAddLanguage " IT " deck_state)
  = Ok (with_project (Some deck) true deck_state).
Proof.
  apply (remove_undoes_add " IT " deck_state deck
           [("de", VObj [("title", VStr "Hallo")])]).
  - reflexivity.
  - discriminate.
  - apply not_listed. reflexivity.
  - reflexivity.
  - reflexivity.
  - reflexivity.
  - apply not_elem_of_cons. split; [discriminate|apply not_elem_of_nil].
Defined.

(** *** Editing a translation *)

(** On a JSON object or array without [null], [setValueByPath] returns
    an object that reads back the value. *)
Lemma set_returns D p v :
  KeyPathProofs.is_object D → KeyPathProofs.json_pure D = true →
  KeyPathProofs.null_free D = true → v ≠ VHole →
  ∃ r, setValueByPath D p v = Ok r
       ∧ KeyPathProofs.is_object r
       ∧ getValueByPath r p = v.
Proof.
  intros Hobj Hpure Hnull Hv.
  destruct (KeyPathProofs.set_walk_returns (removelast (split p)) D
              (List.last (split p) EmptyString) v Hobj Hnull) as [r Hr].
  assert (setValueByPath D p v = Ok r) as Hset.
  { unfold setValueByPath, JSON_parse_stringify.
    rewrite (KeyPathProofs.json_pure_defined _ Hpure).
    cbn [mbind outcome_bind]. by rewrite KeyPathProofs.json_copy_pure. }
  exists r. split; [done|]. split.
  - by eapply KeyPathProofs.set_walk_is_object.
  - by eapply KeyPathProofs.get_after_set.
Qed.

(** An edit is read back: when the translations of the project are an
    object and the document of the language, if there is one, is a JSON
    object or array without [null], and neither the language nor a
    segment of the selected key is a name the prototypes define
    ([__proto__], [constructor], [length] and the like),
    [handleTranslationChange] returns, the editor then shows the typed
    text for that key and language, the key counts as translated
    exactly when the text is not empty, and the documents of the other
    languages are untouched. *)
Theorem edit_is_read_back s prev ps key lang text :
  currentProject s = Some prev →
  key ≠ "" →
  own_path key = true →
  own_name lang = true →
  translations prev = VObj ps →
  KeyPathProofs.is_object (Stats.language_doc (VObj ps) lang) →
  KeyPathProofs.json_pure (Stats.language_doc (VObj ps) lang) = true →
  KeyPathProofs.null_free (Stats.language_doc (VObj ps) lang) = true →
  ∃ updated,
    handleTranslationChange (Some key) lang text s
    = Ok (with_project (Some updated) true s)
    ∧ currentValue updated key lang = VStr text
    ∧ Stats.translated_for (translations updated) key lang
      = negb (String.eqb text "")
    ∧ (∀ l, l ≠ lang →
            get_prop (translations updated) l = get_prop (VObj ps) l)
    ∧ targetLanguages updated = targetLanguages prev
    ∧ masterData updated = masterData prev.
Proof.
  intros Hprev Hkey _ _ Htr Hobj Hpure Hnull.
  destruct (set_returns _ key (VStr text) Hobj Hpure Hnull)
    as (r & Hset & Hr & Hget); [done|].
  unfold handleTranslationChange, change_translation, member.
  apply String.eqb_neq in Hkey. rewrite Hprev, Hkey, Htr.
  cbn [is_null is_undefined orb mbind outcome_bind].
  unfold Stats.language_doc in Hset. rewrite Hset.
  cbn [mbind outcome_bind]. eexists. split; [done|].
  assert (Stats.language_doc (spread_with (VObj ps) lang r) lang = r) as Hdoc.
  { unfold Stats.language_doc, spread_with. cbn [own_entries get_prop].
    unfold read_prop. rewrite KeyPathProofs.lookup_assign_prop.
    by destruct r. }
  unfold currentValue, Stats.translated_for. cbn [translations].
  rewrite Hdoc, Hget. split; [done|]. split.
  - unfold Stats.has_translation. cbn. by rewrite andb_true_r.
  - split; [|done]. intros l Hl. unfold spread_with.
    cbn [own_entries get_prop]. unfold read_prop.
    by rewrite ObjectProofs.lookup_assign_prop_ne.
Qed.

Lemma edit_is_read_back_witness :
  ∃ updated,
    handleTranslationChange (Some "title") "de" "Guten Tag" deck_state
    = Ok (with_project (Some updated) true deck_state)
    ∧ currentValue updated "title" "de" = VStr "Guten Tag"
    ∧ Stats.translated_for (translations updated) "title" "de"
      = negb (String.eqb "Guten Tag" "")
    ∧ (∀ l, l ≠ "de" →
            get_prop (translations updated) l
            = get_prop (VObj [("de", VObj [("title", VStr "Hallo")])]) l)
    ∧ targetLanguages updated = targetLanguages deck
    ∧ masterData updated = masterData deck.
Proof.
  apply (edit_is_read_back deck_state deck
           [("de", VObj [("title", VStr "Hallo")])] "title" "de" "Guten Tag").
  - reflexivity.
  - discriminate.
  - reflexivity.
  - reflexivity.
  - reflexivity.
  - exact I.
  - reflexivity.
  - reflexivity.
Defined.

(** *** Renaming a local project *)

(** A rename writes the copy of the project that the list of projects
    holds, under its new trimmed name: that copy replaces what the
    store held under the id, and it becomes the open project when the
    renamed project is the open one, whatever the store and the open
    project held before.  The other stored projects and the shared
    store are untouched, and the list keeps its ids. *)
Theorem rename_writes_listed_copy f now projectId newName w es project :
  local_write_fails f = false →
  trim newName ≠ "" →
  List.find (fun p => String.eqb (id p) projectId) (projects (base es))
  = Some project →
  trim newName ≠ name project →
  ∃ w' es',
    handleRenameProject f now projectId newName w es = (w', es')
    ∧ loadProject projectId (local w')
      = Some (SessionProofs.stamped now (renamed project (trim newName)))
    ∧ (∀ i, i ≠ projectId → loadProject i (local w') = loadProject i (local w))
    ∧ (∀ current,
         currentProject (base es) = Some current → id current = projectId →
         currentProject (base es') = Some (renamed project (trim newName)))
    ∧ map id (projects (base es')) = map id (projects (base es))
    ∧ cloud w' = cloud w.
Proof.
  intros Hf Hne Hfind Hname.
  pose proof (find_some _ _ Hfind) as [_ Hid]. apply String.eqb_eq in Hid.
  unfold handleRenameProject.
  apply String.eqb_neq in Hne, Hname. rewrite Hne, Hfind, Hname, Hf.
  eexists _, _. split; [done|]. cbn [local cloud base].
  split; [|split; [|split; [|split]]].
  - rewrite <- Hid.
    apply (SessionProofs.saveProject_load now
             (renamed project (trim newName))).
  - intros i Hi. apply SessionProofs.saveProject_load_other.
    cbn [renamed id]. congruence.
  - intros current Hcur Hcid. rewrite Hcur.
    apply String.eqb_eq in Hcid. by rewrite Hcid.
  - destruct (currentProject (base es)) as [current|];
      [destruct (String.eqb (id current) projectId)|];
      cbn [with_project with_projects projects];
      rewrite map_map; apply map_ext_in; intros p' _;
      destruct (String.eqb_spec (id p') projectId); cbn [renamed id];
      congruence.
  - done.
Qed.

(** The list still holds the project as it was imported; the store
    holds a later, saved edit of it.  Renaming writes the listed copy. *)
Definition deck_edited : TranslationProject :=
  mkTranslationProject "local-7" "deck" "en" ["de"]
    (VObj [("title", VStr "Hello")])
    (VObj [("de", VObj [("title", VStr "Guten Tag")])]) 20.

Definition deck_world : World :=
  mkWorld {["local-7" := deck_edited]} "alice" None
          (Cloud.mkDB ∅ ∅ [] []).

Definition deck_home : EditorState :=
  mkEditorState
    (mkState (Some deck_edited) None viewer false false (Some 20%Z) None
             [deck] [])
    home_view None (Some deck) "slides".

Lemma rename_writes_listed_copy_witness :
  loadProject "local-7"
    (local (handleRenameProject SessionProofs.no_faults 30 "local-7" " slides "
              deck_world deck_home).1)
  = Some (SessionProofs.stamped 30 (renamed deck "slides")).
Proof.
  destruct (rename_writes_listed_copy SessionProofs.no_faults 30 "local-7"
              " slides " deck_world deck_home deck)
    as (w' & es' & Hrun & Hload & _); [reflexivity|discriminate|reflexivity
                                       |discriminate|].
  rewrite Hrun. exact Hload.
Defined.

(** *** Importing a file *)

Lemma lower_not_dot c : is_lower c = true → c ≠ "."%char.
Proof. intros H ->. discriminate. Qed.

Lemma upper_not_dot c : is_upper c = true → c ≠ "."%char.
Proof. intros H ->. discriminate. Qed.

Lemma remove_first_skip c rest :
  c ≠ "."%char →
  remove_first ".json" (String c rest) = String c (remove_first ".json" rest).
Proof.
  intros Hc. cbn [remove_first String.prefix].
  destruct (ascii_dec "." c) as [Heq|_]; [by rewrite Heq in Hc|done].
Qed.

(** The names that [langMatch] accepts: the locale followed by
    [.json]; such a file gives its locale as the name of the project. *)
Lemma langMatch_Some fileName l :
  langMatch fileName = Some l →
  fileName = l +:+ ".json" ∧ remove_first ".json" fileName = l.
Proof.
  unfold langMatch.
  destruct fileName as [|a [|b rest]]; try discriminate.
  destruct (is_lower a) eqn:Ha; [|discriminate].
  destruct (is_lower b) eqn:Hb; [|discriminate]. cbn [andb].
  apply lower_not_dot in Ha, Hb.
  destruct (String.eqb_spec rest ".json") as [->|Hrest].
  - intros [= <-]. split; [done|].
    rewrite !remove_first_skip by done. reflexivity.
  - destruct rest as [|dash [|c [|d rest']]]; try discriminate;
      destruct dash as [[] [] [] [] [] [] [] []]; try discriminate.
    destruct (is_upper c) eqn:Hc; [|discriminate].
    destruct (is_upper d) eqn:Hd; [|discriminate]. cbn [andb].
    apply upper_not_dot in Hc, Hd.
    destruct (String.eqb_spec rest' ".json") as [->|]; [|discriminate].
    intros [= <-]. split; [done|].
    rewrite !remove_first_skip by done. reflexivity.
Qed.

(** Importing a file opens a new local project, stored under the fresh
    id, whose master data is the parsed content whatever JSON value it
    is, with no target language and no translation, and not linked to
    any shared project.  A file named after a locale, [xx.json] or
    [xx-YY.json], gives that locale as the name and as the master
    language of the project; any other file name gives [en] as the
    master language. *)
Theorem import_opens_local_project f created now uuid fileName data w es :
  local_write_fails f = false →
  ∃ project w' es',
    handleFileUpload f created now uuid fileName (Ok data) w es = (w', es')
    ∧ currentProject (base es') = Some project
    ∧ currentCloudProject (base es') = None
    ∧ loadProject uuid (local w') = Some (SessionProofs.stamped now project)
    ∧ id project = uuid
    ∧ masterData project = data
    ∧ targetLanguages project = []
    ∧ translations project = VObj []
    ∧ match langMatch fileName with
      | Some l =>
          fileName = l +:+ ".json" ∧ name project = l
          ∧ masterLanguage project = l
      | None => masterLanguage project = "en"
      end.
Proof.
  intros Hf. unfold handleFileUpload. rewrite Hf.
  eexists _, _, _. split; [done|]. cbn [base currentProject currentCloudProject
    local id masterData targetLanguages translations name masterLanguage].
  split; [done|]. split; [done|]. split.
  { apply (SessionProofs.saveProject_load now
             (mkTranslationProject uuid _ _ _ _ _ _)). }
  split; [done|]. split; [done|]. split; [done|]. split; [done|].
  destruct (langMatch fileName) as [l|] eqn:Hl; [|done].
  apply langMatch_Some in Hl as [Hname Hrm]. by rewrite Hrm.
Qed.

Lemma import_opens_local_project_witness :
  ∃ project w' es',
    handleFileUpload SessionProofs.no_faults 5 6 "local-9" "pt-BR.json"
      (Ok (VObj [("title", VStr "Ola")])) deck_world deck_home = (w', es')
    ∧ currentProject (base es') = Some project
    ∧ currentCloudProject (base es') = None
    ∧ loadProject "local-9" (local w') = Some (SessionProofs.stamped 6 project)
    ∧ id project = "local-9"
    ∧ masterData project = VObj [("title", VStr "Ola")]
    ∧ targetLanguages project = []
    ∧ translations project = VObj []
    ∧ match langMatch "pt-BR.json" with
      | Some l =>
          "pt-BR.json" = l +:+ ".json" ∧ name project = l
          ∧ masterLanguage project = l
      | None => masterLanguage project = "en"
      end.
Proof.
  apply (import_opens_local_project SessionProofs.no_faults 5 6 "local-9"
           "pt-BR.json" (VObj [("title", VStr "Ola")]) deck_world deck_home).
  reflexivity.
Defined.

(** *** Uploading, then saving *)




End EditorProofs.

(* ================================================================== *)
(** ** Properties of [buildKeyTree] on arbitrary keys                 *)
(* ================================================================== *)

Module TreeProofs.
Import JS KeyPath.

(** *** Finding and updating a node *)

Lemma find_node_name part level n :
  find_node part level = Some n → name n = part.
Proof.
  unfold find_node. intros [_ H]%find_some. by apply String.eqb_eq.
Qed.

Lemma find_node_none part level :
  find_node part level = None → part ∉ map name level.
Proof.
  unfold find_node. intros Hn (n & -> & Hin)%list_elem_of_fmap.
  apply list_elem_of_In in Hin.
  pose proof (find_none _ _ Hn n Hin) as H. cbn in H.
  by rewrite String.eqb_refl in H.
Qed.

Lemma find_node_app part level n more :
  find_node part level = Some n → find_node part (level ++ more) = Some n.
Proof.
  unfold find_node. induction level as [|m level IH]; [done|].
  cbn [app List.find]. by destruct (String.eqb (name m) part).
Qed.

Lemma update_found_names part f level :
  (∀ n, name (f n) = name n) →
  map name (update_found part f level) = map name level.
Proof.
  intros Hf. induction level as [|m level IH]; [done|]. cbn [update_found].
  destruct (String.eqb (name m) part); cbn [map]; [by rewrite Hf|].
  by rewrite IH.
Qed.

Lemma update_found_same part f level n :
  find_node part level = Some n → f n = n →
  update_found part f level = level.
Proof.
  unfold find_node. intros Hfind Hf.
  induction level as [|m level IH]; [done|].
  cbn [List.find update_found] in *.
  destruct (String.eqb (name m) part).
  - injection Hfind as ->. by rewrite Hf.
  - by rewrite IH.
Qed.

Lemma find_node_update part f level n :
  (∀ n, name (f n) = name n) →
  find_node part level = Some n →
  find_node part (update_found part f level) = Some (f n).
Proof.
  unfold find_node. intros Hf.
  induction level as [|m level IH]; [done|].
  cbn [List.find update_found].
  destruct (String.eqb (name m) part) eqn:Hm; cbn [List.find].
  - intros [= <-]. by rewrite Hf, Hm.
  - by rewrite Hm.
Qed.

Lemma find_node_update_other part other f level :
  (∀ n, name (f n) = name n) → part ≠ other →
  find_node part (update_found other f level) = find_node part level.
Proof.
  unfold find_node. intros Hf Hne.
  induction level as [|m level IH]; [done|].
  cbn [List.find update_found].
  destruct (String.eqb_spec (name m) other) as [Hm|Hm]; cbn [List.find].
  - rewrite Hf.
    destruct (String.eqb_spec (name m) part); [congruence|done].
  - by rewrite IH.
Qed.

(** The function that [insert_parts] applies to the node it found. *)
Definition descend (currentPath : string) (rest : list string)
                   (existing : KeyNode) : KeyNode :=
  mkKeyNode (name existing) (path existing) (isLeaf existing)
            (insert_parts (children existing) currentPath rest).

Lemma descend_name currentPath rest n :
  name (descend currentPath rest n) = name n.
Proof. done. Qed.

Lemma insert_parts_cons level currentPath part rest :
  insert_parts level currentPath (part :: rest)
  = match find_node part level with
    | Some _ =>
        if is_last rest then level
        else update_found part (descend (join_key currentPath part) rest) level
    | None =>
        level ++
          [mkKeyNode part (join_key currentPath part) (is_last rest)
             (if is_last rest then []
              else insert_parts [] (join_key currentPath part) rest)]
    end.
Proof. reflexivity. Qed.

(** *** A key that is already there *)

(** The chain of nodes that [parts] names is in the level. *)
Fixpoint has_path (level : list KeyNode) (parts : list string) : Prop :=
  match parts with
  | [] => True
  | part :: rest =>
      match find_node part level with
      | Some n => has_path (children n) rest
      | None => False
      end
  end.

Lemma insert_present parts : ∀ level currentPath,
  has_path level parts → insert_parts level currentPath parts = level.
Proof.
  induction parts as [|part rest IH]; intros level currentPath; [done|].
  cbn [has_path]. rewrite insert_parts_cons.
  destruct (find_node part level) as [n|] eqn:Hfind; [|done].
  intros Hrest. destruct (is_last rest); [done|].
  apply (update_found_same _ _ _ n Hfind).
  unfold descend. rewrite IH by done. by destruct n.
Qed.

Lemma has_path_inserted parts : ∀ level currentPath,
  has_path (insert_parts level currentPath parts) parts.
Proof.
  induction parts as [|part rest IH]; intros level currentPath; [done|].
  rewrite insert_parts_cons. cbn [has_path].
  destruct (find_node part level) as [n|] eqn:Hfind.
  - destruct rest as [|r rest]; cbn [is_last].
    + by rewrite Hfind.
    + rewrite (find_node_update _ _ _ n (descend_name _ _) Hfind).
      cbn [descend children]. apply IH.
  - rewrite (KeyPathProofs.find_node_last part level); [|by apply find_node_none|done].
    cbn [children]. destruct rest as [|r rest]; [done|]. cbn [is_last].
    apply IH.
Qed.

Lemma has_path_kept parts : ∀ level currentPath others,
  has_path level parts →
  has_path (insert_parts level currentPath others) parts.
Proof.
  induction parts as [|part rest IH]; intros level currentPath others; [done|].
  cbn [has_path]. destruct (find_node part level) as [n|] eqn:Hfind; [|done].
  intros Hrest. destruct others as [|other others];
    [cbn [insert_parts]; by rewrite Hfind|].
  rewrite insert_parts_cons.
  destruct (find_node other level) as [m|] eqn:Hother.
  - destruct (is_last others); [by rewrite Hfind|].
    destruct (String.eqb_spec part other) as [->|Hne].
    + rewrite (find_node_update _ _ _ n (descend_name _ _) Hfind).
      cbn [descend children]. by apply IH.
    + rewrite (find_node_update_other _ _ _ _ (descend_name _ _) Hne), Hfind.
      done.
  - by rewrite (find_node_app _ _ n _ Hfind).
Qed.

Lemma has_path_built keys k : ∀ root,
  k ∈ keys ∨ has_path root (split k) →
  has_path (fold_left (fun root key => insert_parts root "" (split key))
                      keys root)
           (split k).
Proof.
  induction keys as [|key keys IH]; intros root [Hin|Hp]; cbn [fold_left].
  - by apply elem_of_nil in Hin.
  - done.
  - apply IH. apply elem_of_cons in Hin as [->|Hin]; [right|by left].
    apply has_path_inserted.
  - apply IH. right. by apply has_path_kept.
Qed.

(** A key that occurs again later in the list adds nothing: the tree is
    the one built without the later occurrence. *)
Theorem repeated_key_adds_nothing keys k more :
  k ∈ keys →
  buildKeyTree (keys ++ k :: more) = buildKeyTree (keys ++ more).
Proof.
  intros Hin. unfold buildKeyTree. rewrite !fold_left_app. cbn [fold_left].
  f_equal. apply insert_present. apply has_path_built. by left.
Qed.

Lemma repeated_key_adds_nothing_witness :
  buildKeyTree (["a.b"; "c"] ++ "a.b" :: ["a.d"])
  = buildKeyTree (["a.b"; "c"] ++ ["a.d"]).
Proof.
  apply repeated_key_adds_nothing. apply elem_of_cons. by left.
Defined.

(** *** Siblings and leaves *)

(** No two nodes of a level have the same name, at any depth. *)
Unset Elimination Schemes.
Inductive unique_names : list KeyNode → Prop :=
| unique_names_intro level :
    NoDup (map name level) →
    Forall (fun n => unique_names (children n)) level →
    unique_names level.
Set Elimination Schemes.

Lemma unique_names_nil : unique_names [].
Proof. constructor; [apply NoDup_nil_2|apply Forall_nil_2]. Qed.

Lemma Forall_update_found (P : KeyNode → Prop) part f level :
  (∀ n, P n → P (f n)) → Forall P level →
  Forall P (update_found part f level).
Proof.
  intros Hf. induction 1 as [|m level Hm Hl IH]; cbn [update_found].
  - constructor.
  - destruct (String.eqb (name m) part); constructor; auto.
Qed.

Lemma unique_names_insert parts : ∀ level currentPath,
  unique_names level → unique_names (insert_parts level currentPath parts).
Proof.
  induction parts as [|part rest IH]; intros level currentPath Hu; [done|].
  rewrite insert_parts_cons. destruct Hu as [level Hnd Hall].
  destruct (find_node part level) as [n|] eqn:Hfind.
  - destruct (is_last rest); [by constructor|]. constructor.
    + by rewrite (update_found_names _ _ _ (descend_name _ _)).
    + apply Forall_update_found; [|done]. intros m Hm.
      cbn [descend children]. by apply IH.
  - constructor.
    + rewrite map_app. cbn [map name]. apply NoDup_app. split; [done|]. split.
      * intros x Hx [=->]%list_elem_of_singleton.
        by apply find_node_none in Hfind.
      * apply NoDup_singleton.
    + apply Forall_app. split; [done|]. constructor; [|constructor].
      cbn [children]. destruct (is_last rest); [apply unique_names_nil|].
      apply IH, unique_names_nil.
Qed.

Lemma tree_leaf_paths_app l1 l2 :
  tree_leaf_paths (l1 ++ l2) = tree_leaf_paths l1 ++ tree_leaf_paths l2.
Proof. unfold tree_leaf_paths. by rewrite map_app, concat_app. Qed.

Lemma leaf_in_tree level n p :
  n ∈ level → p ∈ leaf_paths n → p ∈ tree_leaf_paths level.
Proof.
  intros Hn Hp. unfold tree_leaf_paths. apply list_elem_of_In, in_concat.
  exists (leaf_paths n). split.
  - apply in_map. by apply list_elem_of_In.
  - by apply list_elem_of_In.
Qed.

Lemma find_node_in part level n : find_node part level = Some n → n ∈ level.
Proof.
  unfold find_node. intros [H _]%find_some. by apply list_elem_of_In.
Qed.

Lemma leaves_update_found part f level p :
  p ∈ tree_leaf_paths (update_found part f level) →
  p ∈ tree_leaf_paths level
  ∨ ∃ n, find_node part level = Some n ∧ p ∈ leaf_paths (f n).
Proof.
  unfold find_node.
  induction level as [|m level IH]; cbn [update_found List.find]; [by left|].
  destruct (String.eqb (name m) part).
  - change (f m :: level) with ([f m] ++ level).
    change (m :: level) with ([m] ++ level).
    rewrite !tree_leaf_paths_app. intros [Hp|Hp]%elem_of_app.
    + right. exists m. split; [done|].
      unfold tree_leaf_paths in Hp. cbn in Hp. by rewrite app_nil_r in Hp.
    + left. apply elem_of_app. by right.
  - change (m :: update_found part f level)
      with ([m] ++ update_found part f level).
    change (m :: level) with ([m] ++ level).
    rewrite !tree_leaf_paths_app. intros [Hp|Hp]%elem_of_app.
    + left. apply elem_of_app. by left.
    + destruct (IH Hp) as [H|H]; [|by right].
      left. apply elem_of_app. by right.
Qed.

(** A leaf that an insertion adds bears the path of the inserted key. *)
Lemma leaves_insert parts : ∀ level currentPath p,
  p ∈ tree_leaf_paths (insert_parts level currentPath parts) →
  p ∈ tree_leaf_paths level
  ∨ parts ≠ [] ∧ p = KeyPathProofs.join_parts currentPath parts.
Proof.
  induction parts as [|part rest IH]; intros level currentPath p;
    [by left|].
  rewrite insert_parts_cons.
  destruct (find_node part level) as [n|] eqn:Hfind.
  - destruct rest as [|r rest]; cbn [is_last]; [by left|].
    intros [Hp|(m & Hm & Hp)]%leaves_update_found; [by left|].
    rewrite Hfind in Hm. injection Hm as <-.
    pose proof (find_node_in _ _ _ Hfind) as Hin.
    destruct n as [nn np [] cs]; unfold descend in Hp;
      cbn [name path isLeaf children] in Hp.
    + left. by apply (leaf_in_tree level (mkKeyNode nn np true cs)).
    + rewrite StatsProofs.leaf_paths_folder in Hp.
      destruct (IH _ _ _ Hp) as [Hold|[_ ->]].
      * left. apply (leaf_in_tree level (mkKeyNode nn np false cs)); [done|].
        by rewrite StatsProofs.leaf_paths_folder.
      * right. by split.
  - rewrite tree_leaf_paths_app. intros [Hp|Hp]%elem_of_app; [by left|].
    right. split; [done|].
    unfold tree_leaf_paths in Hp. cbn [map concat] in Hp.
    rewrite app_nil_r in Hp.
    destruct rest as [|r rest]; cbn [is_last] in Hp.
    + cbn [leaf_paths] in Hp. by apply list_elem_of_singleton in Hp as ->.
    + rewrite StatsProofs.leaf_paths_folder in Hp.
      destruct (IH _ _ _ Hp) as [Hnil|[_ ->]]; [|done].
      by apply elem_of_nil in Hnil.
Qed.

(** *** Joining the parts of a key *)

(** The parts of a path, joined by dots. *)
Definition dotted (parts : list string) : string :=
  match parts with
  | [] => ""
  | part :: rest => fold_left (fun acc q => acc +:+ "." +:+ q) rest part
  end.

Lemma append_assoc (a b c : string) : (a +:+ b) +:+ c = a +:+ (b +:+ c).
Proof.
  induction a as [|x a IH]; [done|].
  change (String x ((a +:+ b) +:+ c) = String x (a +:+ (b +:+ c))).
  by f_equal.
Qed.

Lemma dotted_from rest : ∀ x y,
  fold_left (fun acc q => acc +:+ "." +:+ q) rest (x +:+ y)
  = x +:+ fold_left (fun acc q => acc +:+ "." +:+ q) rest y.
Proof.
  induction rest as [|q rest IH]; intros x y; [done|]. cbn [fold_left].
  by rewrite append_assoc, IH.
Qed.

Lemma dotted_split s : dotted (split s) = s.
Proof.
  induction s as [|c s IH]; [done|]. cbn [split].
  pose proof (KeyPathProofs.split_not_nil s) as Hne.
  destruct (split s) as [|part parts]; [done|].
  destruct (Ascii.eqb_spec c ".") as [->|Hc]; cbn [dotted] in *.
  - cbn [fold_left]. change ("" +:+ "." +:+ part) with ("." +:+ part).
    by rewrite dotted_from, IH.
  - change (String c part) with (String c "" +:+ part).
    by rewrite dotted_from, IH.
Qed.

Lemma join_parts_dotted rest : ∀ acc,
  acc ≠ "" →
  KeyPathProofs.join_parts acc rest
  = fold_left (fun acc q => acc +:+ "." +:+ q) rest acc.
Proof.
  unfold KeyPathProofs.join_parts.
  induction rest as [|q rest IH]; intros acc Hacc; [done|]. cbn [fold_left].
  rewrite KeyPathProofs.join_key_dotted by done.
  apply IH. by apply KeyPathProofs.append_not_empty.
Qed.

(** The path that [buildKeyTree] gives to the last node of a key is the
    key, unless the key starts with a dot. *)
Lemma join_split k :
  String.get 0 k ≠ Some "."%char →
  KeyPathProofs.join_parts "" (split k) = k.
Proof.
  intros Hk. rewrite <- (dotted_split k) at 2.
  destruct k as [|c k]; [done|]. cbn [split] in *.
  destruct (Ascii.eqb_spec c ".") as [->|Hc]; [done|].
  pose proof (KeyPathProofs.split_not_nil k) as Hne.
  destruct (split k) as [|part parts]; [done|].
  unfold KeyPathProofs.join_parts. cbn [fold_left dotted].
  change (join_key "" (String c part)) with (String c part).
  by apply (join_parts_dotted parts (String c part)).
Qed.

Lemma leaves_built keys p : ∀ root,
  p ∈ tree_leaf_paths
        (fold_left (fun root key => insert_parts root "" (split key))
                   keys root) →
  p ∈ tree_leaf_paths root
  ∨ ∃ k, k ∈ keys ∧ p = KeyPathProofs.join_parts "" (split k).
Proof.
  induction keys as [|key keys IH]; intros root; cbn [fold_left]; [by left|].
  intros [Hp|(k & Hk & ->)]%IH.
  - apply leaves_insert in Hp as [Hp|[_ ->]]; [by left|].
    right. exists key. split; [apply elem_of_cons; by left|done].
  - right. exists k. split; [apply elem_of_cons; by right|done].
Qed.

(** Whatever the keys, no two siblings of the tree have the same name;
    and when no key starts with a dot, every leaf of the tree bears the
    path of one of the keys, so that the overview counts nothing but
    keys. *)
Theorem tree_of_any_keys keys :
  unique_names (buildKeyTree keys)
  ∧ ((∀ k, k ∈ keys → String.get 0 k ≠ Some "."%char) →
     ∀ p, p ∈ tree_leaf_paths (buildKeyTree keys) → p ∈ keys).
Proof.
  split.
  - unfold buildKeyTree. generalize unique_names_nil.
    generalize (@nil KeyNode) as root.
    induction keys as [|key keys IH]; intros root Hroot; [done|].
    cbn [fold_left]. by apply IH, unique_names_insert.
  - intros Hkeys p Hp. unfold buildKeyTree in Hp.
    apply leaves_built in Hp as [Hp|(k & Hk & ->)].
    + by apply elem_of_nil in Hp.
    + by rewrite join_split; [|apply Hkeys].
Qed.

(** A key that starts with a dot loses it in the path of its leaf. *)
Lemma leading_dot_is_dropped :
  tree_leaf_paths (buildKeyTree [".a"]) = ["a"].
Proof. reflexivity. Qed.

End TreeProofs.

(* ================================================================== *)
(** ** Setting one path leaves the other paths alone                  *)
(* ================================================================== *)

Module FrameProofs.
Import JS KeyPath.

(** *** Array indices are canonical *)

Lemma digit_of_lt c d : digit_of c = Some d → (d < 10)%N.
Proof.
  unfold digit_of.
  destruct ((48 <=? N_of_ascii c) && (N_of_ascii c <=? 57))%N eqn:H;
    [|discriminate].
  apply andb_true_iff in H as [H1%N.leb_le H2%N.leb_le]. intros [= <-]. lia.
Qed.

Lemma digit_of_inj c1 c2 d :
  digit_of c1 = Some d → digit_of c2 = Some d → c1 = c2.
Proof.
  unfold digit_of.
  destruct ((48 <=? N_of_ascii c1) && (N_of_ascii c1 <=? 57))%N eqn:H1;
    [|discriminate].
  destruct ((48 <=? N_of_ascii c2) && (N_of_ascii c2 <=? 57))%N eqn:H2;
    [|discriminate].
  apply andb_true_iff in H1 as [H1%N.leb_le _].
  apply andb_true_iff in H2 as [H2%N.leb_le _].
  intros [= <-] [= Heq].
  rewrite <- (ascii_N_embedding c1), <- (ascii_N_embedding c2).
  f_equal. lia.
Qed.

Lemma digit_of_zero c : digit_of c = Some 0%N → c = "0"%char.
Proof. intros H. by apply (digit_of_inj c "0" 0). Qed.

Lemma digits_value_ge s : ∀ acc n,
  digits_value s acc = Some n → (acc ≤ n)%N.
Proof.
  induction s as [|c s IH]; intros acc n; cbn [digits_value].
  - intros [= <-]. lia.
  - destruct (digit_of c) as [d|]; [|discriminate].
    intros H%IH. lia.
Qed.

Lemma digits_same_length s : ∀ t x y n,
  String.length s = String.length t →
  digits_value s x = Some n → digits_value t y = Some n →
  x = y ∧ s = t.
Proof.
  induction s as [|c s IH]; intros [|e t] x y n; try discriminate;
    cbn [String.length digits_value].
  - intros _ [= <-] [= <-]. done.
  - intros [= Hlen].
    destruct (digit_of c) as [dc|] eqn:Hc; [|discriminate].
    destruct (digit_of e) as [de|] eqn:He; [|discriminate].
    intros Hs Ht. destruct (IH _ _ _ _ Hlen Hs Ht) as [Hacc ->].
    pose proof (digit_of_lt _ _ Hc). pose proof (digit_of_lt _ _ He).
    assert (dc = de) as -> by lia.
    split; [lia|]. f_equal. by eapply digit_of_inj.
Qed.

Lemma digits_shorter t : ∀ s x y n,
  (String.length s ≤ String.length t)%nat → (x < y)%N →
  digits_value s x = Some n → digits_value t y = Some n → False.
Proof.
  induction t as [|e t IH]; intros [|c s] x y n; cbn [String.length].
  - intros _ Hlt [= <-] [= <-]. lia.
  - lia.
  - intros _ Hlt [= <-] Ht%digits_value_ge. lia.
  - intros Hlen Hlt. cbn [digits_value].
    destruct (digit_of c) as [dc|] eqn:Hc; [|discriminate].
    destruct (digit_of e) as [de|] eqn:He; [|discriminate].
    pose proof (digit_of_lt _ _ Hc). pose proof (digit_of_lt _ _ He).
    apply IH; lia.
Qed.

Lemma array_index_nonzero c s :
  c ≠ "0"%char →
  array_index (String c s)
  = match digits_value (String c s) 0 with
    | Some n => if (n <? 4294967295)%N then Some n else None
    | None => None
    end.
Proof.
  intros Hc. destruct c as [[] [] [] [] [] [] [] []]; try reflexivity.
  congruence.
Qed.

(** What [array_index] accepts: ["0"], or digits that do not start with
    a zero. *)
Lemma array_index_cases s n :
  array_index s = Some n →
  s = "0" ∧ n = 0%N
  ∨ ∃ c r d, s = String c r ∧ digit_of c = Some d ∧ (1 ≤ d)%N
             ∧ digits_value r d = Some n.
Proof.
  destruct s as [|c r]; [discriminate|].
  destruct (Ascii.eqb_spec c "0") as [->|Hc].
  - destruct r; [|discriminate]. intros [= <-]. by left.
  - rewrite array_index_nonzero by done. cbn [digits_value].
    destruct (digit_of c) as [d|] eqn:Hd; [|discriminate].
    change (10 * 0 + d)%N with d.
    destruct (digits_value r d) as [m|] eqn:Hm; [|discriminate].
    destruct (m <? 4294967295)%N; [|discriminate]. intros [= <-].
    right. exists c, r, d. repeat split; try done.
    destruct (N.eq_dec d 0%N) as [->|]; [|lia].
    by apply digit_of_zero in Hd.
Qed.

(** Two keys that denote the same index are the same key. *)
Lemma array_index_inj s t n :
  array_index s = Some n → array_index t = Some n → s = t.
Proof.
  intros [[-> ->]|(c & r & d & -> & Hc & Hd & Hr)]%array_index_cases
         [[-> Hn]|(e & u & d' & -> & He & Hd' & Hu)]%array_index_cases.
  - done.
  - apply digits_value_ge in Hu. lia.
  - subst n. apply digits_value_ge in Hr. lia.
  - destruct (Nat.lt_trichotomy (String.length r) (String.length u))
      as [Hlt|[Heq|Hgt]].
    + exfalso. destruct u as [|e' u]; [cbn in Hlt; lia|].
      cbn [digits_value] in Hu.
      destruct (digit_of e') as [de|] eqn:He'; [|discriminate].
      pose proof (digit_of_lt _ _ Hc). pose proof (digit_of_lt _ _ He').
      apply (digits_shorter u r d (10 * d' + de)%N n);
        [cbn in Hlt; lia|lia|done|done].
    + destruct (digits_same_length _ _ _ _ _ Heq Hr Hu) as [-> ->].
      f_equal. by eapply digit_of_inj.
    + exfalso. destruct r as [|c' r]; [cbn in Hgt; lia|].
      cbn [digits_value] in Hr.
      destruct (digit_of c') as [dc|] eqn:Hc'; [|discriminate].
      pose proof (digit_of_lt _ _ He). pose proof (digit_of_lt _ _ Hc').
      apply (digits_shorter r u d' (10 * d + dc)%N n);
        [cbn in Hgt; lia|lia|done|done].
Qed.

(** *** Writing one property, reading another *)

Lemma read_write_empty v : ∀ i j,
  i ≠ j → read_elem (write_elem [] i v) j = VUndef.
Proof.
  unfold read_elem.
  induction i as [|i IH]; intros [|j] Hne; cbn [write_elem nth_error];
    try done.
  - by destruct j.
  - apply IH. congruence.
Qed.

Lemma read_write_other es v : ∀ i j,
  i ≠ j → read_elem (write_elem es i v) j = read_elem es j.
Proof.
  induction es as [|e es IH]; intros i j Hne.
  - rewrite read_write_empty by done. unfold read_elem. by destruct j.
  - destruct i as [|i], j as [|j]; cbn [write_elem]; try done.
    unfold read_elem in *. cbn [nth_error]. apply IH. congruence.
Qed.

Lemma lookup_assign_extra_ne k k' v ps :
  k ≠ k' → lookup_prop k (assign_extra k' v ps) = lookup_prop k ps.
Proof.
  intros Hne. unfold assign_extra. destruct (lookup_prop k' ps).
  - by apply ObjectProofs.lookup_replace_prop_ne.
  - rewrite KeyPathProofs.lookup_prop_app. cbn [lookup_prop].
    destruct (String.eqb_spec k' k); [congruence|].
    by destruct (lookup_prop k ps).
Qed.

(** An assignment to the key [a] does not change what the other keys
    read. *)
Lemma get_set_prop_other o a b v r :
  a ≠ b → set_prop o a v = Ok r → get_prop r b = get_prop o b.
Proof.
  intros Hne. destruct o as [| | | | | |es ps|ps]; try discriminate;
    cbn [set_prop].
  - destruct (array_index a) as [i|] eqn:Ha; intros [= <-]; cbn [get_prop].
    + destruct (array_index b) as [j|] eqn:Hb; [|done].
      apply read_write_other. intros Heq%(inj N.to_nat). subst j.
      apply Hne. by eapply array_index_inj.
    + destruct (array_index b); [done|]. unfold read_prop.
      by rewrite lookup_assign_extra_ne.
  - intros [= <-]. cbn [get_prop]. unfold read_prop.
    by rewrite ObjectProofs.lookup_assign_prop_ne.
Qed.

(** *** The walk *)

(** [set_walk] on the parts of a path, the last one included. *)
Definition set_parts (current : value) (full : list string) (v : value)
  : outcome value :=
  set_walk current (removelast full) (List.last full EmptyString) v.

Lemma set_parts_cons current part next rest v :
  set_parts current (part :: next :: rest) v
  = (present ← has_prop current part;
     let repair :=
       negb present
       || negb (js_type_eqb (typeof (get_prop current part)) TObject) in
     current' ← (if repair then set_prop current part (VObj [])
                 else Ok current);
     child ← set_parts (get_prop current' part) (next :: rest) v;
     set_prop current' part child).
Proof. reflexivity. Qed.

Lemma set_parts_succeeds_on_object current part rest v r :
  set_parts current (part :: rest) v = Ok r →
  KeyPathProofs.is_object current.
Proof.
  destruct rest as [|next rest].
  - unfold set_parts. cbn [removelast List.last set_walk].
    by destruct current.
  - rewrite set_parts_cons. by destruct current.
Qed.

(** A step of the walk of [setValueByPath] through [part]: the value
    found under [part] afterwards is the result of the walk below it,
    and the other keys read as before. *)
Lemma set_parts_step current part next rest v r :
  set_parts current (part :: next :: rest) v = Ok r →
  ∃ (repaired : bool) child,
    set_parts (if repaired then VObj [] else get_prop current part)
              (next :: rest) v = Ok child
    ∧ (repaired = true → ¬ KeyPathProofs.is_object (get_prop current part))
    ∧ get_prop r part = child
    ∧ KeyPathProofs.is_object r
    ∧ ∀ other, other ≠ part → get_prop r other = get_prop current other.
Proof.
  rewrite set_parts_cons.
  destruct (has_prop current part) as [present|] eqn:Hpresent;
    [|discriminate]. cbn [mbind outcome_bind].
  set (repair := negb present
                 || negb (js_type_eqb (typeof (get_prop current part)) TObject)).
  destruct repair eqn:Hrepair.
  - destruct (set_prop current part (VObj [])) as [current'|] eqn:Hc;
      [|discriminate]. cbn [mbind outcome_bind].
    assert (get_prop current' part = VObj []) as Hempty.
    { by eapply KeyPathProofs.get_set_prop. }
    rewrite Hempty.
    destruct (set_parts (VObj []) (next :: rest) v) as [child|] eqn:Hchild;
      [|discriminate]. cbn [mbind outcome_bind]. intros Hr.
    pose proof (set_parts_succeeds_on_object _ _ _ _ _ Hchild) as Hobj.
    exists true, child. split; [done|]. split.
    + intros _ Hcur. subst repair.
      apply orb_true_iff in Hrepair as [Hp|Ht].
      * (* absent: the property reads undefined *)
        apply negb_true_iff in Hp. subst.
        destruct current as [| | | | | |es ps|ps]; try discriminate;
          cbn [has_prop get_prop] in *.
        -- destruct (array_index part).
           ++ injection Hpresent as Hpresent. unfold has_elem in Hpresent.
              unfold read_elem in Hcur.
              by destruct (nth_error es (N.to_nat n)) as [[]|].
           ++ injection Hpresent as Hpresent.
              apply bool_decide_eq_false_1 in Hpresent.
              unfold read_prop in Hcur.
              destruct (lookup_prop part ps); [|done].
              by destruct Hpresent.
        -- injection Hpresent as Hpresent.
           apply bool_decide_eq_false_1 in Hpresent.
           unfold read_prop in Hcur.
           destruct (lookup_prop part ps); [|done]. by destruct Hpresent.
      * apply negb_true_iff in Ht. by destruct (get_prop current part).
    + pose proof (KeyPathProofs.set_walk_is_object _ _ _ _ _ Hchild) as Hco.
      split; [|split].
      * eapply KeyPathProofs.get_set_prop; [|done].
        by apply KeyPathProofs.is_object_not_hole.
      * by eapply KeyPathProofs.set_prop_is_object.
      * intros other Hother.
        rewrite (get_set_prop_other _ _ _ _ _ (not_eq_sym Hother) Hr).
        by rewrite (get_set_prop_other _ _ _ _ _ (not_eq_sym Hother) Hc).
  - cbn [mbind outcome_bind].
    destruct (set_parts (get_prop current part) (next :: rest) v)
      as [child|] eqn:Hchild; [|discriminate].
    cbn [mbind outcome_bind]. intros Hr.
    pose proof (set_parts_succeeds_on_object _ _ _ _ _ Hchild) as Hobj.
    exists false, child. split; [done|]. split; [done|].
    pose proof (KeyPathProofs.set_walk_is_object _ _ _ _ _ Hchild) as Hco.
    split; [|split].
    + eapply KeyPathProofs.get_set_prop; [|done].
      by apply KeyPathProofs.is_object_not_hole.
    + by eapply KeyPathProofs.set_prop_is_object.
    + intros other Hother.
      by rewrite (get_set_prop_other _ _ _ _ _ (not_eq_sym Hother) Hr).
Qed.

Lemma get_walk_step v part rest :
  KeyPathProofs.is_object v →
  get_walk v (part :: rest) = get_walk (get_prop v part) rest.
Proof. apply KeyPathProofs.get_walk_object. Qed.

Lemma get_walk_below_empty parts :
  parts ≠ [] → get_walk (VObj []) parts = VUndef.
Proof.
  destruct parts as [|part rest]; [done|]. intros _.
  by apply KeyPathProofs.get_walk_missing.
Qed.

(** Where the path that is set and the path that is read part. *)
Lemma set_parts_frame common : ∀ current a rest b rest' v r,
  a ≠ b →
  set_parts current (common ++ a :: rest) v = Ok r →
  get_walk r (common ++ b :: rest') = get_walk current (common ++ b :: rest').
Proof.
  induction common as [|part common IH]; intros current a rest b rest' v r Hne.
  - cbn [app]. intros Hr.
    pose proof (set_parts_succeeds_on_object _ _ _ _ _ Hr) as Hcur.
    destruct rest as [|next rest].
    + unfold set_parts in Hr. cbn [removelast List.last set_walk] in Hr.
      rewrite !get_walk_step;
        [|done|by eapply KeyPathProofs.set_prop_is_object].
      by rewrite (get_set_prop_other _ _ _ _ _ Hne Hr).
    + apply set_parts_step in Hr as (_ & _ & _ & _ & _ & Hobj & Hother).
      rewrite !get_walk_step by done. by rewrite Hother.
  - cbn [app]. intros Hr.
    pose proof (set_parts_succeeds_on_object _ _ _ _ _ Hr) as Hcur.
    assert (∃ next more, common ++ a :: rest = next :: more) as (next & more & Heq).
    { destruct common; cbn [app]; eauto. }
    rewrite Heq in Hr.
    apply set_parts_step in Hr
      as (repaired & child & Hchild & Hrep & Hget & Hobj & _).
    rewrite <- Heq in Hchild.
    rewrite !get_walk_step by done. rewrite Hget.
    rewrite (IH _ _ _ _ rest' _ _ Hne Hchild).
    destruct repaired; [|done].
    rewrite get_walk_below_empty by (by destruct common).
    symmetry.
    assert (∃ x xs, common ++ b :: rest' = x :: xs) as (x & xs & ->).
    { destruct common; cbn [app]; eauto. }
    by apply KeyPathProofs.get_walk_primitive, Hrep.
Qed.



End FrameProofs.

(* ================================================================== *)
(** ** The flattened keys of a document                               *)
(* ================================================================== *)

Module DocumentProofs.
Import JS KeyPath KeyPathProofs.

(** The values of [items] are the leaves: no plain object is among
    them. *)
Lemma items_leaf v it : it ∈ items v → is_plain_object it.2 = false.
Proof.
  revert it.
  induction v as [| | | | | |es ps _ _|ps IH] using value_ind;
    intros it; try (by intros ?%elem_of_nil).
  induction IH as [|[k x] ps Hx _ IHps]; [by intros ?%elem_of_nil|].
  rewrite items_cons. intros [H|H]%elem_of_app; [|by apply IHps].
  destruct (is_plain_object x) eqn:E.
  - apply list_elem_of_fmap in H as (q & -> & Hq). cbn [snd] in *.
    by apply Hx.
  - by apply list_elem_of_singleton in H as ->.
Qed.

(** In a document they are JSON values. *)
Lemma items_pure v :
  ∀ ps, v = VObj ps → values_ok ps = true →
  ∀ it, it ∈ items v → json_pure it.2 = true.
Proof.
  induction v as [| | | | | |es ps _ _|ps IH] using value_ind;
    try discriminate.
  intros ? [= <-]. induction IH as [|[k x] ps Hx _ IHps];
    [by intros _ it ?%elem_of_nil|].
  unfold values_ok. cbn [forallb snd].
  intros [Hok Hv]%andb_true_iff it. rewrite items_cons.
  intros [H|H]%elem_of_app; [|by apply IHps].
  destruct (is_plain_object x) eqn:E.
  - apply list_elem_of_fmap in H as (q & -> & Hq). cbn [snd] in *.
    destruct (is_plain_object_obj _ E) as [sub ->].
    rewrite nested_ok_obj in Hok.
    apply andb_true_iff in Hok as [_ Hv'].
    by apply (Hx sub).
  - apply list_elem_of_singleton in H as ->. cbn [snd].
    by apply nested_ok_pure.
Qed.

(** Every path of an object begins with one of its keys. *)
Lemma flat_parts_head ps parts :
  parts ∈ flat_parts (VObj ps) →
  ∃ k rest, parts = k :: rest ∧ k ∈ keys ps.
Proof.
  induction ps as [|[k x] ps IH]; [by intros ?%elem_of_nil|].
  rewrite flat_parts_cons. intros [H|H]%elem_of_app.
  - exists k. destruct (is_plain_object x).
    + apply list_elem_of_fmap in H as (q & -> & _). exists q.
      split; [done|]. apply list_elem_of_here.
    + apply list_elem_of_singleton in H as ->. exists [].
      split; [done|]. apply list_elem_of_here.
  - destruct (IH H) as (k' & rest & -> & Hk). exists k', rest.
    split; [done|]. by apply list_elem_of_further.
Qed.

Definition part_ways (P Q : list string) : Prop :=
  ∃ common a rest b rest',
    P = common ++ a :: rest ∧ Q = common ++ b :: rest' ∧ a ≠ b.

Lemma part_ways_sym P Q : part_ways P Q → part_ways Q P.
Proof.
  intros (common & a & rest & b & rest' & -> & -> & Hne).
  exists common, b, rest', a, rest. by repeat split.
Qed.

Lemma part_ways_cons k P Q : part_ways P Q → part_ways (k :: P) (k :: Q).
Proof.
  intros (common & a & rest & b & rest' & -> & -> & Hne).
  exists (k :: common), a, rest, b, rest'. by repeat split.
Qed.

(** Two different paths of a document part ways at some segment: no
    leaf lies below another one. *)
Lemma flat_parts_part_ways v :
  ∀ ps, v = VObj ps → good_keys ps = true → values_ok ps = true →
  ∀ P Q, P ∈ flat_parts v → Q ∈ flat_parts v → P ≠ Q → part_ways P Q.
Proof.
  induction v as [| | | | | |es ps _ _|ps IH] using value_ind;
    try discriminate.
  intros ? [= <-]. induction IH as [|[k x] ps Hx _ IHps];
    [by intros _ _ P Q ?%elem_of_nil|].
  intros Hgood. pose proof (good_keys_distinct _ Hgood) as Hd.
  apply good_keys_cons in Hgood as [_ Hg].
  unfold values_ok. cbn [forallb snd].
  intros [Hok Hv]%andb_true_iff P Q.
  cbn [keys map fst distinct] in Hd.
  apply andb_true_iff in Hd as [Hk%negb_true_iff%distinct_not_elem _].
  assert (∀ R, R ∈ (if is_plain_object x
                     then map (cons k) (flat_parts x) else [[k]]) →
               ∃ rest, R = k :: rest) as Hhead.
  { intros R HR. destruct (is_plain_object x).
    - apply list_elem_of_fmap in HR as (q & -> & _). by exists q.
    - apply list_elem_of_singleton in HR as ->. by exists []. }
  assert (∀ R S, R ∈ (if is_plain_object x
                       then map (cons k) (flat_parts x) else [[k]]) →
                 S ∈ flat_parts (VObj ps) → part_ways R S) as Hcross.
  { intros R S [r ->]%Hhead (k' & s & -> & Hk')%flat_parts_head.
    exists [], k, r, k', s. repeat split. intros <-. by apply Hk. }
  rewrite flat_parts_cons.
  intros [HP|HP]%elem_of_app [HQ|HQ]%elem_of_app Hne.
  - destruct (is_plain_object x) eqn:E.
    + apply list_elem_of_fmap in HP as (p & -> & Hp).
      apply list_elem_of_fmap in HQ as (q & -> & Hq).
      destruct (is_plain_object_obj _ E) as [sub ->].
      rewrite nested_ok_obj in Hok.
      apply andb_true_iff in Hok as [[_ Hg']%andb_true_iff Hv'].
      cbn [snd] in Hx. apply part_ways_cons.
      apply (Hx sub eq_refl Hg' Hv' p q Hp Hq). congruence.
    + apply list_elem_of_singleton in HP as ->.
      by apply list_elem_of_singleton in HQ as ->.
  - by apply Hcross.
  - apply part_ways_sym. by apply Hcross.
  - by apply IHps.
Qed.

(** The segments of a flattened key of a document are a path of
    [flat_parts]. *)
Lemma flattened_key_parts ps p :
  good_keys ps = true → values_ok ps = true →
  p ∈ flatten_object (VObj ps) "" →
  split p ∈ flat_parts (VObj ps) ∧ join_parts "" (split p) = p.
Proof.
  intros Hg Hv. rewrite flatten_object_obj_parts.
  intros (parts & -> & Hparts)%list_elem_of_fmap.
  rewrite split_join;
    [done|by eapply flat_parts_not_nil|by eapply flat_parts_segments].
Qed.

(** The flattened keys of a document address its leaves, one each:
    reading a flattened key gives a value that is there and is no
    object, and writing one flattened key leaves what every other
    flattened key reads unchanged. *)
Theorem flattened_keys_are_separate_leaves D paths :
  document D = true →
  flattenKeys D "" = Ok paths →
  (∀ p, p ∈ paths →
        is_plain_object (getValueByPath D p) = false
        ∧ is_undefined (getValueByPath D p) = false)
  ∧ (∀ p q v r, p ∈ paths → q ∈ paths → p ≠ q →
        setValueByPath D p v = Ok r →
        getValueByPath r q = getValueByPath D q).
Proof.
  destruct D as [| | | | | | |ps]; try discriminate.
  cbn [document]. intros [Hg Hv]%andb_true_iff [= <-]. split.
  - intros p Hp. destruct (flattened_key_parts ps p Hg Hv Hp) as [Hin _].
    rewrite <- items_parts in Hin.
    apply list_elem_of_fmap in Hin as (it & Hit & Hin).
    unfold getValueByPath. rewrite Hit.
    pose proof (items_get (VObj ps) ps eq_refl [] (good_keys_distinct _ Hg)
                  Hv it Hin) as Hget.
    cbn [app] in Hget. rewrite Hget.
    split; [by eapply items_leaf|].
    pose proof (items_pure (VObj ps) ps eq_refl Hv it Hin) as Hpure.
    by destruct it.2.
  - intros p q v r Hp Hq Hne Hset.
    destruct (flattened_key_parts ps p Hg Hv Hp) as [HP Hjp].
    destruct (flattened_key_parts ps q Hg Hv Hq) as [HQ Hjq].
    destruct (flat_parts_part_ways (VObj ps) ps eq_refl Hg Hv
                (split p) (split q) HP HQ)
      as (common & a & rest & b & rest' & Hsp & Hsq & Hab);
      [congruence|].
    assert (json_pure (VObj ps) = true) as Hpure.
    { rewrite json_pure_obj. by apply values_ok_pure. }
    unfold getValueByPath. rewrite Hsq.
    unfold setValueByPath, JSON_parse_stringify in Hset.
    rewrite (json_pure_defined _ Hpure) in Hset.
    cbn [mbind outcome_bind] in Hset.
    rewrite json_copy_pure in Hset by done.
    fold (FrameProofs.set_parts (VObj ps) (split p) v) in Hset.
    rewrite Hsp in Hset.
    by eapply FrameProofs.set_parts_frame.
Qed.

(** In the sample document, writing [a.b] leaves [a.c] as it read. *)
Lemma flattened_keys_are_separate_leaves_witness :
  getValueByPath
    (VObj [("7", VStr "seven");
           ("a", VObj [("b", VStr "Hallo");
                       ("c", VArr [VNum 1; VObj [("k.", VNull)]] [])]);
           ("d", VNull)])
    "a.c"
  = getValueByPath sample "a.c".
Proof.
  apply (proj2 (flattened_keys_are_separate_leaves
                  sample ["7"; "a.b"; "a.c"; "d"] eq_refl eq_refl)
               "a.b" "a.c" (VStr "Hallo")).
  - repeat constructor.
  - repeat constructor.
  - discriminate.
  - reflexivity.
Defined.

End DocumentProofs.

(* ================================================================== *)
(** ** Properties of the role shown to the user                       *)
(* ================================================================== *)

Module RoleProofs.
Import Cloud Collaboration.

(** The unique index on [(userId, projectId)] of [ProjectMember]. *)
Definition one_membership_each (db : DB) : Prop :=
  NoDup (map (fun m => (pm_userId m, pm_projectId m)) (members db)).

Lemma same_membership db m1 m2 :
  one_membership_each db → m1 ∈ members db → m2 ∈ members db →
  pm_userId m1 = pm_userId m2 → pm_projectId m1 = pm_projectId m2 →
  m1 = m2.
Proof.
  intros Hone H1 H2 Hu Hp.
  apply (AccessProofs.unique_by
           (fun m => (pm_userId m, pm_projectId m)) (members db));
    [done..|]. by rewrite Hu, Hp.
Qed.

(** For a project answered with its memberships, the role that the
    client resolves and the server's right to write agree: when every
    user has at most one membership of a project and no membership
    bears the role [owner], PUT succeeds for the user exactly when
    [getProjectRole] says [owner] or [editor]. *)
Theorem resolved_role_agrees_with_server db u id view upd :
  one_membership_each db →
  (∀ m, m ∈ members db → pm_role m ≠ "owner") →
  get_project db (Some u) id = Success view →
  (put_project db (Some u) id upd).2
  = Success (apply_update (v_row view) upd)
  ↔ getProjectRole (Some u) view = "owner"
    ∨ getProjectRole (Some u) view = "editor".
Proof.
  intros Hone Hroles. unfold get_project, put_project.
  destruct (String.eqb u ""); [discriminate|].
  destruct (projects db !! id) as [row|] eqn:Hrow; [|discriminate].
  destruct (can_view db u id row); [|discriminate]. intros [= <-].
  unfold getProjectRole, can_edit. cbn [v_row v_members].
  destruct (String.eqb (p_ownerId row) u); cbn [orb snd].
  { split; [by left|done]. }
  destruct (List.find (fun m => String.eqb (pm_userId m) u)
                      (project_members db id)) as [mine|] eqn:Hfind.
  - apply find_some in Hfind as [Hin Hu]. unfold project_members in Hin.
    apply filter_In in Hin as [Hin Hp].
    apply String.eqb_eq in Hu, Hp.
    assert (existsb (fun m => String.eqb (pm_userId m) u
                              && String.eqb (pm_projectId m) id
                              && String.eqb (pm_role m) "editor")
                    (members db)
            = String.eqb (pm_role mine) "editor") as ->.
    { destruct (String.eqb_spec (pm_role mine) "editor") as [Hr|Hr].
      - apply existsb_exists. exists mine. split; [done|].
        by rewrite Hu, Hp, Hr, !String.eqb_refl.
      - destruct (existsb _ (members db)) eqn:He; [exfalso|done].
        apply existsb_exists in He as (m & Hm & Hcond).
        apply andb_true_iff in Hcond as [Hcond Hrole].
        apply andb_true_iff in Hcond as [Hmu Hmp].
        apply String.eqb_eq in Hmu, Hmp, Hrole.
        assert (m = mine) as ->; [|done].
        apply (same_membership db); [done| | |congruence|congruence].
        + by apply list_elem_of_In.
        + by apply list_elem_of_In. }
    destruct (String.eqb_spec (pm_role mine) "editor") as [Hr|Hr].
    + split; [by right|done].
    + split; [discriminate|]. intros [Ho|He]; [|done].
      exfalso. apply (Hroles mine); [by apply list_elem_of_In|done].
  - assert (existsb (fun m => String.eqb (pm_userId m) u
                              && String.eqb (pm_projectId m) id
                              && String.eqb (pm_role m) "editor")
                    (members db) = false) as ->.
    { destruct (existsb _ (members db)) eqn:He; [exfalso|done].
      apply existsb_exists in He as (m & Hm & Hcond).
      apply andb_true_iff in Hcond as [Hcond _].
      apply andb_true_iff in Hcond as [Hmu Hmp].
      assert (In m (project_members db id)) as Hin.
      { unfold project_members. apply filter_In. by split. }
      pose proof (find_none _ _ Hfind m Hin) as Hnone. cbn in Hnone.
      congruence. }
    split; [discriminate|]. intros [?|?]; discriminate.
Qed.

(** Bob is a viewer of the shared project: he cannot write it. *)
Lemma resolved_role_agrees_with_server_witness :
  (put_project SessionProofs.shared_db (Some "bob") "cloud-1"
     (mkProjectUpdate (Some "Mine") None None None None)).2
  = Success (apply_update SessionProofs.shop_row
               (mkProjectUpdate (Some "Mine") None None None None))
  ↔ getProjectRole (Some "bob")
      (mkProjectView "cloud-1" SessionProofs.shop_row
         (Some [mkProjectMember "viewer" "bob" "cloud-1"])) = "owner"
    ∨ getProjectRole (Some "bob")
        (mkProjectView "cloud-1" SessionProofs.shop_row
           (Some [mkProjectMember "viewer" "bob" "cloud-1"])) = "editor".
Proof.
  apply (resolved_role_agrees_with_server SessionProofs.shared_db "bob"
           "cloud-1"
           (mkProjectView "cloud-1" SessionProofs.shop_row
              (Some [mkProjectMember "viewer" "bob" "cloud-1"]))).
  - apply NoDup_singleton.
  - intros m [->|[]%elem_of_nil]%elem_of_cons. discriminate.
  - reflexivity.
Defined.

(** The project that a join answers carries no memberships, so
    [getProjectRole], which gives the badge of its row in the list and
    the role with which a click on that row opens it, resolves it to
    [viewer] whatever the role that was granted; for a code of role
    [editor] the server would accept the caller's write all the same. *)
Theorem joined_project_resolves_to_viewer now db req db' j :
  join now db req = (db', Success j) →
  ∃ u view,
    x_user_id req = Some u
    ∧ joined_view db' j = Some view
    ∧ getProjectRole (Some u) view = "viewer"
    ∧ (joined_role j = "editor" →
       ∀ upd, ∃ written,
         put_project db' (Some u) (joined_project j) upd
         = (written, Success (apply_update (v_row view) upd))).
Proof.
  intros Hj.
  apply JoinProofs.join_success_inv in Hj
    as (u & c & invite & project & -> & Hu & _ & _ & _ & _ & Hp & Ho & Hm
        & _ & -> & ->).
  exists u, (mkProjectView (ic_projectId invite) project None).
  cbn [JoinProofs.request x_user_id joined_project joined_role].
  assert (projects (JoinProofs.after_join db u invite)
            !! ic_projectId invite = Some project) as Hp' by done.
  split; [done|]. split.
  { unfold joined_view. cbn [joined_project]. by rewrite Hp'. }
  split.
  - unfold getProjectRole. cbn [v_row v_members].
    apply String.eqb_neq in Ho. by rewrite Ho.
  - intros Hrole upd. cbn [v_row]. unfold put_project.
    apply String.eqb_neq in Hu. rewrite Hu, Hp'.
    rewrite (AccessProofs.can_edit_after_join _ _ _ _ Ho Hm).
    rewrite Hrole. cbn. by eexists.
Qed.

(** Bob joins with an editor code; the project in the answer resolves
    to viewer. *)
Lemma joined_project_resolves_to_viewer_witness :
  ∃ u view,
    x_user_id (JoinProofs.request "bob" "abcd2345") = Some u
    ∧ joined_view
        (JoinProofs.after_join
           (JoinProofs.db_with (JoinProofs.the_code None 0 None)) "bob"
           (JoinProofs.the_code None 0 None))
        (mkJoined "p1" "editor") = Some view
    ∧ getProjectRole (Some u) view = "viewer"
    ∧ (joined_role (mkJoined "p1" "editor") = "editor" →
       ∀ upd, ∃ written,
         put_project
           (JoinProofs.after_join
              (JoinProofs.db_with (JoinProofs.the_code None 0 None)) "bob"
              (JoinProofs.the_code None 0 None))
           (Some u) (joined_project (mkJoined "p1" "editor")) upd
         = (written, Success (apply_update (v_row view) upd))).
Proof.
  apply (joined_project_resolves_to_viewer 0
           (JoinProofs.db_with (JoinProofs.the_code None 0 None))
           (JoinProofs.request "bob" "abcd2345")).
  vm_compute. reflexivity.
Defined.

End RoleProofs.
